(** * pg_normalize_query: a shallow embedding of src/pg_normalize_query.c

    The module replaces every literal constant of an SQL statement by a
    positional placeholder [$n].  It has three parts, run in sequence over one
    working state ([pgnqConstLocations]):

    - [pgnq_const_record_walker] walks the raw parse tree and records the
      byte offset of every constant and the highest [$n] already present;
    - [pgnq_fill_in_constant_lengths] sorts the offsets and re-runs the core
      scanner over the text to find the byte length of each constant;
    - [pgnq_build_normalized_query] copies the text, writing a placeholder
      over each constant whose length was found.

    What belongs to PostgreSQL and not to this module (the parser, the core
    scanner, [raw_expression_tree_walker], [check_stack_depth], [palloc] and
    the C library) is described by its interface: the parse tree and the
    token sequence of the scanner are inputs of the model. *)

From Stdlib Require Import ZArith List Lia Bool Arith.
From Stdlib Require Import Strings.Byte Strings.String.
From Stdlib Require Import Sorting.Sorted Sorting.Permutation.
Import ListNotations.
Local Open Scope Z_scope.

(** ** C integers *)

(** [int] is 32 bits wide.  PostgreSQL and the extensions built with its
    makefiles are compiled with -fwrapv, so signed arithmetic wraps around in
    two's complement; [to_int] is that wrap-around, written on [Z]. *)
Definition INT_MAX : Z := 2147483647.
Definition INT_MIN : Z := -2147483648.

Definition to_int (z : Z) : Z := (z + 2147483648) mod 4294967296 - 2147483648.

Definition int_add (a b : Z) : Z := to_int (a + b).
Definition int_sub (a b : Z) : Z := to_int (a - b).
Definition int_mul (a b : Z) : Z := to_int (a * b).

Declare Scope cint_scope.
Delimit Scope cint_scope with cint.
Infix "+i" := int_add (at level 50, left associativity) : cint_scope.
Infix "-i" := int_sub (at level 50, left associativity) : cint_scope.
Infix "*i" := int_mul (at level 40, left associativity) : cint_scope.
Local Open Scope cint_scope.

(** [size_t] is 64 bits wide and unsigned; converting a negative [int] to it
    gives a huge size. *)
Definition to_size_t (z : Z) : Z := z mod 18446744073709551616.

(** ** Errors

    The ways a call can end without returning: an [ereport(ERROR)] of the
    stack-depth guard or of the allocator, the [elog(ERROR)] of
    [raw_expression_tree_walker] for a node type it does not know, a failed
    [Assert], and an access outside an allocated object. *)
Inductive pg_error : Type :=
| StackDepthExceeded
| InvalidAllocSize (size : Z)
| UnrecognizedNodeType
| AssertFailed (line : Z)
| BufferOverrun (index size : Z).

Inductive result (A : Type) : Type :=
| Ok (a : A)
| Err (e : pg_error).
Arguments Ok {A} a.
Arguments Err {A} e.

Definition bind {A B : Type} (m : result A) (k : A -> result B) : result B :=
  match m with
  | Ok a => k a
  | Err e => Err e
  end.

Notation "x <- m ;; k" := (bind m (fun x => k))
  (at level 61, m at next level, right associativity).
Notation "' p <- m ;; k" := (bind m (fun x => let 'p := x in k))
  (at level 61, p pattern, m at next level, right associativity).

Definition Assert (line : Z) (cond : bool) : result unit :=
  if cond then Ok tt else Err (AssertFailed line).

(** ** The allocator (PostgreSQL's palloc and repalloc)

    A request above [MaxAllocSize] is refused with an error.  Fresh memory is
    not initialised: the model fills it with [filler], and nothing below
    reads a cell before writing it. *)
Definition MaxAllocSize : Z := 1073741823.

Definition AllocSizeIsValid (size : Z) : bool := size <=? MaxAllocSize.

Definition palloc {A : Type} (filler : A) (cell : Z) (n : Z) : result (list A) :=
  let size := to_size_t (to_size_t n * cell) in
  if AllocSizeIsValid size then Ok (repeat filler (Z.to_nat n))
  else Err (InvalidAllocSize size).

Definition repalloc {A : Type} (filler : A) (cell : Z) (old : list A) (n : Z)
  : result (list A) :=
  let size := to_size_t (to_size_t n * cell) in
  if AllocSizeIsValid size
  then Ok (firstn (Z.to_nat n) old
             ++ repeat filler (Z.to_nat n - List.length old)%nat)
  else Err (InvalidAllocSize size).

(** Writing cell [i] of an array of [List.length a] cells. *)
Definition array_set {A : Type} (a : list A) (i : Z) (x : A) : result (list A) :=
  if (0 <=? i) && (i <? Z.of_nat (List.length a))
  then Ok (firstn (Z.to_nat i) a ++ x :: skipn (S (Z.to_nat i)) a)
  else Err (BufferOverrun i (Z.of_nat (List.length a))).

(** ** Data model *)

(** struct pgnqLocationLen: the start offset of a constant in the query text
    and its length in bytes, or -1 to ignore it. *)
Record pgnqLocationLen : Type := mkLocationLen {
  location : Z;
  length : Z
}.

(** struct pgnqConstLocations.  [clocations] is the allocated array, of
    [clocations_buf_size] cells; its first [clocations_count] cells are the
    records. *)
Record pgnqConstLocations : Type := mkConstLocations {
  clocations : list pgnqLocationLen;
  clocations_buf_size : Z;
  clocations_count : Z;
  highest_extern_param_id : Z
}.

Definition sizeof_pgnqLocationLen : Z := 8.

Definition uninitialised : pgnqLocationLen := mkLocationLen 0 0.

(** The records of a state: the cells below [clocations_count]. *)
Definition records (jstate : pgnqConstLocations) : list pgnqLocationLen :=
  firstn (Z.to_nat (clocations_count jstate)) (clocations jstate).

Definition set_records (jstate : pgnqConstLocations) (locs : list pgnqLocationLen)
  : pgnqConstLocations :=
  mkConstLocations
    (locs ++ skipn (Z.to_nat (clocations_count jstate)) (clocations jstate))
    (clocations_buf_size jstate)
    (clocations_count jstate)
    (highest_extern_param_id jstate).

(** The workspace set up by [pg_normalize_query] (lines 73-77). *)
Definition pgnq_initial_state : result pgnqConstLocations :=
  let buf_size := 32 in
  a <- palloc uninitialised sizeof_pgnqLocationLen buf_size ;;
  Ok (mkConstLocations a buf_size 0 0).

(** ** pgnq_record_const_location (lines 324-343) *)
Definition pgnq_record_const_location (jstate : pgnqConstLocations) (loc : Z)
  : result pgnqConstLocations :=
  (* -1 indicates unknown or undefined location *)
  if loc >=? 0 then
    (* enlarge array if needed *)
    '(a, buf_size) <-
      (if clocations_count jstate >=? clocations_buf_size jstate then
         let buf_size := clocations_buf_size jstate *i 2 in
         a <- repalloc uninitialised sizeof_pgnqLocationLen
                (clocations jstate) buf_size ;;
         Ok (a, buf_size)
       else Ok (clocations jstate, clocations_buf_size jstate)) ;;
    (* initialize lengths to -1 *)
    a <- array_set a (clocations_count jstate) (mkLocationLen loc (-1)) ;;
    Ok (mkConstLocations a buf_size
          (clocations_count jstate +i 1)
          (highest_extern_param_id jstate))
  else Ok jstate.

(** ** Parse trees

    A value of type [Node] is a [Node *] of the raw parse tree: [NULL], or a
    node with its tag.  Of the fields of a node the model keeps those the
    module reads: the location of an [A_Const], the number of a [ParamRef],
    the designated inner field of each wrapper kind.  A wrapper carries its
    child fields too ([fields]); the module reads none of them but the
    designated one.

    What [raw_expression_tree_walker] does with a node belongs to
    PostgreSQL.  [OtherNode] is a node of one of the tags that function
    knows (a List, a SelectStmt, an A_Expr, a ResTarget, ...), with the
    sub-nodes it calls the walker on, in order ([walked]).  [UtilityStmt] is
    a node of any other tag (a TransactionStmt, a CreateStmt, ...). *)
#[warnings="-register-all"] Inductive Node : Type :=
| NULL
| A_Const (loc : Z)
| ParamRef (number : Z)
| DefElem (arg : Node) (fields : list Node)
| RawStmt (stmt : Node) (fields : list Node)
| VariableSetStmt (args : Node) (fields : list Node)
| CopyStmt (query : Node) (fields : list Node)
| ExplainStmt (query : Node) (fields : list Node)
| AlterRoleStmt (options : Node) (fields : list Node)
| DeclareCursorStmt (query : Node) (fields : list Node)
| OtherNode (walked : list Node)
| UtilityStmt.

Definition is_NULL (node : Node) : bool :=
  match node with
  | NULL => true
  | _ => false
  end.

(** raw_expression_tree_walker (PostgreSQL's nodeFuncs.c).  The function
    switches on the tag of the node.  For a primitive node ([A_Const],
    [ParamRef]) it calls nothing and returns false; for the other tags it
    knows it calls the walker on each sub-node in turn, and abandons the
    walk as soon as the walker returns true.  For every other tag it raises
    the error "unrecognized node type": the tags of the seven wrapper kinds
    are among these, and so is every utility statement.  (The function
    calls [check_stack_depth] too, one frame below the walker that called
    it; the count of nested walker calls covers it.) *)
Section Walker.

Context {C : Type}.

Fixpoint walk_nodes (walker : Node -> C -> result (bool * C))
  (nodes : list Node) (context : C) : result (bool * C) :=
  match nodes with
  | [] => Ok (false, context)
  | n :: rest =>
      '(stop, context) <- walker n context ;;
      if stop then Ok (true, context) else walk_nodes walker rest context
  end.

Definition raw_expression_tree_walker (node : Node)
  (walker : Node -> C -> result (bool * C)) (context : C) : result (bool * C) :=
  match node with
  | NULL | A_Const _ | ParamRef _ => Ok (false, context)
  | OtherNode walked => walk_nodes walker walked context
  | DefElem _ _ | RawStmt _ _ | VariableSetStmt _ _ | CopyStmt _ _
  | ExplainStmt _ _ | AlterRoleStmt _ _ | DeclareCursorStmt _ _
  | UtilityStmt => Err UnrecognizedNodeType
  end.

End Walker.

(** ** pgnq_const_record_walker (lines 345-404)

    [check_stack_depth] raises an error when the call stack is too deep.  The
    model counts the nested calls of the walker: [stack] is the number of
    nested calls still allowed. *)

(** The switch on the node tag: what it does to the state, and the value it
    leaves in [nodeReturn]. *)
Definition pgnq_walker_switch (node : Node) (jstate : pgnqConstLocations)
  : result (Node * pgnqConstLocations) :=
  match node with
  | A_Const loc =>
      jstate <- pgnq_record_const_location jstate loc ;;
      Ok (NULL, jstate)
  | ParamRef number =>
      if number >? highest_extern_param_id jstate
      then Ok (NULL, mkConstLocations (clocations jstate)
                       (clocations_buf_size jstate) (clocations_count jstate)
                       number)
      else Ok (NULL, jstate)
  | DefElem arg _ => Ok (arg, jstate)
  | RawStmt stmt _ => Ok (stmt, jstate)
  | VariableSetStmt args _ => Ok (args, jstate)
  | CopyStmt query _ => Ok (query, jstate)
  | ExplainStmt query _ => Ok (query, jstate)
  | AlterRoleStmt options _ => Ok (options, jstate)
  | DeclareCursorStmt query _ => Ok (query, jstate)
  | NULL | OtherNode _ | UtilityStmt => Ok (NULL, jstate)
  end.

Fixpoint pgnq_const_record_walker (stack : nat) (node : Node)
  (jstate : pgnqConstLocations) : result (bool * pgnqConstLocations) :=
  if is_NULL node then Ok (false, jstate)
  else
    match stack with
    | O => Err StackDepthExceeded
    | S stack =>
        '(nodeReturn, jstate) <- pgnq_walker_switch node jstate ;;
        if negb (is_NULL nodeReturn)
        then pgnq_const_record_walker stack nodeReturn jstate
        else raw_expression_tree_walker node
               (pgnq_const_record_walker stack) jstate
    end.

(** ** C strings *)

Definition NUL : byte := x00.

(** [s[i]] for a string whose bytes are [s]: the byte after the last one is
    the terminator, and the model reads NUL outside the string too. *)
Definition byte_at (s : list byte) (i : Z) : byte :=
  if i <? 0 then NUL else nth (Z.to_nat i) s NUL.

(** strlen: the number of bytes before the first NUL. *)
Fixpoint strlen (s : list byte) : nat :=
  match s with
  | [] => O
  | b :: rest => if Byte.eqb b NUL then O else S (strlen rest)
  end.

(** [strlen(s + i)]. *)
Definition strlen_from (s : list byte) (i : Z) : nat :=
  strlen (skipn (Z.to_nat i) s).

(** ** The core scanner (PostgreSQL's scan.l), by its interface

    For a text the scanner yields a sequence of tokens and then 0, the
    end-of-input code.  A token has its code [tok], the offset [yylloc] where
    it starts, and the offset [yyend] where the text matched for it ends.
    The scanner works on a copy of the text followed by two NUL bytes,
    [scanbuf]; on returning a token it has put a NUL byte at [yyend], and it
    puts the byte of the text back when it is called again (flex's hold
    character). *)
Record token : Type := mkToken {
  tok : Z;
  yylloc : Z;
  yyend : Z
}.

Record core_yyscan : Type := mkScan {
  scan_text : list byte;
  pending : list token;
  scanbuf : list byte
}.

Definition put_NUL (buf : list byte) (i : Z) : list byte :=
  if (0 <=? i) && (i <? Z.of_nat (List.length buf))
  then firstn (Z.to_nat i) buf ++ NUL :: skipn (S (Z.to_nat i)) buf
  else buf.

Definition scanner_init (text : list byte) (tokens : list token) : core_yyscan :=
  mkScan text tokens (text ++ [NUL; NUL]).

(** core_yylex: the token code, yylloc, and the scanner after the call. *)
Definition core_yylex (yyscanner : core_yyscan) : Z * Z * core_yyscan :=
  match pending yyscanner with
  | [] => (0, Z.of_nat (List.length (scan_text yyscanner)),
           mkScan (scan_text yyscanner) [] (scan_text yyscanner ++ [NUL; NUL]))
  | t :: rest =>
      (tok t, yylloc t,
       mkScan (scan_text yyscanner) rest
         (put_NUL (scan_text yyscanner ++ [NUL; NUL]) (yyend t)))
  end.

(** ** pgnq_comp_location (lines 93-105) and qsort *)
Definition pgnq_comp_location (a b : pgnqLocationLen) : Z :=
  let l := location a in
  let r := location b in
  if l <? r then -1
  else if l >? r then 1
  else 0.

(** The C library's qsort orders the array by the comparator and promises
    nothing about the order of elements that compare equal.  The model is an
    insertion sort, which keeps them in their order; the lemma
    [qsort_unique] shows that for the records the resolver sorts, which all
    have length -1, no other outcome exists. *)
Section Qsort.

Context {A : Type} (compar : A -> A -> Z).

Fixpoint qsort_insert (x : A) (l : list A) : list A :=
  match l with
  | [] => [x]
  | y :: rest =>
      if compar x y <=? 0 then x :: y :: rest
      else y :: qsort_insert x rest
  end.

Definition qsort (l : list A) : list A := fold_right qsort_insert [] l.

End Qsort.

(** ** The C library: memcpy and sprintf *)

(** A buffer is the list of its bytes.  [memcpy(dst + at, src + from, n)]
    for [n >= 0]: both ranges have to lie inside their objects; [src] is a
    string, whose object ends with its terminator. *)
Definition memcpy (dst : list byte) (at_ : Z) (src : list byte) (from n : Z)
  : result (list byte) :=
  let dst_size := Z.of_nat (List.length dst) in
  let src_size := Z.of_nat (List.length src) + 1 in
  if negb ((0 <=? at_) && (at_ + n <=? dst_size))
  then Err (BufferOverrun (at_ + n) dst_size)
  else if negb ((0 <=? from) && (from + n <=? src_size))
  then Err (BufferOverrun (from + n) src_size)
  else
    Ok (firstn (Z.to_nat at_) dst
          ++ firstn (Z.to_nat n) (skipn (Z.to_nat from) (src ++ [NUL]))
          ++ skipn (Z.to_nat (at_ + n)) dst).

Definition digits : list byte :=
  ["0"; "1"; "2"; "3"; "4"; "5"; "6"; "7"; "8"; "9"]%byte.

Definition digit (d : Z) : byte := nth (Z.to_nat d) digits "0"%byte.

(** The decimal digits of [n >= 0], at most [fuel] of them; an [int] has at
    most ten. *)
Fixpoint decimal (fuel : nat) (n : Z) : list byte :=
  match fuel with
  | O => []
  | S fuel =>
      (if n <? 10 then [] else decimal fuel (n / 10)) ++ [digit (n mod 10)]
  end.

(** What the conversion %d prints for an [int]. *)
Definition format_d (n : Z) : list byte :=
  if n <? 0 then "-"%byte :: decimal 10 (- n) else decimal 10 n.

(** [sprintf(dst + at, "$%d", n)]: the text and its terminator are written
    at [at]; the result is the buffer and the number of bytes printed, the
    terminator not counted. *)
Definition sprintf_param (dst : list byte) (at_ : Z) (n : Z)
  : result (list byte * Z) :=
  let text := "$"%byte :: format_d n in
  let k := Z.of_nat (List.length text) in
  let dst_size := Z.of_nat (List.length dst) in
  if negb ((0 <=? at_) && (at_ + k + 1 <=? dst_size))
  then Err (BufferOverrun (at_ + k + 1) dst_size)
  else
    Ok (firstn (Z.to_nat at_) dst ++ text ++ NUL
          :: skipn (Z.to_nat (at_ + k + 1)) dst, k).


(** * Example statements

    Statements with the tokens the scanner yields for them and their raw
    parse trees, for the instances of the theorems below. *)

Definition bytes (s : string) : list byte := list_byte_of_string s.
Arguments bytes s%_string.

(** [scanner_isspace] of scansup.c: space, \t, \n, \r and \f. *)
Definition pg_isspace (ch : byte) : bool :=
  match ch with
  | x20 | x09 | x0a | x0d | x0c => true
  | _ => false
  end.

(** Token codes.  A token of one character has the code of the character;
    the values given here to the other codes play no part, the module only
    compares a code with 0. *)
Definition KEYWORD : Z := 300.
Definition IDENT : Z := 258.
Definition SCONST : Z := 261.
Definition USCONST : Z := 262.
Definition ICONST : Z := 266.
Definition PARAM : Z := 267.
Definition COMMA : Z := 44.
Definition MINUS : Z := 45.
Definition STAR : Z := 42.
Definition EQUALS : Z := 61.

Fixpoint bytes_eqb (a b : list byte) : bool :=
  match a, b with
  | [], [] => true
  | x :: a, y :: b => Byte.eqb x y && bytes_eqb a b
  | _, _ => false
  end.

(** A scanner and a parser that know the statements of a table. *)
Fixpoint example_scanner (table : list (list byte * list token * Node))
  (text : list byte) : list token :=
  match table with
  | [] => []
  | (sql, toks, _) :: table =>
      if bytes_eqb sql text then toks else example_scanner table text
  end.

Fixpoint example_parser (table : list (list byte * list token * Node))
  (text : list byte) : result Node :=
  match table with
  | [] => Ok NULL
  | (sql, _, tree) :: table =>
      if bytes_eqb sql text then Ok tree else example_parser table text
  end.

(** A statement as PostgreSQL 10 and later parse it: a list of one RawStmt
    around the statement proper. *)
Definition raw_stmt (stmt : Node) : Node := OtherNode [RawStmt stmt [stmt]].

(** SELECT 5 BETWEEN 1 AND 9, as the grammar of PostgreSQL 9.4 expands it:
    (5 >= 1) AND (5 <= 9), with the node of the constant 5 in both
    comparisons. *)
Definition sql_between : list byte := bytes "SELECT 5 BETWEEN 1 AND 9".

Definition tokens_between : list token :=
  [mkToken KEYWORD 0 6; mkToken ICONST 7 8; mkToken KEYWORD 9 16;
   mkToken ICONST 17 18; mkToken KEYWORD 19 22; mkToken ICONST 23 24].

Definition tree_between : Node :=
  OtherNode                                   (* the list of statements *)
    [OtherNode                                (* SelectStmt *)
       [OtherNode                             (* targetList *)
          [OtherNode                          (* ResTarget *)
             [OtherNode                       (* A_Expr AND *)
                [OtherNode [A_Const 7; A_Const 17];
                 OtherNode [A_Const 7; A_Const 23]]]]]].

Definition state_between : pgnqConstLocations :=
  mkConstLocations
    ([mkLocationLen 7 (-1); mkLocationLen 17 (-1); mkLocationLen 7 (-1);
      mkLocationLen 23 (-1)] ++ repeat uninitialised 28)
    32 4 0.

(** select $3, 1 *)
Definition sql_param : list byte := bytes "select $3, 1".

Definition tokens_param : list token :=
  [mkToken KEYWORD 0 6; mkToken PARAM 7 9; mkToken COMMA 9 10;
   mkToken ICONST 11 12].

Definition tree_param : Node :=
  raw_stmt (OtherNode [OtherNode [OtherNode [ParamRef 3];
                                  OtherNode [A_Const 11]]]).

(** select $2147483647, 1 *)
Definition sql_overflow : list byte := bytes "select $2147483647, 1".

Definition tokens_overflow : list token :=
  [mkToken KEYWORD 0 6; mkToken PARAM 7 18; mkToken COMMA 18 19;
   mkToken ICONST 20 21].

Definition tree_overflow : Node :=
  raw_stmt (OtherNode [OtherNode [OtherNode [ParamRef 2147483647];
                                  OtherNode [A_Const 20]]]).

(** select * from t where a = 1, and the same with -1: the parser gives a
    negative constant the location of its minus sign. *)
Definition sql_plain : list byte := bytes "select * from t where a = 1".
Definition sql_negated : list byte := bytes "select * from t where a = -1".

Definition tokens_plain : list token :=
  [mkToken KEYWORD 0 6; mkToken STAR 7 8; mkToken KEYWORD 9 13;
   mkToken IDENT 14 15; mkToken KEYWORD 16 21; mkToken IDENT 22 23;
   mkToken EQUALS 24 25; mkToken ICONST 26 27].

Definition tokens_negated : list token :=
  [mkToken KEYWORD 0 6; mkToken STAR 7 8; mkToken KEYWORD 9 13;
   mkToken IDENT 14 15; mkToken KEYWORD 16 21; mkToken IDENT 22 23;
   mkToken EQUALS 24 25; mkToken MINUS 26 27; mkToken ICONST 27 28].

Definition tree_where : Node :=
  raw_stmt (OtherNode                        (* SelectStmt *)
              [OtherNode [OtherNode [OtherNode []]];      (* targetList *)
               OtherNode [OtherNode []];                  (* fromClause *)
               OtherNode [OtherNode []; A_Const 26]]).    (* whereClause *)

(** select U&'d\0061t'   , 2 with a scanner that looks for UESCAPE after
    the string and has taken the white space after it into the token. *)
Definition sql_unicode : list byte := bytes "select U&'d\0061t'   , 2".

Definition tokens_unicode : list token :=
  [mkToken KEYWORD 0 6; mkToken USCONST 7 21; mkToken COMMA 21 22;
   mkToken ICONST 23 24].

Definition tree_unicode : Node :=
  raw_stmt (OtherNode [OtherNode [OtherNode [A_Const 7];
                                  OtherNode [A_Const 23]]]).

(** select 1, 2, 3 with a scanner cut short after the first comma. *)
Definition sql_cut : list byte := bytes "select 1, 2, 3".

Definition tokens_cut : list token :=
  [mkToken KEYWORD 0 6; mkToken ICONST 7 8; mkToken COMMA 8 9].

Definition tree_cut : Node :=
  raw_stmt (OtherNode [OtherNode [OtherNode [A_Const 7];
                                  OtherNode [A_Const 10];
                                  OtherNode [A_Const 13]]]).

Definition state_cut : pgnqConstLocations :=
  mkConstLocations
    ([mkLocationLen 7 (-1); mkLocationLen 10 (-1); mkLocationLen 13 (-1)]
       ++ repeat uninitialised 29)
    32 3 0.

Definition examples : list (list byte * list token * Node) :=
  [(sql_between, tokens_between, tree_between);
   (sql_param, tokens_param, tree_param);
   (sql_overflow, tokens_overflow, tree_overflow);
   (sql_plain, tokens_plain, tree_where);
   (sql_negated, tokens_negated, tree_where);
   (sql_unicode, tokens_unicode, tree_unicode);
   (sql_cut, tokens_cut, tree_cut)].

(** EXPLAIN with and without its query. *)
Definition explain_query : Node := ExplainStmt (A_Const 5) [A_Const 9].
Definition explain_null : Node := ExplainStmt NULL [A_Const 9].

(** select 123, 4 with a tree that gives a constant the location 8, inside
    the text of the constant 123. *)
Definition sql_inside : list byte := bytes "select 123, 4".

Definition tokens_inside : list token :=
  [mkToken KEYWORD 0 6; mkToken ICONST 7 10; mkToken COMMA 10 11;
   mkToken ICONST 12 13].

Definition tree_inside : Node :=
  raw_stmt (OtherNode [OtherNode [OtherNode [A_Const 7];
                                  OtherNode [A_Const 8]]]).

Definition state_inside : pgnqConstLocations :=
  mkConstLocations
    ([mkLocationLen 7 (-1); mkLocationLen 8 (-1)] ++ repeat uninitialised 30)
    32 2 0.

(** select $2 from t limit all: a parameter, and a constant without a
    location. *)
Definition sql_no_const : list byte := bytes "select $2 from t limit all".

Definition tree_no_const : Node :=
  raw_stmt (OtherNode [OtherNode [OtherNode [ParamRef 2]];
                       OtherNode [OtherNode []];
                       A_Const (-1)]).

(** The records of [state_between] in another order, in an array that has
    been doubled. *)
Definition state_between_doubled : pgnqConstLocations :=
  mkConstLocations
    ([mkLocationLen 23 (-1); mkLocationLen 7 (-1); mkLocationLen 7 (-1);
      mkLocationLen 17 (-1)] ++ repeat uninitialised 60)
    64 4 0.

(** The records of the walk of [tree_unicode]. *)
Definition state_unicode : pgnqConstLocations :=
  mkConstLocations
    ([mkLocationLen 7 (-1); mkLocationLen 23 (-1)] ++ repeat uninitialised 30)
    32 2 0.

(** The scanner and the parser of the examples, with [sql_inside]. *)
Definition examples_more : list (list byte * list token * Node) :=
  (sql_inside, tokens_inside, tree_inside)
  :: (sql_no_const, [], tree_no_const) :: examples.

(** select 4, 5, 6 and the same with -5: the negative constant has the
    location of its minus sign, the constant after it is one byte on. *)
Definition LPAREN : Z := 40.
Definition RPAREN : Z := 41.

Definition sql_three : list byte := bytes "select 4, 5, 6".
Definition sql_three_negated : list byte := bytes "select 4, -5, 6".

Definition tokens_three : list token :=
  [mkToken KEYWORD 0 6; mkToken ICONST 7 8; mkToken COMMA 8 9;
   mkToken ICONST 10 11; mkToken COMMA 11 12; mkToken ICONST 13 14].

Definition tokens_three_negated : list token :=
  [mkToken KEYWORD 0 6; mkToken ICONST 7 8; mkToken COMMA 8 9;
   mkToken MINUS 10 11; mkToken ICONST 11 12; mkToken COMMA 12 13;
   mkToken ICONST 14 15].

Definition tree_three : Node :=
  raw_stmt (OtherNode [OtherNode [OtherNode [A_Const 7];
                                  OtherNode [A_Const 10];
                                  OtherNode [A_Const 13]]]).

Definition tree_three_negated : Node :=
  raw_stmt (OtherNode [OtherNode [OtherNode [A_Const 7];
                                  OtherNode [A_Const 10];
                                  OtherNode [A_Const 14]]]).

(** select (1), and select -(1) with a tree that has the constant at the
    minus sign. *)
Definition sql_paren : list byte := bytes "select (1)".
Definition sql_paren_negated : list byte := bytes "select -(1)".

Definition tokens_paren : list token :=
  [mkToken KEYWORD 0 6; mkToken LPAREN 7 8; mkToken ICONST 8 9;
   mkToken RPAREN 9 10].

Definition tokens_paren_negated : list token :=
  [mkToken KEYWORD 0 6; mkToken MINUS 7 8; mkToken LPAREN 8 9;
   mkToken ICONST 9 10; mkToken RPAREN 10 11].

Definition tree_paren : Node :=
  raw_stmt (OtherNode [OtherNode [OtherNode [A_Const 8]]]).

Definition tree_paren_negated : Node :=
  raw_stmt (OtherNode [OtherNode [OtherNode [A_Const 7]]]).

(** select 1, and select - -1 with the constant at the first minus sign. *)
Definition sql_one : list byte := bytes "select 1".
Definition sql_twice_negated : list byte := bytes "select - -1".

Definition tokens_one : list token :=
  [mkToken KEYWORD 0 6; mkToken ICONST 7 8].

Definition tokens_twice_negated : list token :=
  [mkToken KEYWORD 0 6; mkToken MINUS 7 8; mkToken MINUS 9 10;
   mkToken ICONST 10 11].

Definition tree_one : Node :=
  raw_stmt (OtherNode [OtherNode [OtherNode [A_Const 7]]]).

(** The scanner and the parser of the examples, with these statements. *)
Definition examples_sign : list (list byte * list token * Node) :=
  (sql_three, tokens_three, tree_three)
  :: (sql_three_negated, tokens_three_negated, tree_three_negated)
  :: (sql_paren, tokens_paren, tree_paren)
  :: (sql_paren_negated, tokens_paren_negated, tree_paren_negated)
  :: (sql_one, tokens_one, tree_one)
  :: (sql_twice_negated, tokens_twice_negated, tree_one) :: examples.

(** copy t from stdin where a = 1: a CopyStmt without a query, whose WHERE
    clause holds a constant. *)
Definition sql_copy : list byte := bytes "copy t from stdin where a = 1".

Definition tokens_copy : list token :=
  [mkToken KEYWORD 0 4; mkToken IDENT 5 6; mkToken KEYWORD 7 11;
   mkToken KEYWORD 12 17; mkToken KEYWORD 18 23; mkToken IDENT 24 25;
   mkToken EQUALS 26 27; mkToken ICONST 28 29].

Definition tree_copy : Node :=
  raw_stmt (CopyStmt NULL [OtherNode [OtherNode []; A_Const 28]]).

Definition examples_copy : list (list byte * list token * Node) :=
  (sql_copy, tokens_copy, tree_copy) :: examples.
(** ** pgnq_fill_in_constant_lengths (lines 129-229) *)
Section Normalize.

(** The collaborators: the core scanner, as the tokens it yields for a text;
    [scanner_isspace] of scansup.c, the scanner's white space; the raw
    parser, which returns the tree of a text or raises a syntax error; and the
    depth the stack-depth guard allows. *)
Variable core_scanner : list byte -> list token.
Variable scanner_isspace : byte -> bool.
Variable raw_parser : list byte -> result Node.
Variable max_stack_depth : nat.

(** Lines 212-214: [j] runs down from [length - 1] while [j >= 0] and the
    byte at [loc + j] is white space.  The argument is [j + 1], the result
    the last value of [j]. *)
Fixpoint trim_loop (scanbuf : list byte) (loc : Z) (j1 : nat) : Z :=
  match j1 with
  | O => -1
  | S j =>
      if scanner_isspace (byte_at scanbuf (loc +i Z.of_nat j))
      then trim_loop scanbuf loc j
      else Z.of_nat j
  end.

(** Lines 201-215: the length stored for the constant at [loc], from the
    scan buffer as the scanner left it. *)
Definition constant_length (scanbuf : list byte) (loc : Z) : Z :=
  let len := to_int (Z.of_nat (strlen_from scanbuf loc)) in
  if (len >? 4)
     && (Byte.eqb (byte_at scanbuf loc) "u" || Byte.eqb (byte_at scanbuf loc) "U")
     && Byte.eqb (byte_at scanbuf (loc +i 1)) "&"
     && Byte.eqb (byte_at scanbuf (loc +i 2)) "'"
  then
    let j := trim_loop scanbuf loc (Z.to_nat (len -i 1 + 1)) in
    j +i 1
  else len.

(** Lines 164-219, the inner loop: tokens are lexed until one starts at or
    after [loc], or the input ends.  The result is the last token code (0 at
    the end of input), the record, and the scanner.  Every pass calls
    [core_yylex], which takes a token from [pending] or returns 0, so
    [S (List.length pending)] passes are enough ([find_constant_fuel]). *)
Fixpoint find_constant_loop (fuel : nat) (query : list byte)
  (yyscanner : core_yyscan) (rec : pgnqLocationLen)
  : Z * pgnqLocationLen * core_yyscan :=
  match fuel with
  | O => (0, rec, yyscanner)
  | S fuel =>
      let loc := location rec in
      let '(tok, yylloc, yyscanner) := core_yylex yyscanner in
      (* We should not hit end-of-string, but if we do, behave sanely *)
      if tok =? 0 then (tok, rec, yyscanner)
      else if yylloc >=? loc then
        let '(tok, yylloc, yyscanner) :=
          (* a negative value: the one case where two tokens are replaced *)
          if Byte.eqb (byte_at query loc) "-" then core_yylex yyscanner
          else (tok, yylloc, yyscanner) in
        if tok =? 0 then (tok, rec, yyscanner)
        else
          (tok,
           mkLocationLen loc (constant_length (scanbuf yyscanner) loc),
           yyscanner)
      else find_constant_loop fuel query yyscanner rec
  end.

Definition find_constant (query : list byte) (yyscanner : core_yyscan)
  (rec : pgnqLocationLen) : Z * pgnqLocationLen * core_yyscan :=
  find_constant_loop (S (List.length (pending yyscanner))) query yyscanner rec.

(** Lines 153-226, the outer loop over the sorted records.  The result is
    the records, the scanner, [last_loc], and whether the loop was left
    because the input ended. *)
Fixpoint fill_loop (query : list byte) (locs : list pgnqLocationLen)
  (yyscanner : core_yyscan) (last_loc : Z)
  : result (list pgnqLocationLen * core_yyscan * Z * bool) :=
  match locs with
  | [] => Ok ([], yyscanner, last_loc, false)
  | rec :: rest =>
      let loc := location rec in
      _ <- Assert 158 (loc >=? 0) ;;
      if loc <=? last_loc then
        (* Duplicate constant, ignore *)
        '(rest, yyscanner, last_loc, eof) <-
          fill_loop query rest yyscanner last_loc ;;
        Ok (rec :: rest, yyscanner, last_loc, eof)
      else
        let '(tok, rec, yyscanner) := find_constant query yyscanner rec in
        (* If we hit end-of-string, give up, leaving remaining lengths -1 *)
        if tok =? 0 then Ok (rec :: rest, yyscanner, last_loc, true)
        else
          '(rest, yyscanner, last_loc, eof) <-
            fill_loop query rest yyscanner loc ;;
          Ok (rec :: rest, yyscanner, last_loc, eof)
  end.

Definition pgnq_fill_in_constant_lengths (jstate : pgnqConstLocations)
  (query : list byte) : result pgnqConstLocations :=
  let last_loc := -1 in
  (* Sort the records by location *)
  let jstate :=
    if clocations_count jstate >? 1
    then set_records jstate (qsort pgnq_comp_location (records jstate))
    else jstate in
  (* initialize the flex scanner *)
  let yyscanner := scanner_init query (core_scanner query) in
  (* Search for each constant, in sequence *)
  '(locs, _, _, _) <- fill_loop query (records jstate) yyscanner last_loc ;;
  Ok (set_records jstate locs).

(** ** pgnq_build_normalized_query (lines 244-322) *)

(** The local variables the loop of lines 276-305 changes. *)
Record build_vars : Type := mkBuild {
  norm_query : list byte;
  quer_loc : Z;       (* Source query byte location *)
  n_quer_loc : Z;     (* Normalized query byte location *)
  last_off : Z;       (* Offset from start for previous tok *)
  last_tok_len : Z    (* Length (in bytes) of that tok *)
}.

Fixpoint build_loop (query : list byte) (query_loc : Z)
  (highest_extern_param_id : Z) (locs : list pgnqLocationLen) (i : Z)
  (v : build_vars) : result build_vars :=
  match locs with
  | [] => Ok v
  | rec :: rest =>
      let off := location rec in
      (* Adjust recorded location if we're dealing with partial string *)
      let off := off -i query_loc in
      let tok_len := length rec in
      if tok_len <? 0 then
        (* ignore any duplicates *)
        build_loop query query_loc highest_extern_param_id rest (i +i 1) v
      else
        (* Copy next chunk (what precedes the next constant) *)
        let len_to_wrt := off -i last_off v in
        let len_to_wrt := len_to_wrt -i last_tok_len v in
        _ <- Assert 294 (len_to_wrt >=? 0) ;;
        buf <- memcpy (norm_query v) (n_quer_loc v) query (quer_loc v)
                 len_to_wrt ;;
        let n_quer_loc := n_quer_loc v +i len_to_wrt in
        (* And insert a param symbol in place of the constant token *)
        '(buf, printed) <-
          sprintf_param buf n_quer_loc (i +i 1 +i highest_extern_param_id) ;;
        let n_quer_loc := n_quer_loc +i printed in
        build_loop query query_loc highest_extern_param_id rest (i +i 1)
          (mkBuild buf (off +i tok_len) n_quer_loc off tok_len)
  end.

(** The result is the normalized string (the bytes before the terminator
    written at line 318) and the value left in [*query_len_p]. *)
Definition pgnq_build_normalized_query (jstate : pgnqConstLocations)
  (query : list byte) (query_loc : Z) (query_len : Z)
  : result (list byte * Z) :=
  (* Get constants' lengths; this also sorts the items by location *)
  jstate <- pgnq_fill_in_constant_lengths jstate query ;;
  let norm_query_buflen := query_len +i clocations_count jstate *i 10 in
  (* Allocate result buffer *)
  buf <- palloc NUL 1 (norm_query_buflen +i 1) ;;
  v <- build_loop query query_loc (highest_extern_param_id jstate)
         (records jstate) 0 (mkBuild buf 0 0 0 0) ;;
  (* Copy over the remaining bytes of the original query string *)
  let len_to_wrt := query_len -i quer_loc v in
  _ <- Assert 313 (len_to_wrt >=? 0) ;;
  buf <- memcpy (norm_query v) (n_quer_loc v) query (quer_loc v) len_to_wrt ;;
  let n_quer_loc := n_quer_loc v +i len_to_wrt in
  _ <- Assert 317 (n_quer_loc <=? norm_query_buflen) ;;
  buf <- array_set buf n_quer_loc NUL ;;
  Ok (firstn (Z.to_nat n_quer_loc) buf, n_quer_loc).

(** ** pg_normalize_query (lines 58-88)

    [text_to_cstring] gives the statement as a C string; [strdup] copies the
    result up to its first NUL. *)
Definition strdup (s : list byte) : list byte := firstn (strlen s) s.

Definition pg_normalize_query (sql : list byte) : result (list byte) :=
  (* Parse query *)
  tree <- raw_parser sql ;;
  (* Set up workspace for constant recording *)
  jstate <- pgnq_initial_state ;;
  (* Walk tree and record const locations *)
  '(_, jstate) <- pgnq_const_record_walker max_stack_depth tree jstate ;;
  (* Normalize query *)
  let query_len := to_int (Z.of_nat (strlen sql)) in
  '(out, _) <- pgnq_build_normalized_query jstate sql 0 query_len ;;
  Ok (strdup out).


(** * Specification *)

(** ** States *)

(** A record as [pgnq_record_const_location] stores it. *)
Definition unresolved (loc : Z) : pgnqLocationLen := mkLocationLen loc (-1).

(** The state is consistent with its array: [clocations] has
    [clocations_buf_size] cells, of which [clocations_count] are in use. *)
Definition jstate_wf (jstate : pgnqConstLocations) : Prop :=
  Z.of_nat (List.length (clocations jstate)) = clocations_buf_size jstate
  /\ 0 <= clocations_count jstate <= clocations_buf_size jstate
  /\ 0 < clocations_buf_size jstate <= INT_MAX.

(** A sequence of insertions. *)
Fixpoint record_all (jstate : pgnqConstLocations) (locs : list Z)
  : result pgnqConstLocations :=
  match locs with
  | [] => Ok jstate
  | loc :: rest =>
      jstate <- pgnq_record_const_location jstate loc ;;
      record_all jstate rest
  end.

Definition stored (locs : list Z) : list pgnqLocationLen :=
  map unresolved (filter (fun loc => 0 <=? loc) locs).

(** The state [pg_normalize_query] starts from. *)
Definition initial_state : pgnqConstLocations :=
  mkConstLocations (repeat uninitialised 32) 32 0 0.

(** The largest array the allocator grants: 2^26 records of 8 bytes. *)
Definition max_records : Z := 67108864.

(** The capacities the doubling reaches from 32. *)
Definition buf_size_ok (jstate : pgnqConstLocations) : Prop :=
  exists k : nat, (k <= 21)%nat /\ clocations_buf_size jstate = 32 * 2 ^ Z.of_nat k.

(** ** The walk *)

(** The tree holds only nodes the walk gets through: no node of a tag
    [raw_expression_tree_walker] does not know is handed to that function.
    These are the nodes of the other tags ([UtilityStmt]) and the wrappers
    whose designated field is NULL. *)
Fixpoint walkable (node : Node) : bool :=
  match node with
  | NULL | A_Const _ | ParamRef _ => true
  | DefElem inner _ | RawStmt inner _ | VariableSetStmt inner _
  | CopyStmt inner _ | ExplainStmt inner _ | AlterRoleStmt inner _
  | DeclareCursorStmt inner _ => negb (is_NULL inner) && walkable inner
  | OtherNode w => forallb walkable w
  | UtilityStmt => false
  end.

(** The nodes on which the walker is called in the walk of a walkable
    tree, in the order of the calls: a wrapper leads to its designated field
    alone, a node [raw_expression_tree_walker] knows to its sub-nodes. *)
Fixpoint reached (node : Node) : list Node :=
  match node with
  | NULL => []
  | A_Const _ | ParamRef _ | UtilityStmt => [node]
  | DefElem inner _ | RawStmt inner _ | VariableSetStmt inner _
  | CopyStmt inner _ | ExplainStmt inner _ | AlterRoleStmt inner _
  | DeclareCursorStmt inner _ => node :: reached inner
  | OtherNode w => node :: flat_map reached w
  end.

(** The number of nested calls the walk of a node needs. *)
Fixpoint walk_depth (node : Node) : nat :=
  match node with
  | NULL => O
  | A_Const _ | ParamRef _ | UtilityStmt => 1%nat
  | DefElem inner _ | RawStmt inner _ | VariableSetStmt inner _
  | CopyStmt inner _ | ExplainStmt inner _ | AlterRoleStmt inner _
  | DeclareCursorStmt inner _ => S (walk_depth inner)
  | OtherNode w => S (list_max (map walk_depth w))
  end.

Definition const_location (node : Node) : list Z :=
  match node with
  | A_Const loc => [loc]
  | _ => []
  end.

Definition param_number (node : Node) : list Z :=
  match node with
  | ParamRef number => [number]
  | _ => []
  end.

(** The locations of the constants and the numbers of the parameters the
    walk of a tree reaches. *)
Definition const_locations (tree : Node) : list Z :=
  flat_map const_location (reached tree).

Definition param_numbers (tree : Node) : list Z :=
  flat_map param_number (reached tree).

(** The largest of [h] and the numbers of a list. *)
Definition max_of (h : Z) (numbers : list Z) : Z := fold_right Z.max h numbers.

(** The designated field and the child fields of a pass-through wrapper. *)
Definition wrapper_fields (node : Node) : option (Node * list Node) :=
  match node with
  | DefElem inner w | RawStmt inner w | VariableSetStmt inner w
  | CopyStmt inner w | ExplainStmt inner w | AlterRoleStmt inner w
  | DeclareCursorStmt inner w => Some (inner, w)
  | _ => None
  end.

(** What the walk over the nodes [nodes] does to a state. *)
Definition walk_post (jstate : pgnqConstLocations) (nodes : list Node)
  (jstate' : pgnqConstLocations) : Prop :=
  records jstate' = records jstate ++ stored (flat_map const_location nodes)
  /\ clocations_count jstate'
     = clocations_count jstate
       + Z.of_nat (List.length (stored (flat_map const_location nodes)))
  /\ highest_extern_param_id jstate'
     = max_of (highest_extern_param_id jstate) (flat_map param_number nodes)
  /\ jstate_wf jstate' /\ buf_size_ok jstate'.

(** The state has room for the constants of [nodes]. *)
Definition walk_room (jstate : pgnqConstLocations) (nodes : list Node) : Prop :=
  clocations_count jstate
  + Z.of_nat (List.length (stored (flat_map const_location nodes)))
  <= max_records.

(** ** Texts and tokens *)

(** A C string holds no NUL byte before its terminator. *)
Definition no_NUL (s : list byte) : Prop := Forall (fun b => b <> NUL) s.

(** The bytes of [s] from offset [from] up to offset [to]. *)
Definition sub (s : list byte) (from to : Z) : list byte :=
  firstn (Z.to_nat (to - from)) (skipn (Z.to_nat from) s).

(** The token sequence of a text of [qlen] bytes: every token has a code
    other than 0 and a text that is not empty and lies inside the text, and
    a token starts where the one before it ends, or later.  [lo] is the
    offset the first token may start at. *)
Fixpoint tokens_wf (lo qlen : Z) (toks : list token) : bool :=
  match toks with
  | [] => true
  | t :: rest =>
      negb (tok t =? 0) && (lo <=? yylloc t) && (yylloc t <? yyend t)
      && (yyend t <=? qlen) && tokens_wf (yyend t) qlen rest
  end.

(** The tokens left when those that start before [loc] are dropped: what
    the inner loop of the resolver leaves, with the token it stops at. *)
Fixpoint skip_before (loc : Z) (toks : list token) : list token :=
  match toks with
  | [] => []
  | t :: rest => if yylloc t >=? loc then t :: rest else skip_before loc rest
  end.

(** The scanner after it has returned a token that ends at [e], with [rest]
    still to come. *)
Definition scanner_at (text : list byte) (e : Z) (rest : list token)
  : core_yyscan :=
  mkScan text rest (put_NUL (text ++ [NUL; NUL]) e).

(** The scanner at the end of the input. *)
Definition scanner_eof (text : list byte) : core_yyscan :=
  mkScan text [] (text ++ [NUL; NUL]).

(** The scanner has the text [text] in its buffer. *)
Definition scans (text : list byte) (yyscanner : core_yyscan) : Prop :=
  scan_text yyscanner = text.

(** ** Records *)

Definition all_unresolved (locs : list pgnqLocationLen) : Prop :=
  Forall (fun r => length r = -1) locs.

Definition locations_ok (locs : list pgnqLocationLen) : Prop :=
  Forall (fun r => 0 <= location r) locs.

(** ** The text of a constant *)

(** Without its trailing white space. *)
Fixpoint drop_space (rev_text : list byte) : list byte :=
  match rev_text with
  | [] => []
  | b :: rest => if scanner_isspace b then drop_space rest else b :: rest
  end.

Definition trim_trailing (text : list byte) : list byte :=
  rev (drop_space (rev text)).

(** A quoted string with Unicode escapes: more than four bytes, starting
    with u&' or U&'. *)
Definition unicode_quoted (text : list byte) : bool :=
  match text with
  | b0 :: b1 :: b2 :: _ :: _ :: _ =>
      (Byte.eqb b0 "u" || Byte.eqb b0 "U") && Byte.eqb b1 "&"
      && Byte.eqb b2 "'"
  | _ => false
  end.

(** The text of a constant as the resolver counts it. *)
Definition constant_text (text : list byte) : list byte :=
  if unicode_quoted text then trim_trailing text else text.

(** The text that starts at [loc] in the scan buffer: the bytes from [loc]
    up to the NUL the scanner has put after the current token. *)
Definition text_at (scanbuf : list byte) (loc : Z) : list byte :=
  firstn (strlen_from scanbuf loc) (skipn (Z.to_nat loc) scanbuf).

(** ** The search for a constant *)

(** The token after which the length of the constant at [loc] is measured,
    with the tokens that follow it: the first token that starts at or after
    [loc], or the one after it when the byte at [loc] is a minus sign.
    [None] when the input ends first. *)
Definition found (query : list byte) (loc : Z) (toks : list token)
  : option (token * list token) :=
  match skip_before loc toks with
  | [] => None
  | t :: rest =>
      if Byte.eqb (byte_at query loc) "-" then
        match rest with
        | [] => None
        | t2 :: rest2 => Some (t2, rest2)
        end
      else Some (t, rest)
  end.

Definition codes_ok (toks : list token) : Prop :=
  Forall (fun t => tok t <> 0) toks.

(** The length stored for the constant at [loc] when the scanner has
    stopped after a token that ends at [e]. *)
Definition measured (query : list byte) (loc e : Z) : Z :=
  constant_length (put_NUL (query ++ [NUL; NUL]) e) loc.

(** The records the pass of the resolver leaves, as a function of the
    tokens still to come and of [last_loc]. *)
Fixpoint resolve (query : list byte) (locs : list pgnqLocationLen)
  (toks : list token) (last_loc : Z) : list pgnqLocationLen :=
  match locs with
  | [] => []
  | rec :: rest =>
      if location rec <=? last_loc
      then rec :: resolve query rest toks last_loc
      else
        match found query (location rec) toks with
        | None => rec :: rest
        | Some (t, toks) =>
            mkLocationLen (location rec)
              (measured query (location rec) (yyend t))
            :: resolve query rest toks (location rec)
        end
  end.

(** Whether the pass ends because the input ended. *)
Fixpoint exhausted (query : list byte) (locs : list pgnqLocationLen)
  (toks : list token) (last_loc : Z) : bool :=
  match locs with
  | [] => false
  | rec :: rest =>
      if location rec <=? last_loc
      then exhausted query rest toks last_loc
      else
        match found query (location rec) toks with
        | None => true
        | Some (_, toks) => exhausted query rest toks (location rec)
        end
  end.

(** ** The state the resolver is given and the records it leaves *)

(** A state as the locator leaves it: every record has a location that is
    not negative and the length -1. *)
Definition locator_state (jstate : pgnqConstLocations) : Prop :=
  jstate_wf jstate
  /\ all_unresolved (records jstate)
  /\ locations_ok (records jstate).

(** The records after the pass: those of the state, sorted, then resolved
    against the tokens of the query. *)
Definition resolved (jstate : pgnqConstLocations) (query : list byte)
  : list pgnqLocationLen :=
  resolve query (qsort pgnq_comp_location (records jstate))
    (core_scanner query) (-1).

(** A record after the pass: it has kept the length -1, or its length is
    positive and is the number of bytes from its location to the end of a
    token of the query, the trailing white space of a quoted string with
    Unicode escapes not counted. *)
Definition resolved_ok (query : list byte) (toks : list token)
  (r : pgnqLocationLen) : Prop :=
  length r = -1
  \/ exists t,
      In t toks
      /\ location r < yyend t
      /\ length r
         = Z.of_nat (List.length
                       (constant_text (sub query (location r) (yyend t))))
      /\ 0 < length r
      /\ location r + length r <= Z.of_nat (List.length query).

(** ** The normalized text *)

(** The placeholder written for the record of index [i] of the array. *)
Definition placeholder (h i : Z) : list byte :=
  "$"%byte :: format_d (to_int (i + 1 + h)).

(** What the loop of the builder writes for the records [locs], of which
    the first has index [i], when the text has been copied up to [from]:
    for every record with a length that is not negative, the text from
    [from] to its location, then its placeholder. *)
Fixpoint render_body (query : list byte) (h : Z) (locs : list pgnqLocationLen)
  (i from : Z) : list byte :=
  match locs with
  | [] => []
  | r :: rest =>
      if length r <? 0 then render_body query h rest (i + 1) from
      else
        sub query from (location r) ++ placeholder h i
          ++ render_body query h rest (i + 1) (location r + length r)
  end.

(** The offset up to which the loop has consumed the text. *)
Fixpoint final_loc (locs : list pgnqLocationLen) (from : Z) : Z :=
  match locs with
  | [] => from
  | r :: rest =>
      if length r <? 0 then final_loc rest from
      else final_loc rest (location r + length r)
  end.

(** The normalized text: what the loop writes, then the rest of the query. *)
Definition render (query : list byte) (h : Z) (locs : list pgnqLocationLen)
  : list byte :=
  render_body query h locs 0 0
    ++ sub query (final_loc locs 0) (Z.of_nat (List.length query)).

(** The records with a length that is not negative lie one after the other
    in the text, from [from] on, and inside it. *)
Fixpoint spans_ok (locs : list pgnqLocationLen) (from qlen : Z) : bool :=
  match locs with
  | [] => from <=? qlen
  | r :: rest =>
      if length r <? 0 then spans_ok rest from qlen
      else (from <=? location r)
           && spans_ok rest (location r + length r) qlen
  end.

(** No record has length 0. *)
Definition lengths_ok (locs : list pgnqLocationLen) : Prop :=
  Forall (fun r => length r < 0 \/ 0 < length r) locs.

(** ** Constants at the indicated locations

    The resolver relies on its caller for a query with constants at the
    locations recorded (lines 115-119), and on a minus sign at the location
    of a constant to begin a negative numeric constant (lines 125-127).  In
    terms of the tokens of the query: a recorded location is the start of
    a token, unless the scanner yields no token at or after it; and the
    token after a minus sign at a recorded location, which belongs to that
    constant, does not start at a recorded location of its own. *)
Definition starts_token (toks : list token) (loc : Z) : bool :=
  existsb (fun t => yylloc t =? loc) toks.

Definition past_tokens (toks : list token) (loc : Z) : bool :=
  forallb (fun t => yyend t <=? loc) toks.

Definition located (toks : list token) (locs : list pgnqLocationLen) : bool :=
  forallb (fun r => starts_token toks (location r)
                    || past_tokens toks (location r)) locs.

Definition recorded (locs : list pgnqLocationLen) (loc : Z) : bool :=
  existsb (fun r => location r =? loc) locs.

Definition sign_ok (query : list byte) (locs : list pgnqLocationLen)
  (t t2 : token) : bool :=
  negb (Byte.eqb (byte_at query (yylloc t)) "-"
        && recorded locs (yylloc t) && recorded locs (yylloc t2)).

Fixpoint signs_ok (query : list byte) (locs : list pgnqLocationLen)
  (toks : list token) : bool :=
  match toks with
  | [] => true
  | t :: rest =>
      match rest with
      | [] => true
      | t2 :: _ => sign_ok query locs t t2
      end && signs_ok query locs rest
  end.

(** The query and its tokens are as the resolver expects them, for the
    records [locs]. *)
Definition well_located (locs : list pgnqLocationLen) (query : list byte)
  : Prop :=
  tokens_wf 0 (Z.of_nat (List.length query)) (core_scanner query) = true
  /\ located (core_scanner query) locs = true
  /\ signs_ok query locs (core_scanner query) = true.

(** The normalized text of a statement: the records are the locations the
    walk of its tree stores, sorted and resolved, and the numbering starts
    after the highest parameter number of the tree. *)
Definition normalized (sql : list byte) (tree : Node) : list byte :=
  render sql (max_of 0 (param_numbers tree))
    (resolve sql (qsort pgnq_comp_location (stored (const_locations tree)))
       (core_scanner sql) (-1)).


(** ** Duplicates and the end of the input *)

(** The number of records at the location [p] for which the builder writes
    a placeholder: those with a length that is not negative. *)
Definition placeholders_at (p : Z) (locs : list pgnqLocationLen) : nat :=
  List.length
    (filter (fun r => (location r =? p) && negb (length r <? 0)) locs).

Definition stop_cons (rec : pgnqLocationLen)
  (d : list pgnqLocationLen * pgnqLocationLen * list pgnqLocationLen)
  : list pgnqLocationLen * pgnqLocationLen * list pgnqLocationLen :=
  let '(done, r, rest) := d in (rec :: done, r, rest).

(** Where the pass stops because the input has ended: the records that
    were gone through, the record whose constant the scanner did not reach,
    and the records after it.  [None] when the pass goes through all
    records. *)
Fixpoint stop_point (query : list byte) (locs : list pgnqLocationLen)
  (toks : list token) (last_loc : Z)
  : option (list pgnqLocationLen * pgnqLocationLen * list pgnqLocationLen) :=
  match locs with
  | [] => None
  | rec :: rest =>
      if location rec <=? last_loc
      then option_map (stop_cons rec) (stop_point query rest toks last_loc)
      else
        match found query (location rec) toks with
        | None => Some ([], rec, rest)
        | Some (_, toks) =>
            option_map (stop_cons rec)
              (stop_point query rest toks (location rec))
        end
  end.

(** ** The numbering as the specification words it

    "[$] followed by the decimal representation of
    (index_among_emitted_records + 1 + highest_param_id)": the index counts
    the records a placeholder was written for, not the records passed
    over. *)
Fixpoint spec_render_body (query : list byte) (h : Z)
  (locs : list pgnqLocationLen) (emitted from : Z) : list byte :=
  match locs with
  | [] => []
  | r :: rest =>
      if length r <? 0 then spec_render_body query h rest emitted from
      else
        sub query from (location r)
          ++ "$"%byte :: format_d (emitted + 1 + h)
          ++ spec_render_body query h rest (emitted + 1)
               (location r + length r)
  end.

Definition spec_render (query : list byte) (h : Z)
  (locs : list pgnqLocationLen) : list byte :=
  spec_render_body query h locs 0 0
    ++ sub query (final_loc locs 0) (Z.of_nat (List.length query)).

(** ** A minus sign put before a constant *)

(** The pass of the resolver when the search for every constant is made
    among all the tokens of the text, and not among those the searches
    before it have left. *)
Fixpoint resolve_each (query : list byte) (toks : list token)
  (locs : list pgnqLocationLen) (last_loc : Z) : list pgnqLocationLen :=
  match locs with
  | [] => []
  | rec :: rest =>
      if location rec <=? last_loc
      then rec :: resolve_each query toks rest last_loc
      else
        match found query (location rec) toks with
        | None => rec :: rest
        | Some (t, _) =>
            mkLocationLen (location rec)
              (measured query (location rec) (yyend t))
            :: resolve_each query toks rest (location rec)
        end
  end.

(** Where the offset [x] of a text is in the text that has one byte more,
    put in at the offset [p]: the offsets after [p] move by one. *)
Definition shift_loc (p x : Z) : Z := if x <=? p then x else x + 1.

Definition shift_record (p : Z) (r : pgnqLocationLen) : pgnqLocationLen :=
  mkLocationLen (shift_loc p (location r)) (length r).

Definition shift_token (t : token) : token :=
  mkToken (tok t) (yylloc t + 1) (yyend t + 1).

(** A statement [pre ++ lit ++ post] and the statement with a minus sign
    put before [lit], with their tokens: those of the first are [before],
    the token of [lit] and [after]; those of the second are [before], the
    token of the sign, that of [lit] one byte on, and [after] one byte
    on. *)
Definition bare (pre lit post : list byte) : list byte := pre ++ lit ++ post.

Definition negated (pre lit post : list byte) : list byte :=
  pre ++ ("-"%byte :: lit) ++ post.

Definition bare_tokens (pre lit : list byte) (before after : list token)
  (c1 : Z) : list token :=
  let p := Z.of_nat (List.length pre) in
  let n := Z.of_nat (List.length lit) in
  before ++ mkToken c1 p (p + n) :: after.

Definition negated_tokens (pre lit : list byte) (before after : list token)
  (c2 c3 : Z) : list token :=
  let p := Z.of_nat (List.length pre) in
  let n := Z.of_nat (List.length lit) in
  before ++ mkToken c2 p (p + 1) :: mkToken c3 (p + 1) (p + 1 + n)
         :: map shift_token after.

(** The two statements are texts with well-formed tokens, [lit] is the text
    of a constant that is not a quoted string with Unicode escapes and has
    no sign of its own, and [all], the records of the first statement, are
    well-located and hold a record at [lit]. *)
Definition minus_inserted (pre lit post : list byte)
  (before after : list token) (c1 c2 c3 : Z) (all : list pgnqLocationLen)
  : Prop :=
  let sql1 := bare pre lit post in
  let sql2 := negated pre lit post in
  let toks1 := bare_tokens pre lit before after c1 in
  let toks2 := negated_tokens pre lit before after c2 c3 in
  scanner_isspace "u" = false /\ scanner_isspace "U" = false
  /\ no_NUL sql1 /\ no_NUL sql2
  /\ byte_at lit 0 <> "-"%byte /\ unicode_quoted lit = false
  /\ tokens_wf 0 (Z.of_nat (List.length sql1)) toks1 = true
  /\ tokens_wf 0 (Z.of_nat (List.length sql2)) toks2 = true
  /\ Z.of_nat (List.length sql2) + 2 <= INT_MAX
  /\ signs_ok sql1 all toks1 = true
  /\ recorded all (Z.of_nat (List.length pre)) = true.

(** ** The walk as the specification words it

    "For every pass-through wrapper node whose designated inner field is
    null, the constant locator does not skip the node: it falls back to
    generic structural recursion over all of the node's child fields,
    exactly as for non-wrapper node kinds". *)
Definition child_fields (node : Node) : list Node :=
  match node with
  | NULL | A_Const _ | ParamRef _ | UtilityStmt => []
  | DefElem _ w | RawStmt _ w | VariableSetStmt _ w | CopyStmt _ w
  | ExplainStmt _ w | AlterRoleStmt _ w | DeclareCursorStmt _ w
  | OtherNode w => w
  end.

Fixpoint spec_walker (stack : nat) (node : Node)
  (jstate : pgnqConstLocations) : result (bool * pgnqConstLocations) :=
  if is_NULL node then Ok (false, jstate)
  else
    match stack with
    | O => Err StackDepthExceeded
    | S stack =>
        '(nodeReturn, jstate) <- pgnq_walker_switch node jstate ;;
        if negb (is_NULL nodeReturn)
        then spec_walker stack nodeReturn jstate
        else walk_nodes (spec_walker stack) (child_fields node) jstate
    end.

(** The records in the order of their locations. *)
Definition by_location (a b : pgnqLocationLen) : Prop :=
  location a <= location b.

(** ** Decidable forms of the conditions on texts and states *)

Definition no_NUL_b (s : list byte) : bool :=
  forallb (fun b => negb (Byte.eqb b NUL)) s.

Definition locator_state_b (jstate : pgnqConstLocations) : bool :=
  (Z.of_nat (List.length (clocations jstate)) =? clocations_buf_size jstate)
  && (0 <=? clocations_count jstate)
  && (clocations_count jstate <=? clocations_buf_size jstate)
  && (0 <? clocations_buf_size jstate)
  && (clocations_buf_size jstate <=? INT_MAX)
  && forallb (fun r => (length r =? -1) && (0 <=? location r))
       (records jstate).

(** ** Outcomes *)

(** What a call of the walker on a state [jstate] can end with, for the
    nodes [nodes] it is to reach, the depth [depth] their walk needs and
    whether they are walkable ([ok]): it returns false and has done
    [walk_post], the nodes being walkable; or the stack-depth guard raises
    its error, the walk needing more nested calls than the [stack] allowed;
    or the allocator refuses the array of 2^27 records (1073741824 bytes),
    the state having no room for the constants; or
    [raw_expression_tree_walker] raises its error for a node type it does
    not know, the nodes not being walkable. *)
Definition walk_outcome (stack depth : nat) (ok : bool)
  (jstate : pgnqConstLocations) (nodes : list Node)
  (r : result (bool * pgnqConstLocations)) : Prop :=
  match r with
  | Ok (stop, jstate') =>
      stop = false /\ walk_post jstate nodes jstate' /\ ok = true
  | Err e =>
      (e = StackDepthExceeded /\ (stack < depth)%nat)
      \/ (e = InvalidAllocSize 1073741824 /\ ~ walk_room jstate nodes)
      \/ (e = UnrecognizedNodeType /\ ok = false)
  end.

(** A record the builder writes a placeholder for lies inside the text of
    [qlen] bytes and is not empty. *)
Definition inside (qlen : Z) (r : pgnqLocationLen) : Prop :=
  length r < 0
  \/ (0 <= location r /\ 0 < length r /\ location r + length r <= qlen).

(** ** Reading a number back *)

Definition digit_value (b : byte) : Z := Z.of_N (Byte.to_N b) - 48.

Definition is_digit (b : byte) : bool :=
  (0 <=? digit_value b) && (digit_value b <=? 9).

(** The number a sequence of decimal digits stands for. *)
Definition parse_decimal (s : list byte) : Z :=
  fold_left (fun acc b => 10 * acc + digit_value b) s 0.

(** What strtol makes of the text after the [$] of a placeholder. *)
Definition parse_d (s : list byte) : Z :=
  match s with
  | b :: rest => if Byte.eqb b "-" then - parse_decimal rest else parse_decimal s
  | [] => 0
  end.

(** ** What is left of a statement without its constants *)

(** The text of [query] around the resolved records of [locs], from the
    offset [from] on: for every record with a length that is not negative,
    the text between the constant before it and its own; for a record the
    builder passes over, nothing; and at the end the text after the last
    constant. *)
Fixpoint skeleton (query : list byte) (locs : list pgnqLocationLen) (from : Z)
  : list (option (list byte)) :=
  match locs with
  | [] => [Some (sub query from (Z.of_nat (List.length query)))]
  | r :: rest =>
      if length r <? 0 then None :: skeleton query rest from
      else Some (sub query from (location r))
             :: skeleton query rest (location r + length r)
  end.

(** ** One pass of the loop of the builder *)

(** The loop of the builder is at the record [r] of index [i], which has a
    length above 0, with the variables [v]: the buffer has [B] bytes, one
    more than the [qlen] bytes of the text and the [cap] bytes kept for the
    placeholders, of which this pass has ten; the text has been copied up
    to [quer_loc v], where the constant before ended, and [r] lies after
    it and inside the text; the number of the placeholder fits in an
    [int]. *)
Definition pass_ready (query : list byte) (h qlen cap : Z) (B : nat)
  (r : pgnqLocationLen) (i : Z) (v : build_vars) : Prop :=
  0 <= h /\ 0 <= qlen <= Z.of_nat (List.length query) /\ 0 <= cap
  /\ Z.of_nat B = qlen + cap + 1 /\ Z.of_nat B <= INT_MAX
  /\ 0 < length r /\ quer_loc v <= location r
  /\ location r + length r <= qlen
  /\ 0 <= i /\ i + 1 + h <= INT_MAX
  /\ List.length (norm_query v) = B
  /\ quer_loc v = last_off v + last_tok_len v
  /\ 0 <= last_off v /\ 0 <= last_tok_len v
  /\ 0 <= n_quer_loc v
  /\ n_quer_loc v - quer_loc v + 10 <= cap.

(** * Proofs *)

(** ** C integers and results *)

Ltac zlia := Z.div_mod_to_equations; lia.

(** Boolean tests in the hypotheses, as propositions. *)
Ltac bprop :=
  repeat match goal with
    | H : _ && _ = true |- _ => apply andb_true_iff in H; destruct H
    | H : _ && _ = false |- _ => apply andb_false_iff in H; destruct H
    | H : _ || _ = true |- _ => apply orb_true_iff in H; destruct H
    | H : _ || _ = false |- _ => apply orb_false_iff in H; destruct H
    | H : negb _ = true |- _ => apply negb_true_iff in H
    | H : negb _ = false |- _ => apply negb_false_iff in H
    | H : (_ <=? _) = true |- _ => apply Z.leb_le in H
    | H : (_ <=? _) = false |- _ => apply Z.leb_gt in H
    | H : (_ <? _) = true |- _ => apply Z.ltb_lt in H
    | H : (_ <? _) = false |- _ => apply Z.ltb_ge in H
    | H : (_ >=? _) = _ |- _ => rewrite Z.geb_leb in H
    | H : (_ >? _) = _ |- _ => rewrite Z.gtb_ltb in H
    | H : (_ =? _) = true |- _ => apply Z.eqb_eq in H
    | H : (_ =? _) = false |- _ => apply Z.eqb_neq in H
    end.

Ltac blia := bprop; lia.

#[local] Arguments skipn : simpl never.
#[local] Arguments firstn : simpl never.

Lemma to_int_id (z : Z) : INT_MIN <= z <= INT_MAX -> to_int z = z.
Proof. unfold to_int, INT_MIN, INT_MAX. intros. zlia. Qed.

Lemma to_int_range (z : Z) : INT_MIN <= to_int z <= INT_MAX.
Proof. unfold to_int, INT_MIN, INT_MAX. zlia. Qed.

Lemma to_size_t_id (z : Z) : 0 <= z < 18446744073709551616 -> to_size_t z = z.
Proof. unfold to_size_t. intros. zlia. Qed.

Lemma int_add_id (a b : Z) : INT_MIN <= a + b <= INT_MAX -> a +i b = a + b.
Proof. apply to_int_id. Qed.

Lemma int_sub_id (a b : Z) : INT_MIN <= a - b <= INT_MAX -> a -i b = a - b.
Proof. apply to_int_id. Qed.

Lemma int_mul_id (a b : Z) : INT_MIN <= a * b <= INT_MAX -> a *i b = a * b.
Proof. apply to_int_id. Qed.

Lemma bind_Ok {A B : Type} (m : result A) (k : A -> result B) (b : B) :
  bind m k = Ok b -> exists a, m = Ok a /\ k a = Ok b.
Proof. destruct m as [a|e]; simpl; [eauto | discriminate]. Qed.

(** ** The array of records *)

Lemma records_length (jstate : pgnqConstLocations) :
  jstate_wf jstate ->
  List.length (records jstate) = Z.to_nat (clocations_count jstate).
Proof.
  intros (Hlen & Hcount & _). unfold records.
  apply firstn_length_le. lia.
Qed.

Lemma initial_state_eq : pgnq_initial_state = Ok initial_state.
Proof. reflexivity. Qed.

Lemma initial_state_wf : jstate_wf initial_state.
Proof. unfold jstate_wf, INT_MAX; simpl. lia. Qed.

Lemma record_negative (jstate : pgnqConstLocations) (loc : Z) :
  loc < 0 -> pgnq_record_const_location jstate loc = Ok jstate.
Proof.
  intros H. unfold pgnq_record_const_location.
  destruct (loc >=? 0) eqn:E; [lia | reflexivity].
Qed.

Lemma array_set_Ok {A : Type} (a : list A) (i : Z) (x : A) :
  0 <= i < Z.of_nat (List.length a) ->
  array_set a i x
  = Ok (firstn (Z.to_nat i) a ++ x :: skipn (S (Z.to_nat i)) a).
Proof.
  intros H. unfold array_set.
  destruct ((0 <=? i) && (i <? Z.of_nat (List.length a))) eqn:E;
    [reflexivity | apply andb_false_iff in E; lia].
Qed.

Lemma set_cell_length {A : Type} (a : list A) (n : nat) (x : A) :
  (n < List.length a)%nat ->
  List.length (firstn n a ++ x :: skipn (S n) a) = List.length a.
Proof.
  intros H. rewrite length_app, length_firstn. simpl.
  rewrite length_skipn. lia.
Qed.

Lemma set_cell_firstn {A : Type} (a : list A) (n : nat) (x : A) :
  (n < List.length a)%nat ->
  firstn (S n) (firstn n a ++ x :: skipn (S n) a) = firstn n a ++ [x].
Proof.
  intros H.
  assert (Hn : List.length (firstn n a) = n) by (apply firstn_length_le; lia).
  replace (S n) with (List.length (firstn n a) + 1)%nat at 1 by lia.
  rewrite firstn_app_2. reflexivity.
Qed.

Lemma repalloc_grow {A : Type} (filler : A) (old : list A) (n : Z) :
  Z.of_nat (List.length old) <= n -> 8 * n <= MaxAllocSize ->
  repalloc filler 8 old n
  = Ok (old ++ repeat filler (Z.to_nat n - List.length old)).
Proof.
  intros Hn Hfit. unfold repalloc, AllocSizeIsValid, to_size_t.
  unfold MaxAllocSize in *.
  assert (E : (n mod 18446744073709551616 * 8) mod 18446744073709551616
              = 8 * n) by zlia.
  rewrite E.
  destruct (8 * n <=? 1073741823) eqn:E'; [ | lia].
  rewrite firstn_all2 by lia. reflexivity.
Qed.

Lemma repalloc_refused {A : Type} (filler : A) (old : list A) (b : Z) :
  0 < b <= INT_MAX -> MaxAllocSize < 16 * b ->
  exists size, repalloc filler 8 old (b *i 2) = Err (InvalidAllocSize size).
Proof.
  intros Hb Hbig. unfold repalloc, AllocSizeIsValid.
  set (size := to_size_t (to_size_t (b *i 2) * 8)).
  assert (Hs : MaxAllocSize < size).
  { subst size. unfold to_size_t, int_mul, to_int, MaxAllocSize, INT_MAX in *.
    zlia. }
  destruct (size <=? MaxAllocSize) eqn:E; [lia | eauto].
Qed.

(** An insertion with room left writes the cell after the records. *)
Lemma record_room (jstate : pgnqConstLocations) (loc : Z) :
  jstate_wf jstate -> 0 <= loc ->
  clocations_count jstate < clocations_buf_size jstate ->
  exists jstate',
    pgnq_record_const_location jstate loc = Ok jstate'
    /\ records jstate' = records jstate ++ [unresolved loc]
    /\ clocations_count jstate' = clocations_count jstate + 1
    /\ clocations_buf_size jstate' = clocations_buf_size jstate
    /\ highest_extern_param_id jstate' = highest_extern_param_id jstate
    /\ jstate_wf jstate'.
Proof.
  intros (Hlen & Hcount & Hsize) Hloc Hroom.
  unfold pgnq_record_const_location.
  destruct (loc >=? 0) eqn:E; [clear E | lia].
  destruct (clocations_count jstate >=? clocations_buf_size jstate) eqn:E;
    [lia | clear E]. simpl.
  rewrite array_set_Ok by lia. simpl.
  eexists; split; [reflexivity | ].
  assert (Hc1 : clocations_count jstate +i 1 = clocations_count jstate + 1)
    by (apply int_add_id; unfold INT_MIN, INT_MAX in *; lia).
  unfold records, jstate_wf; simpl. rewrite Hc1.
  replace (Z.to_nat (clocations_count jstate + 1))
    with (S (Z.to_nat (clocations_count jstate))) by lia.
  rewrite set_cell_firstn, set_cell_length by lia.
  repeat split; lia.
Qed.

(** An insertion into a full array doubles it, when the allocator grants
    the doubled size, and is refused otherwise. *)
Lemma record_full (jstate : pgnqConstLocations) (loc : Z) :
  jstate_wf jstate -> 0 <= loc ->
  clocations_count jstate = clocations_buf_size jstate ->
  if 16 * clocations_buf_size jstate <=? MaxAllocSize then
    exists jstate',
      pgnq_record_const_location jstate loc = Ok jstate'
      /\ records jstate' = records jstate ++ [unresolved loc]
      /\ clocations_count jstate' = clocations_count jstate + 1
      /\ clocations_buf_size jstate' = 2 * clocations_buf_size jstate
      /\ highest_extern_param_id jstate' = highest_extern_param_id jstate
      /\ jstate_wf jstate'
  else
    exists size,
      pgnq_record_const_location jstate loc = Err (InvalidAllocSize size).
Proof.
  intros (Hlen & Hcount & Hsize) Hloc Hfull.
  unfold pgnq_record_const_location.
  destruct (loc >=? 0) eqn:E; [clear E | lia].
  destruct (clocations_count jstate >=? clocations_buf_size jstate) eqn:E;
    [clear E | lia].
  unfold sizeof_pgnqLocationLen. cbv zeta.
  destruct (16 * clocations_buf_size jstate <=? MaxAllocSize) eqn:Efit.
  - apply Z.leb_le in Efit.
    assert (Hb2 : clocations_buf_size jstate *i 2
                  = 2 * clocations_buf_size jstate).
    { unfold int_mul. rewrite to_int_id; unfold INT_MIN, INT_MAX, MaxAllocSize in *;
        lia. }
    rewrite Hb2, repalloc_grow by lia. cbn [bind].
    rewrite array_set_Ok by (rewrite length_app, repeat_length; lia).
    cbn [bind].
    eexists; split; [reflexivity | ].
    assert (Hc1 : clocations_count jstate +i 1 = clocations_count jstate + 1)
      by (apply int_add_id; unfold INT_MIN, INT_MAX, MaxAllocSize in *; lia).
    unfold records, jstate_wf.
    cbn [clocations clocations_count clocations_buf_size
         highest_extern_param_id].
    rewrite Hc1.
    replace (Z.to_nat (clocations_count jstate + 1))
      with (S (Z.to_nat (clocations_count jstate))) by lia.
    rewrite set_cell_firstn, set_cell_length
      by (rewrite length_app, repeat_length; lia).
    rewrite firstn_app, length_app, repeat_length.
    replace (Z.to_nat (clocations_count jstate) - List.length (clocations jstate))%nat
      with O by lia.
    rewrite firstn_O, app_nil_r.
    unfold INT_MAX, MaxAllocSize in *. repeat split; lia.
  - apply Z.leb_gt in Efit.
    destruct (repalloc_refused uninitialised (clocations jstate)
                (clocations_buf_size jstate)) as (size & ->); [lia | lia | ].
    simpl. eauto.
Qed.

(** What an insertion that returns has done. *)
Lemma record_step (jstate jstate' : pgnqConstLocations) (loc : Z) :
  jstate_wf jstate -> 0 <= loc ->
  pgnq_record_const_location jstate loc = Ok jstate' ->
  records jstate' = records jstate ++ [unresolved loc]
  /\ clocations_count jstate' = clocations_count jstate + 1
  /\ clocations_buf_size jstate'
     = (if clocations_count jstate <? clocations_buf_size jstate
        then clocations_buf_size jstate
        else 2 * clocations_buf_size jstate)
  /\ highest_extern_param_id jstate' = highest_extern_param_id jstate
  /\ jstate_wf jstate'.
Proof.
  intros Hwf Hloc Hrec.
  destruct (clocations_count jstate <? clocations_buf_size jstate) eqn:E.
  - apply Z.ltb_lt in E.
    destruct (record_room jstate loc Hwf Hloc E) as (st & Hst & H).
    rewrite Hst in Hrec. injection Hrec as <-. tauto.
  - apply Z.ltb_ge in E.
    assert (Hfull : clocations_count jstate = clocations_buf_size jstate)
      by (destruct Hwf as (_ & ? & _); lia).
    pose proof (record_full jstate loc Hwf Hloc Hfull) as H.
    destruct (16 * clocations_buf_size jstate <=? MaxAllocSize).
    + destruct H as (st & Hst & H).
      rewrite Hst in Hrec. injection Hrec as <-. tauto.
    + destruct H as (size & Hst). congruence.
Qed.

Lemma stored_cons (loc : Z) (locs : list Z) :
  stored (loc :: locs)
  = if 0 <=? loc then unresolved loc :: stored locs else stored locs.
Proof. unfold stored. simpl. destruct (0 <=? loc); reflexivity. Qed.

Lemma stored_app (l1 l2 : list Z) : stored (l1 ++ l2) = stored l1 ++ stored l2.
Proof. unfold stored. rewrite filter_app, map_app. reflexivity. Qed.

(** A sequence of insertions that returns has stored the non-negative
    locations, in order. *)
Lemma record_all_step (locs : list Z) (jstate jstate' : pgnqConstLocations) :
  jstate_wf jstate ->
  record_all jstate locs = Ok jstate' ->
  records jstate' = records jstate ++ stored locs
  /\ clocations_count jstate'
     = clocations_count jstate + Z.of_nat (List.length (stored locs))
  /\ highest_extern_param_id jstate' = highest_extern_param_id jstate
  /\ jstate_wf jstate'.
Proof.
  revert jstate. induction locs as [ | loc locs IH]; intros jstate Hwf Hall.
  - simpl in Hall. injection Hall as <-. simpl.
    rewrite app_nil_r. repeat split; try lia; apply Hwf.
  - simpl in Hall. apply bind_Ok in Hall. destruct Hall as (st1 & H1 & Hall).
    rewrite stored_cons. destruct (0 <=? loc) eqn:E.
    + apply Z.leb_le in E.
      destruct (record_step _ _ _ Hwf E H1) as (Hr & Hc & _ & Hh & Hwf1).
      destruct (IH st1 Hwf1 Hall) as (Hr' & Hc' & Hh' & Hwf').
      rewrite Hr', Hr, Hc', Hc, Hh', Hh, <- app_assoc. simpl.
      repeat split; try lia; apply Hwf'.
    + apply Z.leb_gt in E. rewrite record_negative in H1 by lia.
      injection H1 as <-. apply (IH jstate Hwf Hall).
Qed.

Lemma buf_size_ok_double (b : Z) (k : nat) :
  (k <= 21)%nat -> b = 32 * 2 ^ Z.of_nat k -> b < max_records ->
  (S k <= 21)%nat /\ 2 * b = 32 * 2 ^ Z.of_nat (S k).
Proof.
  intros Hk Hb Hlt. split.
  - destruct (Nat.eq_dec k 21) as [-> | ]; [ | lia].
    exfalso. subst b. unfold max_records in Hlt.
    change (2 ^ Z.of_nat 21) with 2097152 in Hlt. lia.
  - rewrite Nat2Z.inj_succ, Z.pow_succ_r by lia. lia.
Qed.

Lemma buf_size_ok_bound (b : Z) (k : nat) :
  (k <= 21)%nat -> b = 32 * 2 ^ Z.of_nat k -> 32 <= b <= max_records.
Proof.
  intros Hk ->. unfold max_records.
  assert (1 <= 2 ^ Z.of_nat k <= 2 ^ 21).
  { split.
    - change 1 with (2 ^ 0). apply Z.pow_le_mono_r; lia.
    - apply Z.pow_le_mono_r; lia. }
  change (2 ^ 21) with 2097152 in *. lia.
Qed.

(** An insertion returns as long as no more than [max_records] records are
    stored. *)
Lemma record_Ok (jstate : pgnqConstLocations) (loc : Z) :
  jstate_wf jstate -> buf_size_ok jstate ->
  clocations_count jstate < max_records ->
  exists jstate',
    pgnq_record_const_location jstate loc = Ok jstate'
    /\ buf_size_ok jstate'.
Proof.
  intros Hwf (k & Hk & Hb) Hcount.
  destruct (Z.lt_ge_cases loc 0) as [Hneg | Hloc].
  { exists jstate. split; [apply record_negative; lia | exists k; auto]. }
  destruct (clocations_count jstate <? clocations_buf_size jstate) eqn:E.
  - apply Z.ltb_lt in E.
    destruct (record_room jstate loc Hwf Hloc E)
      as (st & Hst & _ & _ & Hsize & _).
    exists st. split; [assumption | ]. exists k. split; congruence.
  - apply Z.ltb_ge in E.
    assert (Hfull : clocations_count jstate = clocations_buf_size jstate)
      by (destruct Hwf as (_ & ? & _); lia).
    pose proof (record_full jstate loc Hwf Hloc Hfull) as H.
    destruct (buf_size_ok_double _ k Hk Hb) as (Hk' & Hb'); [lia | ].
    pose proof (buf_size_ok_bound _ _ Hk' Hb') as Hbound.
    destruct (16 * clocations_buf_size jstate <=? MaxAllocSize) eqn:Efit.
    + destruct H as (st & Hst & _ & _ & Hsize & _).
      exists st. split; [assumption | ]. exists (S k). split; congruence.
    + apply Z.leb_gt in Efit. unfold MaxAllocSize, max_records in *. lia.
Qed.

Lemma record_all_Ok (locs : list Z) (jstate : pgnqConstLocations) :
  jstate_wf jstate -> buf_size_ok jstate ->
  clocations_count jstate + Z.of_nat (List.length (stored locs)) <= max_records ->
  exists jstate',
    record_all jstate locs = Ok jstate' /\ buf_size_ok jstate'.
Proof.
  revert jstate. induction locs as [ | loc locs IH]; intros jstate Hwf Hb Hn.
  - exists jstate. split; [reflexivity | assumption].
  - rewrite stored_cons in Hn. simpl.
    destruct (0 <=? loc) eqn:E.
    + apply Z.leb_le in E. simpl in Hn.
      destruct (record_Ok jstate loc Hwf Hb) as (st1 & H1 & Hb1); [lia | ].
      rewrite H1. cbn [bind].
      destruct (record_step _ _ _ Hwf E H1) as (_ & Hc & _ & _ & Hwf1).
      apply IH; [assumption | assumption | lia].
    + apply Z.leb_gt in E. rewrite record_negative by lia. cbn [bind].
      apply IH; assumption.
Qed.

Lemma initial_state_buf_size_ok : buf_size_ok initial_state.
Proof. exists 0%nat. split; [lia | reflexivity]. Qed.

(** C7. After any sequence of insertions into the initial state, the records
    are the non-negative locations of the sequence, in order, each with
    length -1, and the count is their number; inserting a negative location
    changes nothing; inserting a non-negative one appends its record with
    length -1 after the records present, which it keeps, adds one to the
    count, and doubles the capacity exactly when the count had reached it;
    such an insertion returns whenever there is room or the allocator grants
    the doubled array. *)
Theorem record_const_location_spec (locs : list Z) (jstate : pgnqConstLocations) :
  record_all initial_state locs = Ok jstate ->
  records jstate = stored locs
  /\ clocations_count jstate = Z.of_nat (List.length (stored locs))
  /\ (forall loc, loc < 0 -> pgnq_record_const_location jstate loc = Ok jstate)
  /\ (forall loc jstate',
        0 <= loc -> pgnq_record_const_location jstate loc = Ok jstate' ->
        records jstate' = records jstate ++ [mkLocationLen loc (-1)]
        /\ clocations_count jstate' = clocations_count jstate + 1
        /\ clocations_buf_size jstate'
           = (if clocations_count jstate <? clocations_buf_size jstate
              then clocations_buf_size jstate
              else 2 * clocations_buf_size jstate))
  /\ (forall loc,
        0 <= loc ->
        clocations_count jstate < clocations_buf_size jstate
        \/ 16 * clocations_buf_size jstate <= MaxAllocSize ->
        exists jstate', pgnq_record_const_location jstate loc = Ok jstate').
Proof.
  intros Hall.
  destruct (record_all_step locs _ _ initial_state_wf Hall)
    as (Hr & Hc & _ & Hwf).
  split; [exact Hr | ]. split; [exact Hc | ].
  split; [intros; apply record_negative; assumption | ].
  split.
  - intros loc st' Hloc Hst'.
    destruct (record_step _ _ _ Hwf Hloc Hst') as (? & ? & ? & _). auto.
  - intros loc Hloc Hroom.
    destruct (clocations_count jstate <? clocations_buf_size jstate) eqn:E.
    + apply Z.ltb_lt in E.
      destruct (record_room jstate loc Hwf Hloc E) as (st & Hst & _). eauto.
    + apply Z.ltb_ge in E. destruct Hroom as [Hroom | Hfit]; [lia | ].
      assert (Hfull : clocations_count jstate = clocations_buf_size jstate)
        by (destruct Hwf as (_ & ? & _); lia).
      pose proof (record_full jstate loc Hwf Hloc Hfull) as H.
      apply Z.leb_le in Hfit. rewrite Hfit in H.
      destruct H as (st & Hst & _). eauto.
Qed.

(** ** The walk *)

Lemma max_of_max (a b : Z) (l : list Z) :
  max_of (Z.max a b) l = Z.max a (max_of b l).
Proof.
  induction l as [ | n l IH]; simpl; [reflexivity | ].
  unfold max_of in *. rewrite IH. lia.
Qed.

Lemma max_of_app (h : Z) (l1 l2 : list Z) :
  max_of (max_of h l1) l2 = max_of h (l1 ++ l2).
Proof.
  induction l1 as [ | n l1 IH]; simpl; [reflexivity | ].
  rewrite max_of_max. unfold max_of in *. rewrite IH. reflexivity.
Qed.

Lemma walk_post_nil (jstate : pgnqConstLocations) :
  jstate_wf jstate -> buf_size_ok jstate -> walk_post jstate [] jstate.
Proof.
  intros Hwf Hb. unfold walk_post. simpl. rewrite app_nil_r.
  repeat split; try lia; try apply Hwf; assumption.
Qed.

Lemma walk_post_app (st st1 st2 : pgnqConstLocations) (l1 l2 : list Node) :
  walk_post st l1 st1 -> walk_post st1 l2 st2 -> walk_post st (l1 ++ l2) st2.
Proof.
  intros (Hr1 & Hc1 & Hh1 & _) (Hr2 & Hc2 & Hh2 & Hwf & Hb).
  unfold walk_post.
  rewrite !flat_map_app, stored_app, length_app, <- max_of_app.
  rewrite Hr2, Hr1, Hc2, Hc1, Hh2, Hh1, <- app_assoc.
  repeat split; try lia; try apply Hwf; assumption.
Qed.

Lemma walk_room_app (st st1 : pgnqConstLocations) (l1 l2 : list Node) :
  walk_room st (l1 ++ l2) -> walk_post st l1 st1 ->
  walk_room st l1 /\ walk_room st1 l2.
Proof.
  unfold walk_room. intros Hroom (_ & Hc & _).
  rewrite flat_map_app, stored_app, length_app in Hroom. lia.
Qed.

(** The walker at a node that is not NULL, with calls left. *)
Lemma walker_step (stack : nat) (node : Node) (jstate : pgnqConstLocations) :
  node <> NULL ->
  pgnq_const_record_walker (S stack) node jstate
  = ('(nodeReturn, jstate) <- pgnq_walker_switch node jstate ;;
     if negb (is_NULL nodeReturn)
     then pgnq_const_record_walker stack nodeReturn jstate
     else raw_expression_tree_walker node
            (pgnq_const_record_walker stack) jstate).
Proof. destruct node; [congruence | reflexivity ..]. Qed.

Lemma walker_wrapper (stack : nat) (node inner : Node) (w : list Node)
  (jstate : pgnqConstLocations) :
  wrapper_fields node = Some (inner, w) ->
  pgnq_const_record_walker (S stack) node jstate
  = if is_NULL inner
    then Err UnrecognizedNodeType
    else pgnq_const_record_walker stack inner jstate.
Proof.
  intros H. destruct node; try discriminate; injection H as -> ->;
    simpl; destruct inner; reflexivity.
Qed.

Lemma reached_wrapper (node inner : Node) (w : list Node) :
  wrapper_fields node = Some (inner, w) ->
  reached node = node :: reached inner
  /\ walk_depth node = S (walk_depth inner)
  /\ const_location node = [] /\ param_number node = []
  /\ walkable node = negb (is_NULL inner) && walkable inner.
Proof.
  intros H. destruct node; try discriminate; injection H as -> ->;
    repeat split; reflexivity.
Qed.

(** The walk of a list of nodes, given the walk of each of them. *)
Lemma walk_nodes_spec (stack : nat) :
  (forall node jstate,
      walkable node = true ->
      (walk_depth node <= stack)%nat ->
      jstate_wf jstate -> buf_size_ok jstate ->
      walk_room jstate (reached node) ->
      exists jstate',
        pgnq_const_record_walker stack node jstate = Ok (false, jstate')
        /\ walk_post jstate (reached node) jstate') ->
  forall w jstate,
    forallb walkable w = true ->
    (list_max (map walk_depth w) <= stack)%nat ->
    jstate_wf jstate -> buf_size_ok jstate ->
    walk_room jstate (flat_map reached w) ->
    exists jstate',
      walk_nodes (pgnq_const_record_walker stack) w jstate = Ok (false, jstate')
      /\ walk_post jstate (flat_map reached w) jstate'.
Proof.
  intros IH w. induction w as [ | n w IHw]; intros st Hok Hd Hwf Hb Hroom.
  - exists st. split; [reflexivity | apply walk_post_nil; assumption].
  - cbn [forallb] in Hok. apply andb_true_iff in Hok.
    destruct Hok as (Hok1 & Hok).
    simpl in Hd, Hroom |- *.
    destruct (IH n st) as (st1 & H1 & Hp1);
      [assumption | lia | assumption | assumption | | ].
    { unfold walk_room in *.
      rewrite flat_map_app, stored_app, length_app in Hroom. lia. }
    rewrite H1. cbn [bind].
    destruct (walk_room_app _ _ _ _ Hroom Hp1) as (_ & Hroom1).
    destruct (IHw st1) as (st2 & H2 & Hp2);
      [assumption | lia | apply Hp1 | apply Hp1 | assumption | ].
    exists st2. split; [assumption | ].
    apply (walk_post_app _ _ _ _ _ Hp1 Hp2).
Qed.

Lemma walker_spec (stack : nat) (node : Node) (jstate : pgnqConstLocations) :
  walkable node = true ->
  (walk_depth node <= stack)%nat ->
  jstate_wf jstate -> buf_size_ok jstate ->
  walk_room jstate (reached node) ->
  exists jstate',
    pgnq_const_record_walker stack node jstate = Ok (false, jstate')
    /\ walk_post jstate (reached node) jstate'.
Proof.
  revert node jstate.
  induction stack as [ | stack IH]; intros node st Hok Hd Hwf Hb Hroom.
  { destruct node; simpl in Hd; try lia.
    exists st. split; [reflexivity | apply walk_post_nil; assumption]. }
  destruct (wrapper_fields node) as [[inner w] | ] eqn:Ew.
  { destruct (reached_wrapper _ _ _ Ew) as (Er & Edp & Ec & Ep & Ek).
    rewrite (walker_wrapper _ _ _ _ _ Ew), Er.
    rewrite Edp in Hd. rewrite Er in Hroom. rewrite Ek in Hok.
    apply andb_true_iff in Hok. destruct Hok as (Hinner & Hok).
    assert (Hnode : forall l st', walk_post st l st' -> walk_post st (node :: l) st').
    { intros l st' H. unfold walk_post in *. simpl. rewrite Ec, Ep. exact H. }
    assert (Hroom' : forall l, walk_room st (node :: l) -> walk_room st l).
    { intros l H. unfold walk_room in *. simpl in H. rewrite Ec in H. exact H. }
    apply Hroom' in Hroom.
    destruct (is_NULL inner); [discriminate | ].
    destruct (IH inner st) as (st' & H & Hp); [assumption | lia | assumption .. | ].
    exists st'. split; [assumption | apply Hnode, Hp]. }
  destruct node; try discriminate.
  - exists st. split; [reflexivity | apply walk_post_nil; assumption].
  - (* A_Const *)
    rewrite walker_step by discriminate. cbn [pgnq_walker_switch].
    unfold walk_room in Hroom.
    change (flat_map const_location (reached (A_Const loc))) with [loc] in Hroom.
    destruct (record_all_Ok [loc] st Hwf Hb Hroom) as (st' & H & Hb').
    simpl in H. apply bind_Ok in H. destruct H as (st1 & H1 & H).
    injection H as ->. rewrite H1. cbn.
    exists st'. split; [reflexivity | ].
    assert (Hall : record_all st [loc] = Ok st') by (simpl; rewrite H1; reflexivity).
    destruct (record_all_step _ _ _ Hwf Hall) as (Hr & Hc & Hh & Hwf').
    unfold walk_post.
    change (flat_map const_location (reached (A_Const loc))) with [loc].
    change (flat_map param_number (reached (A_Const loc))) with (@nil Z).
    repeat split; try apply Hwf'; assumption.
  - (* ParamRef *)
    rewrite walker_step by discriminate. cbn [pgnq_walker_switch].
    destruct (number >? highest_extern_param_id st) eqn:E; cbn.
    + eexists. split; [reflexivity | ].
      unfold walk_post, records, jstate_wf, buf_size_ok. simpl.
      rewrite app_nil_r.
      repeat split; try lia; try apply Hwf; assumption.
    + eexists. split; [reflexivity | ].
      unfold walk_post. simpl. rewrite app_nil_r.
      repeat split; try lia; try apply Hwf; assumption.
  - (* OtherNode *)
    rewrite walker_step by discriminate. cbn.
    simpl in Hd, Hok.
    assert (Hroom' : walk_room st (flat_map reached walked)) by exact Hroom.
    destruct (walk_nodes_spec stack IH walked st) as (st' & H & Hp);
      [assumption | lia | assumption .. | ].
    exists st'. split; [assumption | exact Hp].
Qed.

Lemma max_of_upper (h : Z) (l : list Z) :
  h <= max_of h l /\ (forall n, In n l -> n <= max_of h l).
Proof.
  induction l as [ | m l (IH1 & IH2)]; simpl.
  - split; [lia | tauto].
  - split; [lia | ]. intros n [<- | Hn]; [lia | ]. specialize (IH2 n Hn). lia.
Qed.

Lemma max_of_attained (h : Z) (l : list Z) :
  max_of h l = h \/ In (max_of h l) l.
Proof.
  induction l as [ | m l IH]; simpl; [tauto | ].
  destruct (Z.max_spec m (fold_right Z.max h l)) as [(_ & E) | (_ & E)];
    unfold max_of in *; rewrite E; tauto.
Qed.

(** C8. The state the walk starts from has highest_extern_param_id 0.  For
    every tree the walk gets through (a tree of nodes
    raw_expression_tree_walker knows, whose walk fits the stack-depth guard
    and the allocator), the walker returns false with a state whose
    highest_extern_param_id is the largest number of the parameter nodes the
    walk reached, or 0 when it reached none: it is 0 or one of these
    numbers, and none of them exceeds it.  The records of that state are the
    non-negative locations of the constant nodes reached, so that no
    parameter node is recorded. *)
Theorem walker_highest_param (tree : Node) (stack : nat) :
  walkable tree = true ->
  (walk_depth tree <= stack)%nat ->
  Z.of_nat (List.length (stored (const_locations tree))) <= max_records ->
  highest_extern_param_id initial_state = 0
  /\ exists jstate,
      pgnq_const_record_walker stack tree initial_state = Ok (false, jstate)
      /\ highest_extern_param_id jstate = fold_right Z.max 0 (param_numbers tree)
      /\ (forall number,
            In number (param_numbers tree) ->
            number <= highest_extern_param_id jstate)
      /\ (highest_extern_param_id jstate = 0
          \/ In (highest_extern_param_id jstate) (param_numbers tree))
      /\ records jstate = stored (const_locations tree).
Proof.
  intros Hok Hd Hn. split; [reflexivity | ].
  destruct (walker_spec stack tree initial_state Hok Hd initial_state_wf
              initial_state_buf_size_ok) as (st & H & Hr & _ & Hh & _).
  { unfold walk_room. simpl. exact Hn. }
  exists st. split; [exact H | ].
  change (highest_extern_param_id initial_state) with 0 in Hh.
  fold (param_numbers tree) in Hh. fold (const_locations tree) in Hr.
  split; [exact Hh | ]. rewrite Hh.
  split; [apply max_of_upper | ].
  split; [apply max_of_attained | exact Hr].
Qed.

(** C10, as the code has it.  A pass-through wrapper (DefElem, RawStmt,
    VariableSetStmt, CopyStmt, ExplainStmt, AlterRoleStmt,
    DeclareCursorStmt) whose designated field is NULL is not passed over in
    silence: the walker hands the node itself to raw_expression_tree_walker,
    the call it makes for a node of any other kind.  That function knows
    none of the seven wrapper tags: it visits no child field, whatever the
    child fields are, and raises the error "unrecognized node type", with
    which the walk ends.  When the designated field is not NULL the walker
    goes into that field alone: what it does to the state is what the walk
    of that field does, and the constants and parameters reached under the
    field are recorded. *)
Theorem wrapper_null_falls_back (node inner : Node) (w : list Node)
  (stack : nat) (jstate : pgnqConstLocations) :
  wrapper_fields node = Some (inner, w) ->
  (inner = NULL ->
   pgnq_const_record_walker (S stack) node jstate
   = raw_expression_tree_walker node (pgnq_const_record_walker stack) jstate
   /\ (forall walked,
         pgnq_const_record_walker (S stack) (OtherNode walked) jstate
         = raw_expression_tree_walker (OtherNode walked)
             (pgnq_const_record_walker stack) jstate)
   /\ pgnq_const_record_walker (S stack) node jstate
      = Err UnrecognizedNodeType)
  /\ (inner <> NULL ->
      pgnq_const_record_walker (S stack) node jstate
      = pgnq_const_record_walker stack inner jstate
      /\ reached node = node :: reached inner
      /\ (walkable inner = true -> (walk_depth inner <= stack)%nat ->
          jstate_wf jstate -> buf_size_ok jstate ->
          walk_room jstate (reached inner) ->
          exists jstate',
            pgnq_const_record_walker (S stack) node jstate
            = Ok (false, jstate')
            /\ records jstate'
               = records jstate ++ stored (const_locations inner)
            /\ highest_extern_param_id jstate'
               = max_of (highest_extern_param_id jstate)
                   (param_numbers inner))).
Proof.
  intros Ew.
  destruct (reached_wrapper _ _ _ Ew) as (Er & _).
  pose proof (walker_wrapper stack _ _ _ jstate Ew) as Hw.
  split.
  - intros ->. cbn [is_NULL] in Hw.
    split; [ | split; [reflexivity | exact Hw]].
    rewrite Hw. destruct node; try discriminate; reflexivity.
  - intros Hinner.
    assert (Hgo : pgnq_const_record_walker (S stack) node jstate
                  = pgnq_const_record_walker stack inner jstate)
      by (destruct inner; [congruence | ..]; exact Hw).
    split; [exact Hgo | ]. split; [exact Er | ].
    intros Hok Hd Hwf Hb Hroom.
    destruct (walker_spec stack inner jstate Hok Hd Hwf Hb Hroom)
      as (st & H & Hr & _ & Hh & _).
    exists st. rewrite Hgo. split; [exact H | ]. split; assumption.
Qed.

(** ** The length of a constant *)

Lemma firstn_S_nth {A : Type} (d : A) (l : list A) (n : nat) :
  (n < List.length l)%nat -> firstn (S n) l = firstn n l ++ [nth n l d].
Proof.
  revert n. induction l as [ | a l IH]; intros n H; simpl in H; [lia | ].
  destruct n as [ | n].
  - rewrite firstn_O. reflexivity.
  - rewrite !firstn_cons, IH by lia. reflexivity.
Qed.

Lemma nth_skipn {A : Type} (d : A) (l : list A) (k n : nat) :
  nth n (skipn k l) d = nth (k + n) l d.
Proof.
  revert l. induction k as [ | k IH]; intros l; [reflexivity | ].
  destruct l as [ | a l]; [destruct n; reflexivity | ].
  rewrite skipn_cons. apply IH.
Qed.

Lemma nth_firstn_lt {A : Type} (d : A) (l : list A) (k n : nat) :
  (n < k)%nat -> nth n (firstn k l) d = nth n l d.
Proof.
  revert l n. induction k as [ | k IH]; intros l n H; [lia | ].
  destruct l as [ | a l]; [rewrite firstn_nil; reflexivity | ].
  rewrite firstn_cons. destruct n as [ | n]; [reflexivity | ].
  simpl. apply IH. lia.
Qed.

Lemma strlen_le (s : list byte) : (strlen s <= List.length s)%nat.
Proof.
  induction s as [ | b s IH]; simpl; [lia | ].
  destruct (Byte.eqb b NUL); lia.
Qed.

Lemma strlen_from_le (buf : list byte) (loc : Z) :
  (Z.to_nat loc + strlen_from buf loc <= List.length buf)%nat
  \/ strlen_from buf loc = O.
Proof.
  unfold strlen_from.
  pose proof (strlen_le (skipn (Z.to_nat loc) buf)) as H.
  rewrite length_skipn in H. lia.
Qed.

Lemma text_at_length (buf : list byte) (loc : Z) :
  List.length (text_at buf loc) = strlen_from buf loc.
Proof.
  unfold text_at. apply firstn_length_le. apply strlen_le.
Qed.

Lemma byte_at_nth (buf : list byte) (i : Z) :
  0 <= i -> byte_at buf i = nth (Z.to_nat i) buf NUL.
Proof.
  intros H. unfold byte_at. destruct (i <? 0) eqn:E; [lia | reflexivity].
Qed.

(** The bytes of the text at [loc] are those of the buffer. *)
Lemma text_at_nth (buf : list byte) (loc : Z) (i : nat) :
  0 <= loc -> (i < strlen_from buf loc)%nat ->
  nth i (text_at buf loc) NUL = byte_at buf (loc + Z.of_nat i).
Proof.
  intros Hloc Hi. unfold text_at.
  rewrite nth_firstn_lt, nth_skipn, byte_at_nth by lia.
  f_equal. lia.
Qed.

Lemma trim_trailing_snoc (text : list byte) (b : byte) :
  trim_trailing (text ++ [b])
  = if scanner_isspace b then trim_trailing text else text ++ [b].
Proof.
  unfold trim_trailing. rewrite rev_app_distr. simpl.
  destruct (scanner_isspace b); [reflexivity | ].
  simpl. rewrite rev_involutive. reflexivity.
Qed.

Lemma trim_trailing_length (text : list byte) :
  (List.length (trim_trailing text) <= List.length text)%nat.
Proof.
  unfold trim_trailing. rewrite length_rev, <- (length_rev text).
  induction (rev text) as [ | b l IH]; simpl; [lia | ].
  destruct (scanner_isspace b); simpl; lia.
Qed.

(** The loop of lines 212-214 finds the length of the text without its
    trailing white space. *)
Lemma trim_loop_spec (buf : list byte) (loc : Z) (n : nat) :
  0 <= loc -> Z.of_nat (List.length buf) <= INT_MAX ->
  (Z.to_nat loc + n <= List.length buf)%nat ->
  trim_loop buf loc n + 1
  = Z.of_nat (List.length
                (trim_trailing (firstn n (skipn (Z.to_nat loc) buf)))).
Proof.
  intros Hloc Hmax. induction n as [ | n IH]; intros Hn.
  - rewrite firstn_O. reflexivity.
  - rewrite (firstn_S_nth NUL) by (rewrite length_skipn; lia).
    rewrite trim_trailing_snoc, nth_skipn. cbn [trim_loop].
    rewrite int_add_id by (unfold INT_MIN, INT_MAX in *; lia).
    rewrite byte_at_nth by lia.
    replace (Z.to_nat (loc + Z.of_nat n)) with (Z.to_nat loc + n)%nat by lia.
    destruct (scanner_isspace (nth (Z.to_nat loc + n) buf NUL)).
    + apply IH. lia.
    + rewrite length_app, length_firstn, length_skipn. simpl. lia.
Qed.

(** Lines 201-215: the stored length is the length of the text at [loc],
    without its trailing white space when the text is a quoted string with
    Unicode escapes. *)
Lemma constant_length_spec (buf : list byte) (loc : Z) :
  0 <= loc -> Z.of_nat (List.length buf) <= INT_MAX ->
  constant_length buf loc
  = Z.of_nat (List.length
                (if unicode_quoted (text_at buf loc)
                 then trim_trailing (text_at buf loc)
                 else text_at buf loc)).
Proof.
  intros Hloc Hmax. unfold constant_length.
  pose proof (strlen_from_le buf loc) as Hle.
  pose proof (text_at_length buf loc) as Hlen.
  set (n := strlen_from buf loc) in *.
  rewrite to_int_id by (unfold INT_MIN, INT_MAX in *; lia).
  assert (Hcond : (Z.of_nat n >? 4)
                  && (Byte.eqb (byte_at buf loc) "u"
                      || Byte.eqb (byte_at buf loc) "U")
                  && Byte.eqb (byte_at buf (loc +i 1)) "&"
                  && Byte.eqb (byte_at buf (loc +i 2)) "'"
                  = unicode_quoted (text_at buf loc)).
  { destruct (Z.of_nat n >? 4) eqn:E4.
    - assert (H4 : (4 < n)%nat) by lia.
      pose proof (text_at_nth buf loc 0 Hloc) as H0.
      pose proof (text_at_nth buf loc 1 Hloc) as H1.
      pose proof (text_at_nth buf loc 2 Hloc) as H2.
      fold n in H0, H1, H2.
      change (Z.of_nat 0) with 0 in H0. rewrite Z.add_0_r in H0.
      change (Z.of_nat 1) with 1 in H1. change (Z.of_nat 2) with 2 in H2.
      rewrite !int_add_id by (unfold INT_MIN, INT_MAX in *; lia).
      rewrite <- H0, <- H1, <- H2 by lia.
      destruct (text_at buf loc) as [ | b0 [ | b1 [ | b2 [ | b3 [ | b4 l]]]]];
        simpl in Hlen; try lia. reflexivity.
    - destruct (text_at buf loc) as [ | b0 [ | b1 [ | b2 [ | b3 [ | b4 l]]]]];
        simpl in Hlen; try reflexivity. lia. }
  rewrite Hcond.
  destruct (unicode_quoted (text_at buf loc)) eqn:Eu.
  - assert (H4 : (4 < n)%nat).
    { destruct (text_at buf loc) as [ | b0 [ | b1 [ | b2 [ | b3 [ | b4 l]]]]];
        simpl in Hlen, Eu; try discriminate. lia. }
    rewrite int_sub_id by (unfold INT_MIN, INT_MAX in *; lia).
    replace (Z.to_nat (Z.of_nat n - 1 + 1)) with n by lia.
    pose proof (trim_loop_spec buf loc n Hloc Hmax) as Ht.
    assert (Hj : -1 <= trim_loop buf loc n < Z.of_nat n).
    { pose proof (trim_trailing_length (firstn n (skipn (Z.to_nat loc) buf))).
      rewrite length_firstn in H. lia. }
    rewrite int_add_id by (unfold INT_MIN, INT_MAX in *; lia).
    rewrite Ht by lia. reflexivity.
  - rewrite Hlen. reflexivity.
Qed.

(** ** The search for a constant *)

Lemma core_yylex_cons (text : list byte) (yyscanner : core_yyscan)
  (t : token) (rest : list token) :
  scans text yyscanner -> pending yyscanner = t :: rest ->
  core_yylex yyscanner = (tok t, yylloc t, scanner_at text (yyend t) rest).
Proof.
  unfold scans, core_yylex, scanner_at. intros <- ->. reflexivity.
Qed.

Lemma core_yylex_nil (text : list byte) (yyscanner : core_yyscan) :
  scans text yyscanner -> pending yyscanner = [] ->
  core_yylex yyscanner
  = (0, Z.of_nat (List.length text), scanner_eof text).
Proof.
  unfold scans, core_yylex, scanner_eof. intros <- ->. reflexivity.
Qed.

Lemma tokens_wf_codes (lo qlen : Z) (toks : list token) :
  tokens_wf lo qlen toks = true -> codes_ok toks.
Proof.
  revert lo. induction toks as [ | t toks IH]; intros lo H; [constructor | ].
  simpl in H. rewrite !andb_true_iff in H.
  destruct H as ((((Hc & _) & _) & _) & Hrest).
  constructor; [ | apply (IH _ Hrest)].
  apply negb_true_iff in Hc. lia.
Qed.

(** The inner loop, with any fuel above the number of pending tokens. *)
Lemma find_constant_loop_spec (query text : list byte) (rec : pgnqLocationLen)
  (toks : list token) :
  codes_ok toks ->
  forall (fuel : nat) (yyscanner : core_yyscan),
    scans text yyscanner -> pending yyscanner = toks ->
    (List.length toks < fuel)%nat ->
    find_constant_loop fuel query yyscanner rec
    = match found query (location rec) toks with
      | Some (t, rest) =>
          (tok t,
           mkLocationLen (location rec)
             (constant_length (put_NUL (text ++ [NUL; NUL]) (yyend t))
                (location rec)),
           scanner_at text (yyend t) rest)
      | None => (0, rec, scanner_eof text)
      end.
Proof.
  intros Hcodes. induction Hcodes as [ | t toks Ht Hcodes IH];
    intros fuel sc Hsc Hp Hfuel.
  - destruct fuel as [ | fuel]; [simpl in Hfuel; lia | ].
    cbn [find_constant_loop]. rewrite (core_yylex_nil text) by assumption.
    reflexivity.
  - destruct fuel as [ | fuel]; [simpl in Hfuel; lia | ].
    cbn [find_constant_loop].
    rewrite (core_yylex_cons text sc t toks) by assumption.
    destruct (tok t =? 0) eqn:E0; [lia | ].
    unfold found. cbn [skip_before].
    destruct (yylloc t >=? location rec) eqn:Eloc.
    + destruct (Byte.eqb (byte_at query (location rec)) "-") eqn:Eminus.
      * destruct toks as [ | t2 toks].
        -- rewrite (core_yylex_nil text) by reflexivity. reflexivity.
        -- rewrite (core_yylex_cons text _ t2 toks) by reflexivity.
           inversion Hcodes as [ | ? ? Ht2 _]; subst.
           destruct (tok t2 =? 0) eqn:E2; [lia | ]. reflexivity.
      * rewrite E0. reflexivity.
    + apply IH; [reflexivity | reflexivity | simpl in Hfuel; lia].
Qed.

(** The fuel [find_constant] gives the loop is enough: more changes
    nothing. *)
Lemma find_constant_fuel (query : list byte) (yyscanner : core_yyscan)
  (rec : pgnqLocationLen) (fuel : nat) :
  codes_ok (pending yyscanner) ->
  (List.length (pending yyscanner) < fuel)%nat ->
  find_constant_loop fuel query yyscanner rec
  = find_constant query yyscanner rec.
Proof.
  intros Hcodes Hfuel. unfold find_constant.
  rewrite !(find_constant_loop_spec query (scan_text yyscanner) rec
              (pending yyscanner) Hcodes) by (reflexivity || lia).
  reflexivity.
Qed.

Lemma find_constant_spec (query text : list byte) (yyscanner : core_yyscan)
  (rec : pgnqLocationLen) :
  scans text yyscanner -> codes_ok (pending yyscanner) ->
  find_constant query yyscanner rec
  = match found query (location rec) (pending yyscanner) with
    | Some (t, rest) =>
        (tok t,
         mkLocationLen (location rec)
           (constant_length (put_NUL (text ++ [NUL; NUL]) (yyend t))
              (location rec)),
         scanner_at text (yyend t) rest)
    | None => (0, rec, scanner_eof text)
    end.
Proof.
  intros Hsc Hcodes. unfold find_constant.
  apply find_constant_loop_spec; [assumption | assumption | reflexivity | lia].
Qed.

(** ** The pass of the resolver *)

Lemma skip_before_codes (loc : Z) (toks : list token) :
  codes_ok toks -> codes_ok (skip_before loc toks).
Proof.
  intros Hcodes.
  induction Hcodes as [ | t0 toks H0 Hcodes IH]; simpl; [constructor | ].
  destruct (yylloc t0 >=? loc); [constructor | ]; assumption.
Qed.

Lemma found_codes (query : list byte) (loc : Z) (toks rest : list token)
  (t : token) :
  codes_ok toks -> found query loc toks = Some (t, rest) ->
  tok t <> 0 /\ codes_ok rest.
Proof.
  unfold found. intros Hcodes.
  pose proof (skip_before_codes loc toks Hcodes) as Hs.
  destruct (skip_before loc toks) as [ | t1 r1]; [discriminate | ].
  inversion Hs as [ | ? ? H1 Hr1]; subst.
  destruct (Byte.eqb (byte_at query loc) "-").
  - destruct r1 as [ | t2 r2]; [discriminate | ].
    intros H. injection H as <- <-. inversion Hr1; auto.
  - intros H. injection H as <- <-. auto.
Qed.

(** The outer loop never fails on records with locations that are not
    negative, and leaves the records [resolve] describes. *)
Lemma fill_loop_resolve (query : list byte) (locs : list pgnqLocationLen) :
  locations_ok locs ->
  forall (yyscanner : core_yyscan) (last_loc : Z),
    scans query yyscanner -> codes_ok (pending yyscanner) ->
    exists yyscanner' last_loc',
      fill_loop query locs yyscanner last_loc
      = Ok (resolve query locs (pending yyscanner) last_loc,
            yyscanner', last_loc',
            exhausted query locs (pending yyscanner) last_loc)
      /\ scans query yyscanner'.
Proof.
  intros Hlocs. induction Hlocs as [ | rec rest Hrec Hlocs IH];
    intros sc last Hsc Hcodes.
  - exists sc, last. split; [reflexivity | assumption].
  - cbn [fill_loop resolve exhausted].
    destruct (location rec >=? 0) eqn:E0; [ | lia]. cbn [Assert bind].
    destruct (location rec <=? last) eqn:Edup.
    + destruct (IH sc last Hsc Hcodes) as (sc' & last' & -> & Hsc').
      cbn [bind]. eauto.
    + rewrite (find_constant_spec query query sc rec Hsc Hcodes).
      destruct (found query (location rec) (pending sc)) as [[t toks] | ] eqn:Ef.
      * destruct (found_codes _ _ _ _ _ Hcodes Ef) as (Ht & Hcodes').
        destruct (tok t =? 0) eqn:Et; [lia | ].
        destruct (IH (scanner_at query (yyend t) toks) (location rec))
          as (sc' & last' & Hfill & Hsc');
          [reflexivity | exact Hcodes' | ].
        cbn [pending scanner_at] in Hfill. rewrite Hfill. cbn [bind].
        unfold measured. eauto.
      * cbn [Z.eqb]. exists (scanner_eof query), last.
        split; reflexivity.
Qed.

(** ** The text the scanner leaves at a constant *)

Lemma strlen_app_NUL (l rest : list byte) :
  no_NUL l -> strlen (l ++ NUL :: rest) = List.length l.
Proof.
  intros H. induction H as [ | b l Hb H IH]; [reflexivity | ].
  simpl. destruct (Byte.eqb b NUL) eqn:E.
  - apply byte_dec_bl in E. contradiction.
  - rewrite IH. reflexivity.
Qed.

Lemma no_NUL_firstn (n : nat) (s : list byte) : no_NUL s -> no_NUL (firstn n s).
Proof.
  unfold no_NUL. intros H. rewrite <- (firstn_skipn n s) in H.
  apply Forall_app in H. apply H.
Qed.

Lemma no_NUL_skipn (n : nat) (s : list byte) : no_NUL s -> no_NUL (skipn n s).
Proof.
  unfold no_NUL. intros H. rewrite <- (firstn_skipn n s) in H.
  apply Forall_app in H. apply H.
Qed.

Lemma sub_length (s : list byte) (from to : Z) :
  0 <= from <= to -> to <= Z.of_nat (List.length s) ->
  Z.of_nat (List.length (sub s from to)) = to - from.
Proof.
  intros H1 H2. unfold sub. rewrite length_firstn, length_skipn. lia.
Qed.

(** After a token that ends at [e], the text at [loc] in the scan buffer is
    the text of the query from [loc] to [e]. *)
Lemma text_at_put_NUL (query : list byte) (loc e : Z) :
  no_NUL query -> 0 <= loc <= e -> e <= Z.of_nat (List.length query) ->
  text_at (put_NUL (query ++ [NUL; NUL]) e) loc = sub query loc e.
Proof.
  intros Hq Hloc He. unfold put_NUL.
  rewrite length_app. cbn [List.length].
  destruct ((0 <=? e) && (e <? Z.of_nat (List.length query + 2))) eqn:E;
    [clear E | blia].
  assert (Hbuf : skipn (Z.to_nat loc)
                   (firstn (Z.to_nat e) (query ++ [NUL; NUL])
                      ++ NUL :: skipn (S (Z.to_nat e)) (query ++ [NUL; NUL]))
                 = sub query loc e
                     ++ NUL :: skipn (S (Z.to_nat e)) (query ++ [NUL; NUL])).
  { rewrite firstn_app.
    replace (Z.to_nat e - List.length query)%nat with O by lia.
    rewrite firstn_O, app_nil_r, skipn_app, length_firstn.
    replace (Z.to_nat loc - Nat.min (Z.to_nat e) (List.length query))%nat
      with O by lia.
    rewrite skipn_O. f_equal. unfold sub.
    rewrite skipn_firstn_comm. f_equal. lia. }
  unfold text_at, strlen_from. rewrite Hbuf.
  assert (Hsub : no_NUL (sub query loc e))
    by (apply no_NUL_firstn, no_NUL_skipn, Hq).
  rewrite strlen_app_NUL by exact Hsub.
  rewrite firstn_app, Nat.sub_diag, firstn_O, app_nil_r.
  apply firstn_all.
Qed.

Lemma put_NUL_length (buf : list byte) (e : Z) :
  List.length (put_NUL buf e) = List.length buf.
Proof.
  unfold put_NUL.
  destruct ((0 <=? e) && (e <? Z.of_nat (List.length buf))) eqn:E;
    [ | reflexivity].
  apply andb_true_iff in E. apply set_cell_length. lia.
Qed.

Lemma measured_spec (query : list byte) (loc e : Z) :
  no_NUL query -> 0 <= loc <= e -> e <= Z.of_nat (List.length query) ->
  Z.of_nat (List.length query) + 2 <= INT_MAX ->
  measured query loc e
  = Z.of_nat (List.length (constant_text (sub query loc e))).
Proof.
  intros Hq Hloc He Hmax. unfold measured.
  rewrite constant_length_spec;
    [ | lia | rewrite put_NUL_length, length_app; simpl; lia].
  rewrite text_at_put_NUL by assumption. reflexivity.
Qed.

Lemma drop_space_snoc (l : list byte) (b : byte) :
  scanner_isspace b = false -> drop_space (l ++ [b]) <> [].
Proof.
  intros Hb. induction l as [ | a l IH]; simpl.
  - rewrite Hb. discriminate.
  - destruct (scanner_isspace a); [exact IH | discriminate].
Qed.

(** A quoted string with Unicode escapes keeps its first byte. *)
Lemma constant_text_length (text : list byte) :
  scanner_isspace "u" = false -> scanner_isspace "U" = false ->
  text <> [] ->
  (0 < List.length (constant_text text) <= List.length text)%nat.
Proof.
  intros Hu HU Hne. unfold constant_text.
  destruct (unicode_quoted text) eqn:E.
  - split; [ | apply trim_trailing_length].
    destruct text as [ | b0 [ | b1 [ | b2 [ | b3 [ | b4 l]]]]];
      try discriminate.
    cbn [unicode_quoted] in E. rewrite !andb_true_iff in E.
    destruct E as ((E0 & _) & _).
    assert (Hb0 : scanner_isspace b0 = false).
    { apply orb_true_iff in E0. destruct E0 as [E0 | E0];
        apply byte_dec_bl in E0; subst b0; assumption. }
    unfold trim_trailing. rewrite length_rev.
    change (b0 :: b1 :: b2 :: b3 :: b4 :: l)
      with ([b0] ++ b1 :: b2 :: b3 :: b4 :: l).
    rewrite rev_app_distr.
    pose proof (drop_space_snoc (rev (b1 :: b2 :: b3 :: b4 :: l)) b0 Hb0) as Hd.
    change (rev [b0]) with [b0].
    destruct (drop_space (rev (b1 :: b2 :: b3 :: b4 :: l) ++ [b0]));
      [congruence | simpl; lia].
  - destruct text; [congruence | simpl; lia].
Qed.

(** ** Well-formed token sequences *)

Lemma tokens_wf_cons (lo qlen : Z) (t : token) (toks : list token) :
  tokens_wf lo qlen (t :: toks) = true <->
  tok t <> 0 /\ lo <= yylloc t /\ yylloc t < yyend t /\ yyend t <= qlen
  /\ tokens_wf (yyend t) qlen toks = true.
Proof.
  cbn [tokens_wf]. rewrite !andb_true_iff, negb_true_iff.
  rewrite Z.eqb_neq, !Z.leb_le, Z.ltb_lt. tauto.
Qed.

Lemma tokens_wf_weaken (lo lo' qlen : Z) (toks : list token) :
  lo' <= lo -> tokens_wf lo qlen toks = true -> tokens_wf lo' qlen toks = true.
Proof.
  destruct toks as [ | t toks]; [reflexivity | ].
  rewrite !tokens_wf_cons. intros H (? & ? & ? & ? & ?).
  repeat split; try assumption; lia.
Qed.

Lemma skip_before_wf (lo qlen loc : Z) (toks rest : list token) (t : token) :
  tokens_wf lo qlen toks = true ->
  skip_before loc toks = t :: rest ->
  loc <= yylloc t /\ tokens_wf lo qlen (t :: rest) = true.
Proof.
  revert lo. induction toks as [ | t0 toks IH]; intros lo Hwf Hs;
    [discriminate | ].
  cbn [skip_before] in Hs.
  destruct (yylloc t0 >=? loc) eqn:E.
  - injection Hs as <- <-. split; [blia | exact Hwf].
  - apply tokens_wf_cons in Hwf. destruct Hwf as (_ & ? & ? & _ & Hwf).
    destruct (IH _ Hwf Hs) as (Hloc & Hwf').
    split; [exact Hloc | ].
    apply (tokens_wf_weaken (yyend t0)); [lia | exact Hwf'].
Qed.

(** The token after which a constant is measured ends after the location
    of the constant, and the tokens that follow start at its end or later. *)
Lemma found_wf (query : list byte) (lo qlen loc : Z) (toks rest : list token)
  (t : token) :
  tokens_wf lo qlen toks = true ->
  found query loc toks = Some (t, rest) ->
  loc < yyend t /\ lo < yyend t /\ yyend t <= qlen
  /\ tokens_wf (yyend t) qlen rest = true.
Proof.
  intros Hwf Hf. unfold found in Hf.
  destruct (skip_before loc toks) as [ | t1 r1] eqn:Es; [discriminate | ].
  destruct (skip_before_wf _ _ _ _ _ _ Hwf Es) as (Hloc & Hwf1).
  apply tokens_wf_cons in Hwf1. destruct Hwf1 as (_ & ? & ? & ? & Hwf1).
  destruct (Byte.eqb (byte_at query loc) "-").
  - destruct r1 as [ | t2 r2]; [discriminate | ].
    injection Hf as <- <-.
    apply tokens_wf_cons in Hwf1. destruct Hwf1 as (_ & ? & ? & ? & Hwf2).
    repeat split; try assumption; lia.
  - injection Hf as <- <-. repeat split; try assumption; lia.
Qed.

(** ** The lengths the resolver leaves *)

Lemma sub_nonempty (s : list byte) (from to : Z) :
  0 <= from < to -> to <= Z.of_nat (List.length s) -> sub s from to <> [].
Proof.
  intros H1 H2 E. pose proof (sub_length s from to) as H.
  rewrite E in H. simpl in H. lia.
Qed.

Lemma measured_bounds (query : list byte) (loc e : Z) :
  scanner_isspace "u" = false -> scanner_isspace "U" = false ->
  no_NUL query -> 0 <= loc < e -> e <= Z.of_nat (List.length query) ->
  Z.of_nat (List.length query) + 2 <= INT_MAX ->
  0 < measured query loc e <= e - loc.
Proof.
  intros Hu HU Hq Hloc He Hmax.
  rewrite measured_spec by (assumption || lia).
  pose proof (constant_text_length (sub query loc e) Hu HU) as H.
  rewrite <- (sub_length query loc e) by lia.
  specialize (H (sub_nonempty query loc e Hloc He)). lia.
Qed.

Lemma skip_before_incl (loc : Z) (toks : list token) :
  incl (skip_before loc toks) toks.
Proof.
  induction toks as [ | t toks IH]; simpl; [apply incl_refl | ].
  destruct (yylloc t >=? loc); [apply incl_refl | ].
  apply incl_tl, IH.
Qed.

Lemma found_incl (query : list byte) (loc : Z) (toks rest : list token)
  (t : token) :
  found query loc toks = Some (t, rest) -> In t toks /\ incl rest toks.
Proof.
  unfold found. pose proof (skip_before_incl loc toks) as Hi.
  destruct (skip_before loc toks) as [ | t1 r1]; [discriminate | ].
  destruct (Byte.eqb (byte_at query loc) "-").
  - destruct r1 as [ | t2 r2]; [discriminate | ].
    intros H. injection H as <- <-. split.
    + apply Hi. right. left. reflexivity.
    + intros x Hx. apply Hi. right. right. exact Hx.
  - intros H. injection H as <- <-. split.
    + apply Hi. left. reflexivity.
    + intros x Hx. apply Hi. right. exact Hx.
Qed.

Lemma resolved_ok_incl (query : list byte) (toks toks' : list token)
  (r : pgnqLocationLen) :
  incl toks' toks -> resolved_ok query toks' r -> resolved_ok query toks r.
Proof.
  intros Hi [H | (t & Ht & H)]; [left; exact H | right].
  exists t. split; [apply Hi, Ht | exact H].
Qed.

Lemma resolve_lengths (query : list byte) (locs : list pgnqLocationLen) :
  scanner_isspace "u" = false -> scanner_isspace "U" = false ->
  no_NUL query -> Z.of_nat (List.length query) + 2 <= INT_MAX ->
  all_unresolved locs -> locations_ok locs ->
  forall (toks : list token) (lo last_loc : Z),
    tokens_wf lo (Z.of_nat (List.length query)) toks = true ->
    Forall (resolved_ok query toks) (resolve query locs toks last_loc).
Proof.
  intros Hu HU Hq Hmax Hun Hlocs.
  induction Hun as [ | rec rest Hrec Hun IH]; intros toks lo last Hwf;
    [constructor | ].
  inversion Hlocs as [ | ? ? Hloc Hlocs']; subst.
  assert (Hrest : Forall (resolved_ok query toks) rest).
  { clear - Hun. induction Hun; constructor; [left | ]; auto. }
  cbn [resolve]. destruct (location rec <=? last).
  - constructor; [left; exact Hrec | ]. apply (IH Hlocs' toks lo last Hwf).
  - destruct (found query (location rec) toks) as [[t toks'] | ] eqn:Ef.
    + destruct (found_wf _ _ _ _ _ _ _ Hwf Ef) as (He1 & _ & He2 & Hwf').
      destruct (found_incl _ _ _ _ _ Ef) as (Ht & Hincl).
      constructor.
      * right. exists t. cbn [location length].
        pose proof (measured_bounds query (location rec) (yyend t) Hu HU Hq)
          as Hb.
        rewrite <- measured_spec by (assumption || lia).
        repeat split; try assumption; lia.
      * eapply Forall_impl; [ | apply (IH Hlocs' toks' (yyend t) _ Hwf')].
        intros r. apply resolved_ok_incl, Hincl.
    + constructor; [left; exact Hrec | exact Hrest].
Qed.

(** ** Sorting *)

Lemma qsort_insert_perm {A : Type} (compar : A -> A -> Z) (x : A) (l : list A) :
  Permutation (x :: l) (qsort_insert compar x l).
Proof.
  induction l as [ | y l IH]; simpl; [apply Permutation_refl | ].
  destruct (compar x y <=? 0); [apply Permutation_refl | ].
  apply perm_trans with (y :: x :: l); [apply perm_swap | ].
  apply perm_skip, IH.
Qed.

Lemma qsort_perm {A : Type} (compar : A -> A -> Z) (l : list A) :
  Permutation l (qsort compar l).
Proof.
  induction l as [ | x l IH]; simpl; [apply perm_nil | ].
  apply perm_trans with (x :: qsort compar l); [apply perm_skip, IH | ].
  apply qsort_insert_perm.
Qed.

Lemma qsort_length {A : Type} (compar : A -> A -> Z) (l : list A) :
  List.length (qsort compar l) = List.length l.
Proof. symmetry. apply Permutation_length, qsort_perm. Qed.

Lemma qsort_Forall {A : Type} (compar : A -> A -> Z) (P : A -> Prop)
  (l : list A) :
  Forall P l -> Forall P (qsort compar l).
Proof. apply Permutation_Forall, qsort_perm. Qed.

Lemma qsort_small {A : Type} (compar : A -> A -> Z) (l : list A) :
  (List.length l <= 1)%nat -> qsort compar l = l.
Proof.
  destruct l as [ | x [ | y l]]; simpl; try reflexivity. lia.
Qed.

(** ** The resolver on a state *)

Lemma records_set_records (jstate : pgnqConstLocations)
  (locs : list pgnqLocationLen) :
  List.length locs = Z.to_nat (clocations_count jstate) ->
  records (set_records jstate locs) = locs.
Proof.
  intros H. unfold records, set_records.
  cbn [clocations clocations_count]. rewrite <- H.
  rewrite firstn_app, Nat.sub_diag, firstn_O, app_nil_r.
  apply firstn_all.
Qed.

Lemma set_records_wf (jstate : pgnqConstLocations)
  (locs : list pgnqLocationLen) :
  jstate_wf jstate ->
  List.length locs = Z.to_nat (clocations_count jstate) ->
  jstate_wf (set_records jstate locs).
Proof.
  intros (Hlen & Hcount & Hsize) H. unfold jstate_wf, set_records.
  cbn [clocations clocations_count clocations_buf_size].
  rewrite length_app, length_skipn. repeat split; lia.
Qed.

Lemma resolve_length (query : list byte) (locs : list pgnqLocationLen) :
  forall (toks : list token) (last_loc : Z),
    List.length (resolve query locs toks last_loc) = List.length locs.
Proof.
  induction locs as [ | rec rest IH]; intros toks last; [reflexivity | ].
  cbn [resolve]. destruct (location rec <=? last).
  - simpl. rewrite IH. reflexivity.
  - destruct (found query (location rec) toks) as [[t toks'] | ];
      [ | reflexivity].
    simpl. rewrite IH. reflexivity.
Qed.

(** The resolver returns, on every state of the locator, the state with the
    records sorted and resolved. *)
Lemma fill_spec (jstate : pgnqConstLocations) (query : list byte) :
  jstate_wf jstate -> locations_ok (records jstate) ->
  codes_ok (core_scanner query) ->
  exists jstate',
    pgnq_fill_in_constant_lengths jstate query = Ok jstate'
    /\ records jstate' = resolved jstate query
    /\ clocations_count jstate' = clocations_count jstate
    /\ highest_extern_param_id jstate' = highest_extern_param_id jstate
    /\ jstate_wf jstate'.
Proof.
  intros Hwf Hlocs Hcodes. unfold pgnq_fill_in_constant_lengths.
  pose proof (records_length jstate Hwf) as Hlen.
  set (st := if clocations_count jstate >? 1
             then set_records jstate
                    (qsort pgnq_comp_location (records jstate))
             else jstate).
  assert (Hst : records st = qsort pgnq_comp_location (records jstate)
                /\ clocations_count st = clocations_count jstate
                /\ highest_extern_param_id st = highest_extern_param_id jstate
                /\ jstate_wf st).
  { subst st. destruct (clocations_count jstate >? 1) eqn:E.
    - rewrite records_set_records by (rewrite qsort_length; exact Hlen).
      split; [reflexivity | ]. split; [reflexivity | ].
      split; [reflexivity | ].
      apply set_records_wf; [exact Hwf | rewrite qsort_length; exact Hlen].
    - rewrite qsort_small by blia. auto. }
  destruct Hst as (Hrec & Hcount & Hh & Hwf').
  destruct (fill_loop_resolve query (records st)) with
    (yyscanner := scanner_init query (core_scanner query)) (last_loc := -1)
    as (sc' & last' & Hfill & _).
  { rewrite Hrec. apply qsort_Forall, Hlocs. }
  { reflexivity. }
  { exact Hcodes. }
  rewrite Hfill. cbn [bind].
  eexists. split; [reflexivity | ].
  cbn [pending scanner_init]. rewrite Hrec. fold (resolved jstate query).
  assert (Hl : List.length (resolved jstate query)
               = Z.to_nat (clocations_count st)).
  { unfold resolved. rewrite resolve_length, qsort_length, Hcount.
    exact Hlen. }
  rewrite records_set_records by exact Hl.
  split; [reflexivity | ]. split; [exact Hcount | ]. split; [exact Hh | ].
  apply set_records_wf; assumption.
Qed.

(** ** Trailing white space *)

Lemma drop_space_spec (l : list byte) :
  exists spaces,
    l = spaces ++ drop_space l
    /\ Forall (fun b => scanner_isspace b = true) spaces
    /\ match drop_space l with
       | [] => True
       | b :: _ => scanner_isspace b = false
       end.
Proof.
  induction l as [ | b l (sp & Hl & Hsp & Hd)]; simpl.
  - exists []. repeat split. constructor.
  - destruct (scanner_isspace b) eqn:E.
    + exists (b :: sp). split; [simpl; congruence | ].
      split; [constructor; assumption | exact Hd].
    + exists []. repeat split; [constructor | exact E].
Qed.

(** [trim_trailing] removes the white space at the end of a text, all of
    it and nothing else. *)
Lemma trim_trailing_spec (text : list byte) :
  exists spaces,
    text = trim_trailing text ++ spaces
    /\ Forall (fun b => scanner_isspace b = true) spaces
    /\ (forall l b, trim_trailing text = l ++ [b] -> scanner_isspace b = false).
Proof.
  destruct (drop_space_spec (rev text)) as (sp & Hl & Hsp & Hd).
  exists (rev sp). unfold trim_trailing. split; [ | split].
  - rewrite <- rev_app_distr, <- Hl, rev_involutive. reflexivity.
  - apply Forall_rev, Hsp.
  - intros l b E. apply (f_equal (@rev byte)) in E.
    rewrite rev_involutive, rev_app_distr in E. simpl in E.
    rewrite E in Hd. exact Hd.
Qed.


(** C9. When the resolver has found the token of a record, let [text] be
    the bytes of the scan buffer from the location of the record up to the
    NUL the scanner has put after the token.  If [text] has more than four
    bytes and starts with u or U, then &, then a single quote, the length
    stored is that of [text] without its trailing white space: all of the
    white space at the end and nothing else is left out, and the length is
    positive.  For every other text the length stored is the length of
    [text], the distance from the location to the NUL, unchanged. *)
Theorem unicode_literal_trimmed (query : list byte) (yyscanner : core_yyscan)
  (rec : pgnqLocationLen) (code : Z) (rec' : pgnqLocationLen)
  (yyscanner' : core_yyscan) :
  0 <= location rec ->
  Z.of_nat (List.length (scan_text yyscanner)) + 2 <= INT_MAX ->
  codes_ok (pending yyscanner) ->
  find_constant query yyscanner rec = (code, rec', yyscanner') ->
  code <> 0 ->
  let text := text_at (scanbuf yyscanner') (location rec) in
  location rec' = location rec
  /\ Z.of_nat (List.length text)
     = Z.of_nat (strlen_from (scanbuf yyscanner') (location rec))
  /\ (unicode_quoted text = false -> length rec' = Z.of_nat (List.length text))
  /\ (unicode_quoted text = true ->
      exists kept spaces,
        text = kept ++ spaces
        /\ length rec' = Z.of_nat (List.length kept)
        /\ Forall (fun b => scanner_isspace b = true) spaces
        /\ (forall l b, kept = l ++ [b] -> scanner_isspace b = false)
        /\ (scanner_isspace "u" = false -> scanner_isspace "U" = false ->
            0 < length rec')).
Proof.
  intros Hloc Hmax Hcodes Hfind Hcode text.
  rewrite (find_constant_spec query (scan_text yyscanner) yyscanner rec)
    in Hfind by (reflexivity || assumption).
  destruct (found query (location rec) (pending yyscanner))
    as [[t toks] | ]; [ | injection Hfind as <- _ _; congruence].
  injection Hfind as _ <- <-.
  cbn [location length scanbuf scanner_at] in *.
  assert (Hlen : constant_length
                   (put_NUL (scan_text yyscanner ++ [NUL; NUL]) (yyend t))
                   (location rec)
                 = Z.of_nat (List.length (constant_text text))).
  { apply constant_length_spec; [exact Hloc | ].
    rewrite put_NUL_length, length_app. simpl. lia. }
  split; [reflexivity | ].
  split; [subst text; rewrite text_at_length; reflexivity | ].
  unfold constant_text in Hlen. split.
  - intros E. rewrite E in Hlen. exact Hlen.
  - intros E. rewrite E in Hlen.
    destruct (trim_trailing_spec text) as (sp & Htext & Hsp & Hlast).
    exists (trim_trailing text), sp.
    repeat split; try assumption.
    intros Hu HU. rewrite Hlen.
    pose proof (constant_text_length text Hu HU) as Hpos.
    unfold constant_text in Hpos. rewrite E in Hpos.
    assert (Hne : text <> []) by (intros Hn; rewrite Hn in E; discriminate).
    specialize (Hpos Hne). lia.
Qed.

(** ** memcpy and sprintf *)

Lemma sub_terminated (src : list byte) (from n : Z) :
  0 <= from -> 0 <= n -> from + n <= Z.of_nat (List.length src) ->
  firstn (Z.to_nat n) (skipn (Z.to_nat from) (src ++ [NUL]))
  = sub src from (from + n).
Proof.
  intros Hfrom Hn Hle. unfold sub.
  replace (Z.to_nat (from + n - from)) with (Z.to_nat n) by lia.
  rewrite skipn_app, firstn_app, length_skipn.
  replace (Z.to_nat n - (List.length src - Z.to_nat from))%nat with O by lia.
  rewrite firstn_O, app_nil_r. reflexivity.
Qed.

Lemma memcpy_Ok (dst src : list byte) (at_ from n : Z) :
  0 <= at_ -> 0 <= n -> at_ + n <= Z.of_nat (List.length dst) ->
  0 <= from -> from + n <= Z.of_nat (List.length src) ->
  exists dst',
    memcpy dst at_ src from n = Ok dst'
    /\ List.length dst' = List.length dst
    /\ firstn (Z.to_nat (at_ + n)) dst'
       = firstn (Z.to_nat at_) dst ++ sub src from (from + n).
Proof.
  intros Hat Hn Hdst Hfrom Hsrc. unfold memcpy.
  destruct ((0 <=? at_) && (at_ + n <=? Z.of_nat (List.length dst))) eqn:E1;
    [clear E1 | blia].
  destruct ((0 <=? from) && (from + n <=? Z.of_nat (List.length src) + 1)) eqn:E2;
    [clear E2 | blia].
  cbn [negb]. rewrite sub_terminated by lia.
  eexists. split; [reflexivity | ].
  assert (Hl1 : List.length (firstn (Z.to_nat at_) dst) = Z.to_nat at_)
    by (apply firstn_length_le; lia).
  assert (Hl2 : List.length (sub src from (from + n)) = Z.to_nat n)
    by (pose proof (sub_length src from (from + n)); lia).
  split.
  - rewrite !length_app, Hl1, Hl2, length_skipn. lia.
  - rewrite app_assoc.
    replace (Z.to_nat (at_ + n))
      with (List.length (firstn (Z.to_nat at_) dst
                           ++ sub src from (from + n)) + 0)%nat
      by (rewrite length_app, Hl1, Hl2; lia).
    rewrite firstn_app_2, firstn_O, app_nil_r. reflexivity.
Qed.

Lemma decimal_length (fuel : nat) (n : Z) :
  (List.length (decimal fuel n) <= fuel)%nat
  /\ (fuel <> O -> List.length (decimal fuel n) <> O).
Proof.
  revert n. induction fuel as [ | fuel IH]; intros n; [simpl; lia | ].
  cbn [decimal]. rewrite length_app. simpl.
  destruct (n <? 10); simpl; [lia | ].
  destruct (IH (n / 10)). lia.
Qed.

(** A number that is not negative prints as one to ten digits. *)
Lemma format_d_length (n : Z) :
  0 <= n -> (1 <= List.length (format_d n) <= 10)%nat.
Proof.
  intros Hn. unfold format_d. destruct (n <? 0) eqn:E; [blia | ].
  destruct (decimal_length 10 n). lia.
Qed.

Lemma sprintf_param_Ok (dst : list byte) (at_ n : Z) :
  0 <= at_ ->
  at_ + Z.of_nat (List.length ("$"%byte :: format_d n)) + 1
  <= Z.of_nat (List.length dst) ->
  exists dst',
    sprintf_param dst at_ n
    = Ok (dst', Z.of_nat (List.length ("$"%byte :: format_d n)))
    /\ List.length dst' = List.length dst
    /\ firstn (Z.to_nat (at_ + Z.of_nat (List.length ("$"%byte :: format_d n))))
         dst'
       = firstn (Z.to_nat at_) dst ++ "$"%byte :: format_d n.
Proof.
  intros Hat Hdst. unfold sprintf_param.
  set (text := "$"%byte :: format_d n) in *.
  destruct ((0 <=? at_)
            && (at_ + Z.of_nat (List.length text) + 1
                <=? Z.of_nat (List.length dst))) eqn:E; [clear E | blia].
  cbn [negb]. eexists. split; [reflexivity | ].
  assert (Hl1 : List.length (firstn (Z.to_nat at_) dst) = Z.to_nat at_)
    by (apply firstn_length_le; lia).
  split.
  - rewrite !length_app, Hl1. cbn [List.length].
    rewrite length_skipn. lia.
  - rewrite app_assoc.
    replace (Z.to_nat (at_ + Z.of_nat (List.length text)))
      with (List.length (firstn (Z.to_nat at_) dst ++ text) + 0)%nat
      by (rewrite length_app, Hl1; lia).
    rewrite firstn_app_2, firstn_O, app_nil_r. reflexivity.
Qed.

(** ** The loop of the builder *)

Lemma spans_ok_le (locs : list pgnqLocationLen) (from qlen : Z) :
  lengths_ok locs -> spans_ok locs from qlen = true ->
  from <= final_loc locs from <= qlen.
Proof.
  intros Hl. revert from. induction Hl as [ | r rest Hr Hl IH]; intros from H;
    cbn [spans_ok final_loc] in *; [blia | ].
  destruct (length r <? 0) eqn:E; [apply IH, H | ].
  apply andb_true_iff in H. destruct H as (H1 & H2).
  specialize (IH _ H2). blia.
Qed.

Lemma placeholder_length (h i : Z) :
  0 <= i + 1 + h <= INT_MAX ->
  (2 <= List.length (placeholder h i) <= 11)%nat.
Proof.
  intros H. unfold placeholder. rewrite to_int_id by (unfold INT_MIN; lia).
  pose proof (format_d_length (i + 1 + h)). simpl. lia.
Qed.

Lemma build_loop_spec (query : list byte) (h qlen cap : Z) (B : nat) :
  0 <= h -> 0 <= qlen <= Z.of_nat (List.length query) -> 0 <= cap ->
  Z.of_nat B = qlen + cap + 1 -> Z.of_nat B <= INT_MAX ->
  forall (locs : list pgnqLocationLen) (i : Z) (v : build_vars),
    lengths_ok locs ->
    spans_ok locs (quer_loc v) qlen = true ->
    0 <= i -> i + Z.of_nat (List.length locs) + h <= INT_MAX ->
    List.length (norm_query v) = B ->
    quer_loc v = last_off v + last_tok_len v ->
    0 <= last_off v -> 0 <= last_tok_len v ->
    0 <= n_quer_loc v ->
    n_quer_loc v - quer_loc v + 10 * Z.of_nat (List.length locs) <= cap ->
    exists v',
      build_loop query 0 h locs i v = Ok v'
      /\ List.length (norm_query v') = B
      /\ firstn (Z.to_nat (n_quer_loc v')) (norm_query v')
         = firstn (Z.to_nat (n_quer_loc v)) (norm_query v)
             ++ render_body query h locs i (quer_loc v)
      /\ quer_loc v' = final_loc locs (quer_loc v)
      /\ n_quer_loc v'
         = n_quer_loc v
           + Z.of_nat (List.length (render_body query h locs i (quer_loc v)))
      /\ n_quer_loc v' - quer_loc v' <= cap.
Proof.
  intros Hh Hqlen Hcap0 HB Hmax locs.
  induction locs as [ | r rest IH];
    intros i v Hl Hspans Hi Hnum Hbuf Hfrom Hoff Htok Hn Hcap.
  { exists v. cbn [build_loop render_body final_loc List.length] in *.
    rewrite app_nil_r. repeat split; lia. }
  inversion Hl as [ | ? ? Hr Hl']; subst.
  cbn [build_loop render_body final_loc spans_ok] in *.
  cbn [List.length] in Hnum, Hcap.
  assert (Hi1 : i +i 1 = i + 1)
    by (apply int_add_id; unfold INT_MIN, INT_MAX in *; lia).
  destruct (length r <? 0) eqn:Eneg.
  { rewrite Hi1. apply IH; try assumption; lia. }
  apply andb_true_iff in Hspans. destruct Hspans as (Hle & Hspans).
  apply Z.leb_le in Hle. apply Z.ltb_ge in Eneg.
  assert (Hlen : 0 < length r) by (destruct Hr; lia).
  pose proof (spans_ok_le _ _ _ Hl' Hspans) as Hfin.
  set (off := location r) in *. set (tok_len := length r) in *.
  set (from := quer_loc v) in *. set (n := n_quer_loc v) in *.
  unfold INT_MIN, INT_MAX in *.
  rewrite (int_sub_id off 0) by (unfold INT_MIN, INT_MAX; lia).
  rewrite Z.sub_0_r.
  rewrite (int_sub_id off (last_off v)) by (unfold INT_MIN, INT_MAX; lia).
  rewrite (int_sub_id (off - last_off v) (last_tok_len v))
    by (unfold INT_MIN, INT_MAX; lia).
  replace (off - last_off v - last_tok_len v) with (off - from) by lia.
  destruct (off - from >=? 0) eqn:E; [clear E | blia].
  cbn [Assert bind].
  destruct (memcpy_Ok (norm_query v) query n from (off - from))
    as (dst1 & Hcpy & Hlen1 & Hpre1); try lia.
  rewrite Hcpy. cbn [bind].
  rewrite (int_add_id n (off - from)) by (unfold INT_MIN, INT_MAX; lia).
  rewrite Hi1.
  rewrite (int_add_id (i + 1) h) by (unfold INT_MIN, INT_MAX; lia).
  pose proof (placeholder_length h i) as Hk.
  unfold placeholder in Hk.
  rewrite to_int_id in Hk by (unfold INT_MIN, INT_MAX; lia).
  specialize (Hk ltac:(unfold INT_MAX; lia)).
  destruct (sprintf_param_Ok dst1 (n + (off - from)) (i + 1 + h))
    as (dst2 & Hprt & Hlen2 & Hpre2); try lia.
  rewrite Hprt. cbn [bind].
  set (k := Z.of_nat (List.length ("$"%byte :: format_d (i + 1 + h)))) in *.
  rewrite (int_add_id (n + (off - from)) k)
    by (unfold INT_MIN, INT_MAX; lia).
  rewrite (int_add_id off tok_len) by (unfold INT_MIN, INT_MAX; lia).
  destruct (IH (i + 1)
              (mkBuild dst2 (off + tok_len) (n + (off - from) + k) off tok_len))
    as (v' & Hloop & HlenB & Hpre & Hq & Hn' & Hcap');
    cbn [norm_query quer_loc n_quer_loc last_off last_tok_len];
    try assumption; try lia.
  exists v'. split; [exact Hloop | ]. split; [exact HlenB | ].
  cbn [norm_query quer_loc n_quer_loc last_off last_tok_len] in *.
  assert (Hph : placeholder h i = "$"%byte :: format_d (i + 1 + h)).
  { unfold placeholder. rewrite to_int_id; [reflexivity | ].
    unfold INT_MIN, INT_MAX. lia. }
  split; [ | split; [exact Hq | split; [ | exact Hcap']]].
  - rewrite Hpre, Hpre2, Hpre1, Hph.
    replace (from + (off - from)) with off by lia.
    rewrite <- !app_assoc. reflexivity.
  - rewrite Hn', !length_app, Hph.
    pose proof (sub_length query from off). fold k. lia.
Qed.

(** ** The builder *)

Lemma palloc_bytes (n : Z) :
  0 <= n <= MaxAllocSize -> palloc NUL 1 n = Ok (repeat NUL (Z.to_nat n)).
Proof.
  intros H. unfold palloc, AllocSizeIsValid, to_size_t, MaxAllocSize in *.
  assert (E : (n mod 18446744073709551616 * 1) mod 18446744073709551616 = n)
    by zlia.
  rewrite E. destruct (n <=? 1073741823) eqn:E'; [reflexivity | lia].
Qed.

Lemma render_body_length (query : list byte) (h : Z)
  (locs : list pgnqLocationLen) :
  0 <= h ->
  forall (i from : Z),
    0 <= i -> i + Z.of_nat (List.length locs) + h <= INT_MAX ->
    0 <= from -> lengths_ok locs ->
    spans_ok locs from (Z.of_nat (List.length query)) = true ->
    Z.of_nat (List.length (render_body query h locs i from))
    - final_loc locs from + from
    <= 10 * Z.of_nat (List.length locs).
Proof.
  intros Hh. induction locs as [ | r rest IH];
    intros i from Hi Hnum Hfrom Hl Hspans.
  { simpl. lia. }
  inversion Hl as [ | ? ? Hr Hl']; subst.
  cbn [render_body final_loc spans_ok List.length] in *.
  destruct (length r <? 0) eqn:Eneg.
  { specialize (IH (i + 1) from ltac:(lia) ltac:(lia) Hfrom Hl' Hspans). lia. }
  apply andb_true_iff in Hspans. destruct Hspans as (Hle & Hspans).
  apply Z.leb_le in Hle. apply Z.ltb_ge in Eneg.
  pose proof (spans_ok_le _ _ _ Hl' Hspans) as Hfin.
  specialize (IH (i + 1) (location r + length r) ltac:(lia) ltac:(lia)
                ltac:(lia) Hl' Hspans).
  rewrite !length_app.
  pose proof (sub_length query from (location r)
                ltac:(lia) ltac:(lia)) as Hsub.
  pose proof (placeholder_length h i ltac:(lia)) as Hph.
  destruct Hr; lia.
Qed.

(** The builder on the records the resolver leaves, when these lie one
    after the other inside the query and the placeholder numbers fit in an
    [int]: it returns the normalized text, which stays inside the buffer. *)
Lemma build_spec (jstate jstate' : pgnqConstLocations) (query : list byte) :
  pgnq_fill_in_constant_lengths jstate query = Ok jstate' ->
  jstate_wf jstate' ->
  lengths_ok (records jstate') ->
  spans_ok (records jstate') 0 (Z.of_nat (List.length query)) = true ->
  0 <= highest_extern_param_id jstate' ->
  clocations_count jstate' + highest_extern_param_id jstate' <= INT_MAX ->
  Z.of_nat (List.length query) + 10 * clocations_count jstate' + 1
  <= MaxAllocSize ->
  let out := render query (highest_extern_param_id jstate') (records jstate') in
  pgnq_build_normalized_query jstate query 0 (Z.of_nat (List.length query))
  = Ok (out, Z.of_nat (List.length out))
  /\ Z.of_nat (List.length out)
     <= Z.of_nat (List.length query) + 10 * clocations_count jstate'.
Proof.
  intros Hfill Hwf Hl Hspans Hh Hnum Halloc out.
  pose proof (records_length jstate' Hwf) as Hcount.
  destruct Hwf as (_ & Hc & _).
  set (qlen := Z.of_nat (List.length query)) in *.
  set (count := clocations_count jstate') in *.
  set (h := highest_extern_param_id jstate') in *.
  unfold pgnq_build_normalized_query. rewrite Hfill. cbn [bind].
  fold count h. unfold MaxAllocSize, INT_MAX in *.
  rewrite (int_mul_id count 10) by (unfold INT_MIN, INT_MAX; lia).
  rewrite (int_add_id qlen) by (unfold INT_MIN, INT_MAX; lia).
  rewrite (int_add_id (qlen + count * 10) 1) by (unfold INT_MIN, INT_MAX; lia).
  rewrite palloc_bytes by (unfold MaxAllocSize; lia). cbn [bind].
  set (B := Z.to_nat (qlen + count * 10 + 1)).
  destruct (build_loop_spec query h qlen (10 * count) B) with
    (locs := records jstate') (i := 0) (v := mkBuild (repeat NUL B) 0 0 0 0)
    as (v & Hloop & HlenB & Hpre & Hq & Hn & Hcap);
    cbn [norm_query quer_loc n_quer_loc last_off last_tok_len];
    try assumption; try (unfold INT_MAX; lia);
    try (apply repeat_length).
  rewrite Hloop. cbn [bind].
  cbn [norm_query quer_loc n_quer_loc last_off last_tok_len] in *.
  pose proof (spans_ok_le _ _ _ Hl Hspans) as Hfin. rewrite <- Hq in Hfin.
  pose proof (render_body_length query h (records jstate') Hh 0 0) as Hlen.
  rewrite <- Hq in Hlen.
  specialize (Hlen ltac:(lia) ltac:(unfold INT_MAX; lia) ltac:(lia) Hl Hspans).
  rewrite Hcount in Hlen.
  rewrite (int_sub_id qlen) by (unfold INT_MIN, INT_MAX; lia).
  destruct (qlen - quer_loc v >=? 0) eqn:E; [clear E | blia].
  cbn [Assert bind].
  destruct (memcpy_Ok (norm_query v) query (n_quer_loc v) (quer_loc v)
              (qlen - quer_loc v))
    as (dst & Hcpy & Hlen1 & Hpre1); try lia.
  rewrite Hcpy. cbn [bind].
  rewrite (int_add_id (n_quer_loc v)) by (unfold INT_MIN, INT_MAX; lia).
  destruct (n_quer_loc v + (qlen - quer_loc v) <=? qlen + count * 10) eqn:E;
    [clear E | blia].
  cbn [Assert bind].
  rewrite array_set_Ok by lia. cbn [bind].
  replace (quer_loc v + (qlen - quer_loc v)) with qlen in Hpre1 by lia.
  rewrite Hpre, firstn_O, app_nil_l in Hpre1.
  assert (Hout : firstn (Z.to_nat (n_quer_loc v + (qlen - quer_loc v))) dst
                 = out).
  { rewrite Hpre1. subst out. unfold render. fold qlen. rewrite Hq.
    reflexivity. }
  assert (Hlout : Z.of_nat (List.length out)
                  = n_quer_loc v + (qlen - quer_loc v)).
  { rewrite <- Hout, length_firstn. lia. }
  split; [ | lia].
  rewrite Hlout. f_equal. f_equal.
  rewrite firstn_app, length_firstn.
  replace (Z.to_nat (n_quer_loc v + (qlen - quer_loc v))
           - Nat.min (Z.to_nat (n_quer_loc v + (qlen - quer_loc v)))
               (List.length dst))%nat with O by lia.
  rewrite firstn_O, app_nil_r, firstn_firstn, Nat.min_id. exact Hout.
Qed.

(** ** Constants at the indicated locations *)

Lemma tokens_wf_In (lo qlen : Z) (toks : list token) (t : token) :
  tokens_wf lo qlen toks = true -> In t toks ->
  lo <= yylloc t /\ yylloc t < yyend t /\ yyend t <= qlen.
Proof.
  revert lo. induction toks as [ | t0 toks IH]; intros lo Hwf Hin;
    [contradiction | ].
  apply tokens_wf_cons in Hwf. destruct Hwf as (_ & ? & ? & ? & Hwf).
  destruct Hin as [<- | Hin]; [lia | ].
  specialize (IH _ Hwf Hin). lia.
Qed.

Lemma skip_before_split (loc : Z) (toks : list token) :
  exists before,
    toks = before ++ skip_before loc toks
    /\ Forall (fun t => yylloc t < loc) before.
Proof.
  induction toks as [ | t toks (before & Ht & Hb)]; simpl.
  - exists []. split; [reflexivity | constructor].
  - destruct (yylloc t >=? loc) eqn:E.
    + exists []. split; [reflexivity | constructor].
    + exists (t :: before). split; [simpl; congruence | ].
      constructor; [blia | exact Hb].
Qed.

Lemma starts_token_In (toks : list token) (loc : Z) :
  starts_token toks loc = true <-> exists t, In t toks /\ yylloc t = loc.
Proof.
  unfold starts_token. rewrite existsb_exists.
  split; intros (t & Ht & E); exists t; (split; [exact Ht | blia || lia]).
Qed.

Lemma past_tokens_In (toks : list token) (loc : Z) :
  past_tokens toks loc = true <-> forall t, In t toks -> yyend t <= loc.
Proof.
  unfold past_tokens. rewrite forallb_forall.
  split; intros H t Ht; specialize (H t Ht); blia || lia.
Qed.

(** The search for a recorded location stops at the token that starts
    there. *)
Lemma skip_before_start (lo qlen loc : Z) (toks : list token) :
  tokens_wf lo qlen toks = true -> starts_token toks loc = true ->
  exists t rest, skip_before loc toks = t :: rest /\ yylloc t = loc.
Proof.
  revert lo. induction toks as [ | t0 toks IH]; intros lo Hwf Hs.
  { discriminate. }
  pose proof Hwf as Hwf0.
  apply tokens_wf_cons in Hwf. destruct Hwf as (_ & ? & ? & ? & Hwf).
  apply starts_token_In in Hs. destruct Hs as (t & Hin & Ht).
  cbn [skip_before]. destruct (yylloc t0 >=? loc) eqn:E.
  - exists t0, toks. split; [reflexivity | ].
    destruct Hin as [<- | Hin]; [exact Ht | ].
    pose proof (tokens_wf_In _ _ _ _ Hwf Hin). blia.
  - destruct Hin as [<- | Hin]; [blia | ].
    apply (IH _ Hwf). apply starts_token_In. eauto.
Qed.

Lemma skip_before_past (lo qlen loc : Z) (toks : list token) :
  tokens_wf lo qlen toks = true -> past_tokens toks loc = true ->
  skip_before loc toks = [].
Proof.
  intros Hwf Hp. rewrite past_tokens_In in Hp.
  destruct (skip_before loc toks) as [ | t rest] eqn:Es; [reflexivity | ].
  destruct (skip_before_wf _ _ _ _ _ _ Hwf Es) as (Hloc & _).
  assert (Hin : In t toks)
    by (apply (skip_before_incl loc toks); rewrite Es; left; reflexivity).
  pose proof (tokens_wf_In _ _ _ _ Hwf Hin). specialize (Hp t Hin). lia.
Qed.

Lemma signs_ok_tail (query : list byte) (locs : list pgnqLocationLen)
  (t : token) (toks : list token) :
  signs_ok query locs (t :: toks) = true -> signs_ok query locs toks = true.
Proof. cbn [signs_ok]. intros H. apply andb_true_iff in H. apply H. Qed.

Lemma signs_ok_app (query : list byte) (locs : list pgnqLocationLen)
  (before toks : list token) :
  signs_ok query locs (before ++ toks) = true ->
  signs_ok query locs toks = true.
Proof.
  induction before as [ | t before IH]; intros H; [exact H | ].
  apply IH. apply (signs_ok_tail _ _ t). exact H.
Qed.

Lemma recorded_In (locs : list pgnqLocationLen) (loc : Z) :
  recorded locs loc = true <-> exists r, In r locs /\ location r = loc.
Proof.
  unfold recorded. rewrite existsb_exists.
  split; intros (r & Hr & E); exists r; (split; [exact Hr | blia || lia]).
Qed.

Lemma signs_ok_incl (query : list byte) (locs locs' : list pgnqLocationLen)
  (toks : list token) :
  incl locs' locs ->
  signs_ok query locs toks = true -> signs_ok query locs' toks = true.
Proof.
  intros Hi. induction toks as [ | t toks IH]; [reflexivity | ].
  cbn [signs_ok]. intros H. apply andb_true_iff in H. destruct H as (H1 & H2).
  rewrite (IH H2), andb_true_r.
  destruct toks as [ | t2 toks]; [reflexivity | ].
  unfold sign_ok in *. apply negb_true_iff in H1. apply negb_true_iff.
  assert (Hrec : forall loc, recorded locs' loc = true -> recorded locs loc = true).
  { intros loc. rewrite !recorded_In. intros (r & Hr & E). exists r.
    split; [apply Hi, Hr | exact E]. }
  destruct (Byte.eqb (byte_at query (yylloc t)) "-"); [ | reflexivity].
  cbn [andb] in *.
  destruct (recorded locs' (yylloc t)) eqn:E1; [ | reflexivity].
  destruct (recorded locs' (yylloc t2)) eqn:E2; [ | reflexivity].
  rewrite (Hrec _ E1), (Hrec _ E2) in H1. discriminate.
Qed.

Lemma spans_ok_unresolved (locs : list pgnqLocationLen) (from qlen : Z) :
  all_unresolved locs -> from <= qlen -> spans_ok locs from qlen = true.
Proof.
  intros Hun Hle. induction Hun as [ | r rest Hr Hun IH]; cbn [spans_ok].
  - apply Z.leb_le, Hle.
  - rewrite Hr. exact IH.
Qed.

Lemma lengths_ok_unresolved (locs : list pgnqLocationLen) :
  all_unresolved locs -> lengths_ok locs.
Proof.
  intros Hun. eapply Forall_impl; [ | exact Hun].
  intros r Hr. cbv beta in Hr. left. lia.
Qed.

(** With constants at the indicated locations, the records the pass
    resolves lie one after the other in the query, and none has length 0. *)
Lemma resolve_spans (query : list byte) (locs : list pgnqLocationLen) :
  scanner_isspace "u" = false -> scanner_isspace "U" = false ->
  no_NUL query -> Z.of_nat (List.length query) + 2 <= INT_MAX ->
  all_unresolved locs -> locations_ok locs ->
  forall (toks : list token) (lo from last_loc : Z),
    tokens_wf lo (Z.of_nat (List.length query)) toks = true ->
    0 <= from <= lo -> lo <= Z.of_nat (List.length query) ->
    (forall r, In r locs -> last_loc < location r ->
               starts_token toks (location r) = true
               \/ (past_tokens toks (location r) = true /\ lo <= location r)) ->
    signs_ok query locs toks = true ->
    spans_ok (resolve query locs toks last_loc) from
      (Z.of_nat (List.length query)) = true
    /\ lengths_ok (resolve query locs toks last_loc)
    /\ (forall done r s,
          stop_point query locs toks last_loc = Some (done, r, s) ->
          final_loc (resolve query done toks last_loc) from <= location r).
Proof.
  intros Hu HU Hq Hmax Hun Hlocs.
  induction Hun as [ | rec rest Hrec Hun IH];
    intros toks lo from last Hwf Hfrom Hlo Hloc Hsigns.
  { split; [apply Z.leb_le; cbn; lia | split; [constructor | discriminate]]. }
  inversion Hlocs as [ | ? ? Hrec0 Hlocs']; subst.
  assert (Hsigns' : forall before toks',
             toks = before ++ toks' -> signs_ok query rest toks' = true).
  { intros before toks' ->. apply (signs_ok_app _ _ before).
    apply (signs_ok_incl query (rec :: rest)); [apply incl_tl, incl_refl | ].
    exact Hsigns. }
  assert (Hstop : spans_ok (rec :: rest) from (Z.of_nat (List.length query))
                  = true /\ lengths_ok (rec :: rest)).
  { split; [apply spans_ok_unresolved | apply lengths_ok_unresolved];
      try (constructor; assumption). lia. }
  assert (Hstep : forall toks' last' from' X,
             (forall done r s,
                 stop_point query rest toks' last' = Some (done, r, s) ->
                 final_loc (resolve query done toks' last') from'
                 <= location r) ->
             (forall done, final_loc (X done) from
                           = final_loc (resolve query done toks' last') from') ->
             forall done r s,
               option_map (stop_cons rec) (stop_point query rest toks' last')
               = Some (done, r, s) ->
               exists done', done = rec :: done'
                             /\ final_loc (X done') from <= location r).
  { intros toks' last' from' X HIH HX done r s Hsp.
    destruct (stop_point query rest toks' last') as [[[d r'] s'] | ];
      [ | discriminate].
    injection Hsp as <- <- <-. exists d. split; [reflexivity | ].
    rewrite HX. apply (HIH d r' s' eq_refl). }
  cbn [resolve stop_point]. destruct (location rec <=? last) eqn:Edup.
  { (* a duplicate *)
    destruct (IH Hlocs' toks lo from last) as (Hs & Hl & Hsp); try assumption.
    - intros r Hr. apply Hloc. right. exact Hr.
    - apply (Hsigns' []). reflexivity.
    - split; [cbn [spans_ok]; rewrite Hrec; exact Hs | ].
      split; [constructor; [left; lia | exact Hl] | ].
      intros done r s Hd.
      destruct (Hstep toks last from (fun d => rec :: resolve query d toks last)
                  Hsp) with (done := done) (r := r) (s := s)
        as (d & -> & Hd'); [ | exact Hd | ].
      + intros d. cbn [final_loc]. rewrite Hrec. reflexivity.
      + cbn [resolve]. rewrite Edup. exact Hd'. }
  apply Z.leb_gt in Edup.
  assert (Hlo_rec : lo <= location rec).
  { destruct (Hloc rec (or_introl eq_refl) Edup) as [Hstart | (_ & H)];
      [ | exact H].
    apply starts_token_In in Hstart. destruct Hstart as (t & Ht & <-).
    apply (tokens_wf_In _ _ _ _ Hwf Ht). }
  destruct (found query (location rec) toks) as [[t toks'] | ] eqn:Ef.
  2: { destruct Hstop as (Hs1 & Hs2). split; [exact Hs1 | ].
       split; [exact Hs2 | ].
       intros done r s Hd. injection Hd as <- <- <-. cbn. lia. }
  destruct (found_wf _ _ _ _ _ _ _ Hwf Ef) as (He1 & He0 & He2 & Hwf').
  pose proof (measured_bounds query (location rec) (yyend t) Hu HU Hq
                ltac:(lia) He2 Hmax) as HL.
  (* the token search, unfolded *)
  unfold found in Ef.
  destruct (skip_before_split (location rec) toks) as (before & Htoks & Hbefore).
  destruct (Hloc rec (or_introl eq_refl) Edup) as [Hstart | (Hpast & Hlo')].
  2: { rewrite (skip_before_past _ _ _ _ Hwf Hpast) in Ef. discriminate. }
  destruct (skip_before_start _ _ _ _ Hwf Hstart) as (t1 & r1 & Es & Et1).
  rewrite Es in Ef, Htoks.
  assert (Hwf1 : tokens_wf lo (Z.of_nat (List.length query)) (t1 :: r1) = true).
  { destruct (skip_before_wf _ _ _ _ _ _ Hwf Es) as (_ & H). exact H. }
  apply tokens_wf_cons in Hwf1. destruct Hwf1 as (_ & Hlo1 & _ & _ & Hwf1).
  (* the records after this one find their tokens among those left *)
  assert (Hnext : forall toks2,
             incl toks2 r1 -> In t toks ->
             (forall t', In t' r1 ->
                         In t' toks2 \/ recorded rest (yylloc t') = false) ->
             forall r, In r rest -> location rec < location r ->
                       starts_token toks2 (location r) = true
                       \/ (past_tokens toks2 (location r) = true
                           /\ yyend t <= location r)).
  { intros toks2 Hincl Hint Hkeep r Hr Hlt.
    destruct (Hloc r (or_intror Hr) ltac:(lia)) as [Hs | (Hp & _)].
    - left. apply starts_token_In in Hs. destruct Hs as (t' & Ht' & Et').
      apply starts_token_In. exists t'. split; [ | exact Et'].
      rewrite Htoks in Ht'. apply in_app_or in Ht'.
      destruct Ht' as [Ht' | [<- | Ht']].
      + rewrite Forall_forall in Hbefore. specialize (Hbefore t' Ht'). lia.
      + lia.
      + destruct (Hkeep t' Ht') as [H | H]; [exact H | ].
        exfalso. assert (Hrec' : recorded rest (yylloc t') = true)
          by (apply recorded_In; eauto).
        congruence.
    - right. rewrite past_tokens_In in Hp. split.
      + apply past_tokens_In. intros t' Ht'. apply Hp.
        rewrite Htoks. apply in_or_app. right. right. apply Hincl, Ht'.
      + apply Hp, Hint. }
  assert (Hin1 : forall t', In t' (t1 :: r1) -> In t' toks).
  { intros t' Ht'. rewrite Htoks. apply in_or_app. right. exact Ht'. }
  destruct (Byte.eqb (byte_at query (location rec)) "-") eqn:Eminus.
  - (* a minus sign: the length is measured after the next token *)
    destruct r1 as [ | t2 r2]; [discriminate | ].
    injection Ef as <- <-.
    assert (Ht2 : recorded rest (yylloc t2) = false).
    { rewrite Htoks in Hsigns. apply signs_ok_app in Hsigns.
      cbn [signs_ok] in Hsigns. apply andb_true_iff in Hsigns.
      destruct Hsigns as (Hs & _). unfold sign_ok in Hs.
      rewrite Et1, Eminus in Hs. cbn [andb] in Hs.
      assert (Hr1 : recorded (rec :: rest) (location rec) = true)
        by (apply recorded_In; exists rec; split; [left | ]; reflexivity).
      rewrite Hr1 in Hs. cbn [andb negb] in Hs.
      apply negb_true_iff in Hs. cbn [recorded existsb] in Hs.
      apply orb_false_iff in Hs. apply Hs. }
    destruct (IH Hlocs' r2 (yyend t2) (location rec + measured query
                (location rec) (yyend t2)) (location rec)) as (Hs & Hl & Hsp);
      try assumption; try lia.
    + apply Hnext.
      * apply incl_tl, incl_refl.
      * apply Hin1. right. left. reflexivity.
      * intros t' [<- | Ht']; [right; exact Ht2 | left; exact Ht'].
    + apply (Hsigns' (before ++ [t1; t2])).
      rewrite Htoks, <- app_assoc. reflexivity.
    + split.
      * cbn [spans_ok location length].
        destruct (measured query (location rec) (yyend t2) <? 0) eqn:E; [blia | ].
        apply andb_true_iff. split; [apply Z.leb_le; lia | exact Hs].
      * split; [constructor; [right; cbn [length]; lia | exact Hl] | ].
        intros done r s Hd.
        destruct (Hstep r2 (location rec)
                    (location rec + measured query (location rec) (yyend t2))
                    (fun d => mkLocationLen (location rec)
                                (measured query (location rec) (yyend t2))
                              :: resolve query d r2 (location rec))
                    Hsp) with (done := done) (r := r) (s := s)
          as (d & -> & Hd'); [ | exact Hd | ].
        -- intros d. cbn [final_loc length location].
           destruct (measured query (location rec) (yyend t2) <? 0) eqn:E;
             [blia | reflexivity].
        -- cbn [resolve]. rewrite (proj2 (Z.leb_gt _ _) Edup).
           unfold found. rewrite Es, Eminus. exact Hd'.
  - injection Ef as <- <-.
    destruct (IH Hlocs' r1 (yyend t1) (location rec + measured query
                (location rec) (yyend t1)) (location rec)) as (Hs & Hl & Hsp);
      try assumption; try lia.
    + apply Hnext.
      * apply incl_refl.
      * apply Hin1. left. reflexivity.
      * intros t' Ht'. left. exact Ht'.
    + apply (Hsigns' (before ++ [t1])).
      rewrite Htoks, <- app_assoc. reflexivity.
    + split.
      * cbn [spans_ok location length].
        destruct (measured query (location rec) (yyend t1) <? 0) eqn:E; [blia | ].
        apply andb_true_iff. split; [apply Z.leb_le; lia | exact Hs].
      * split; [constructor; [right; cbn [length]; lia | exact Hl] | ].
        intros done r s Hd.
        destruct (Hstep r1 (location rec)
                    (location rec + measured query (location rec) (yyend t1))
                    (fun d => mkLocationLen (location rec)
                                (measured query (location rec) (yyend t1))
                              :: resolve query d r1 (location rec))
                    Hsp) with (done := done) (r := r) (s := s)
          as (d & -> & Hd'); [ | exact Hd | ].
        -- intros d. cbn [final_loc length location].
           destruct (measured query (location rec) (yyend t1) <? 0) eqn:E;
             [blia | reflexivity].
        -- cbn [resolve]. rewrite (proj2 (Z.leb_gt _ _) Edup).
           unfold found. rewrite Es, Eminus. exact Hd'.
Qed.

Lemma located_In (toks : list token) (locs : list pgnqLocationLen) :
  located toks locs = true ->
  forall r, In r locs ->
            starts_token toks (location r) = true
            \/ past_tokens toks (location r) = true.
Proof.
  unfold located. rewrite forallb_forall. intros H r Hr.
  apply orb_true_iff, H, Hr.
Qed.

(** The records the resolver leaves for a well-located query. *)
Lemma resolved_spans (jstate : pgnqConstLocations) (query : list byte) :
  scanner_isspace "u" = false -> scanner_isspace "U" = false ->
  no_NUL query -> Z.of_nat (List.length query) + 2 <= INT_MAX ->
  locator_state jstate -> well_located (records jstate) query ->
  spans_ok (resolved jstate query) 0 (Z.of_nat (List.length query)) = true
  /\ lengths_ok (resolved jstate query)
  /\ (forall done r s,
        stop_point query (qsort pgnq_comp_location (records jstate))
          (core_scanner query) (-1) = Some (done, r, s) ->
        final_loc (resolve query done (core_scanner query) (-1)) 0
        <= location r).
Proof.
  intros Hu HU Hq Hmax (Hwf & Hun & Hlocs) (Htoks & Hloc & Hsigns).
  pose proof (qsort_perm pgnq_comp_location (records jstate)) as Hperm.
  unfold resolved.
  apply (resolve_spans query _ Hu HU Hq Hmax) with (lo := 0);
    try (apply qsort_Forall; assumption); try assumption; try lia.
  - intros r Hr _.
    apply (Permutation_in _ (Permutation_sym Hperm)) in Hr.
    destruct (located_In _ _ Hloc r Hr) as [H | H]; [left; exact H | right].
    split; [exact H | ].
    unfold locations_ok in Hlocs. rewrite Forall_forall in Hlocs.
    apply Hlocs, Hr.
  - apply (signs_ok_incl query (records jstate)); [ | exact Hsigns].
    intros r Hr. apply (Permutation_in _ (Permutation_sym Hperm)), Hr.
Qed.

(** The builder on a well-located query: it returns the normalized text of
    the resolved records, within the size allowed for it, as long as the
    placeholder numbers fit in an [int]. *)
Lemma builder_ok (jstate : pgnqConstLocations) (query : list byte) :
  scanner_isspace "u" = false -> scanner_isspace "U" = false ->
  no_NUL query -> locator_state jstate -> well_located (records jstate) query ->
  0 <= highest_extern_param_id jstate ->
  clocations_count jstate + highest_extern_param_id jstate <= INT_MAX ->
  Z.of_nat (List.length query) + 10 * clocations_count jstate + 1
  <= MaxAllocSize ->
  let out := render query (highest_extern_param_id jstate)
               (resolved jstate query) in
  pgnq_build_normalized_query jstate query 0 (Z.of_nat (List.length query))
  = Ok (out, Z.of_nat (List.length out))
  /\ Z.of_nat (List.length out)
     <= Z.of_nat (List.length query) + 10 * clocations_count jstate.
Proof.
  intros Hu HU Hq Hst Hwl Hh Hnum Halloc.
  assert (Hmax : Z.of_nat (List.length query) + 2 <= INT_MAX).
  { destruct Hst as ((_ & ? & _) & _). unfold MaxAllocSize, INT_MAX in *. lia. }
  destruct (resolved_spans jstate query Hu HU Hq Hmax Hst Hwl) as (Hs & Hl & _).
  destruct Hst as (Hwf & Hun & Hlocs). destruct Hwl as (Htoks & _).
  destruct (fill_spec jstate query Hwf Hlocs (tokens_wf_codes _ _ _ Htoks))
    as (st' & Hfill & Hrec & Hcount & Hhigh & Hwf').
  rewrite <- Hrec, <- Hcount, <- Hhigh in *.
  apply (build_spec jstate st' query); assumption.
Qed.

(** ** pg_normalize_query *)

Lemma strlen_no_NUL (s : list byte) : no_NUL s -> strlen s = List.length s.
Proof.
  intros H. induction H as [ | b s Hb H IH]; [reflexivity | ].
  simpl. destruct (Byte.eqb b NUL) eqn:E.
  - apply byte_dec_bl in E. contradiction.
  - rewrite IH. reflexivity.
Qed.

Lemma strdup_no_NUL (s : list byte) : no_NUL s -> strdup s = s.
Proof.
  intros H. unfold strdup. rewrite strlen_no_NUL by exact H.
  apply firstn_all.
Qed.

Lemma digit_no_NUL (d : Z) : digit d <> NUL.
Proof.
  unfold digit. set (b := nth (Z.to_nat d) digits "0"%byte).
  destruct (nth_in_or_default (Z.to_nat d) digits "0"%byte) as [H | H];
    fold b in H; [ | rewrite H; discriminate].
  unfold digits in H. cbn [In] in H.
  repeat (destruct H as [H | H]; [rewrite <- H; discriminate | ]).
  contradiction.
Qed.

Lemma decimal_no_NUL (fuel : nat) (n : Z) : no_NUL (decimal fuel n).
Proof.
  revert n. induction fuel as [ | fuel IH]; intros n; [constructor | ].
  cbn [decimal]. apply Forall_app. split.
  - destruct (n <? 10); [constructor | apply IH].
  - constructor; [apply digit_no_NUL | constructor].
Qed.

Lemma placeholder_no_NUL (h i : Z) : no_NUL (placeholder h i).
Proof.
  unfold placeholder, format_d. constructor; [discriminate | ].
  destruct (to_int (i + 1 + h) <? 0).
  - constructor; [discriminate | apply decimal_no_NUL].
  - apply decimal_no_NUL.
Qed.

Lemma render_no_NUL (query : list byte) (h : Z) (locs : list pgnqLocationLen) :
  no_NUL query -> no_NUL (render query h locs).
Proof.
  intros Hq.
  assert (Hsub : forall a b, no_NUL (sub query a b))
    by (intros; apply no_NUL_firstn, no_NUL_skipn, Hq).
  unfold render. apply Forall_app. split; [ | apply Hsub].
  generalize 0 at 1. generalize 0.
  induction locs as [ | r rest IH]; intros from i; cbn [render_body];
    [constructor | ].
  destruct (length r <? 0); [apply IH | ].
  apply Forall_app. split; [apply Hsub | ].
  apply Forall_app. split; [apply placeholder_no_NUL | apply IH].
Qed.

Lemma stored_unresolved (locs : list Z) :
  all_unresolved (stored locs) /\ locations_ok (stored locs).
Proof.
  unfold stored, all_unresolved, locations_ok. split.
  - apply Forall_map. apply Forall_forall. reflexivity.
  - apply Forall_map. apply Forall_forall. intros loc Hloc.
    apply filter_In in Hloc. cbn. blia.
Qed.

(** [pg_normalize_query] on a well-located statement. *)
Lemma normalize_ok (sql : list byte) (tree : Node) :
  scanner_isspace "u" = false -> scanner_isspace "U" = false ->
  no_NUL sql -> raw_parser sql = Ok tree -> walkable tree = true ->
  (walk_depth tree <= max_stack_depth)%nat ->
  well_located (stored (const_locations tree)) sql ->
  let count := Z.of_nat (List.length (stored (const_locations tree))) in
  count <= max_records ->
  count + max_of 0 (param_numbers tree) <= INT_MAX ->
  Z.of_nat (List.length sql) + 10 * count + 1 <= MaxAllocSize ->
  pg_normalize_query sql = Ok (normalized sql tree)
  /\ Z.of_nat (List.length (normalized sql tree))
     <= Z.of_nat (List.length sql) + 10 * count.
Proof.
  intros Hu HU Hq Hparse Hok Hdepth Hwl count Hcount Hnum Halloc.
  unfold pg_normalize_query. rewrite Hparse, initial_state_eq. cbn [bind].
  destruct (walker_spec max_stack_depth tree initial_state Hok Hdepth
              initial_state_wf initial_state_buf_size_ok)
    as (st & Hwalk & Hrec & Hc & Hh & Hwf & _).
  { unfold walk_room. simpl. exact Hcount. }
  rewrite Hwalk. cbn [bind].
  change (records initial_state) with (@nil pgnqLocationLen) in Hrec.
  change (clocations_count initial_state) with 0 in Hc.
  change (highest_extern_param_id initial_state) with 0 in Hh.
  cbn [app] in Hrec. fold (const_locations tree) in Hrec, Hc.
  fold (param_numbers tree) in Hh. fold count in Hc.
  rewrite strlen_no_NUL by exact Hq.
  rewrite to_int_id
    by (unfold INT_MIN, INT_MAX, MaxAllocSize in *; lia).
  destruct (stored_unresolved (const_locations tree)) as (Hun & Hlocs).
  destruct (builder_ok st sql Hu HU Hq) as (Hbuild & Hlen).
  - split; [exact Hwf | split; rewrite Hrec; assumption].
  - rewrite Hrec. exact Hwl.
  - rewrite Hh. apply (proj1 (max_of_upper _ _)).
  - rewrite Hh, Hc. lia.
  - rewrite Hc. lia.
  - rewrite Hbuild. cbn [bind].
    unfold resolved in *. rewrite Hrec, Hh in *. fold (normalized sql tree) in *.
    rewrite strdup_no_NUL by (apply render_no_NUL, Hq).
    split; [reflexivity | ]. rewrite Hc in Hlen. lia.
Qed.

(** ** Duplicates *)

Lemma placeholders_at_unresolved (p : Z) (locs : list pgnqLocationLen) :
  all_unresolved locs -> placeholders_at p locs = O.
Proof.
  intros H. unfold placeholders_at.
  induction H as [ | r rest Hr H IH]; [reflexivity | ].
  cbn [filter]. rewrite Hr.
  change (-1 <? 0) with true. rewrite andb_false_r. exact IH.
Qed.

Lemma placeholders_at_cons (p : Z) (r : pgnqLocationLen)
  (locs : list pgnqLocationLen) :
  placeholders_at p (r :: locs)
  = ((if (location r =? p)%Z && negb (length r <? 0)%Z then 1 else 0)
     + placeholders_at p locs)%nat.
Proof.
  unfold placeholders_at. cbn [filter].
  destruct ((location r =? p) && negb (length r <? 0)); reflexivity.
Qed.

(** After the pass, at most one record of a location has a length that is
    not negative, and none at or before [last_loc]. *)
Lemma resolve_placeholders (query : list byte) (locs : list pgnqLocationLen) :
  all_unresolved locs ->
  forall (toks : list token) (last_loc p : Z),
    (placeholders_at p (resolve query locs toks last_loc) <= 1)%nat
    /\ (p <= last_loc ->
        placeholders_at p (resolve query locs toks last_loc) = O).
Proof.
  intros Hun. induction Hun as [ | rec rest Hrec Hun IH]; intros toks last p.
  { split; [cbn; lia | reflexivity]. }
  cbn [resolve]. destruct (location rec <=? last) eqn:Edup.
  - rewrite placeholders_at_cons, Hrec.
    change (-1 <? 0) with true. rewrite andb_false_r. apply IH.
  - apply Z.leb_gt in Edup.
    destruct (found query (location rec) toks) as [[t toks'] | ].
    + rewrite placeholders_at_cons. cbn [location length].
      destruct (IH toks' (location rec) p) as (IH1 & IH2).
      destruct (location rec =? p) eqn:Ep.
      * apply Z.eqb_eq in Ep. rewrite IH2 by lia.
        split; [destruct (negb _); simpl; lia | lia].
      * apply Z.eqb_neq in Ep. cbn [andb]. split; [exact IH1 | ].
        intros Hp. apply IH2. lia.
    + assert (H0 : placeholders_at p (rec :: rest) = O)
        by (apply placeholders_at_unresolved; constructor; assumption).
      rewrite H0. split; [lia | reflexivity].
Qed.

(** Of two records of one location, the later one keeps the length -1. *)
Lemma resolve_duplicates (query : list byte) (locs : list pgnqLocationLen) :
  all_unresolved locs ->
  forall (toks : list token) (last_loc : Z),
    (forall r, In r (resolve query locs toks last_loc) ->
               location r <= last_loc -> length r = -1)
    /\ (forall l1 a l2 b l3,
           resolve query locs toks last_loc = l1 ++ a :: l2 ++ b :: l3 ->
           location a = location b -> length b = -1).
Proof.
  intros Hun. induction Hun as [ | rec rest Hrec Hun IH]; intros toks last.
  { split; [intros r [] | intros [ | ? ?] ? ? ? ? H; discriminate]. }
  assert (Hall : forall r, In r (rec :: rest) -> length r = -1).
  { intros r Hr.
    assert (H : all_unresolved (rec :: rest)) by (constructor; assumption).
    unfold all_unresolved in H. rewrite Forall_forall in H. apply H, Hr. }
  assert (Hpair : forall x X last',
             (forall r, In r X -> location r <= last' -> length r = -1) ->
             (forall l1 a l2 b l3,
                 X = l1 ++ a :: l2 ++ b :: l3 ->
                 location a = location b -> length b = -1) ->
             location x <= last' ->
             forall l1 a l2 b l3,
               x :: X = l1 ++ a :: l2 ++ b :: l3 ->
               location a = location b -> length b = -1).
  { intros x X last' H1 H2 Hx l1 a l2 b l3 E Eab.
    destruct l1 as [ | y l1]; cbn [app] in E; injection E as <- E.
    - apply H1; [rewrite E; apply in_or_app; right; left; reflexivity | lia].
    - apply (H2 _ _ _ _ _ E Eab). }
  cbn [resolve]. destruct (location rec <=? last) eqn:Edup.
  - apply Z.leb_le in Edup. destruct (IH toks last) as (IH1 & IH2). split.
    + intros r [<- | Hr] Hle; [exact Hrec | apply IH1; assumption].
    + apply (Hpair rec _ last IH1 IH2 Edup).
  - apply Z.leb_gt in Edup.
    destruct (found query (location rec) toks) as [[t toks'] | ].
    + destruct (IH toks' (location rec)) as (IH1 & IH2). split.
      * intros r [<- | Hr] Hle; [cbn [location] in Hle; lia | ].
        apply IH1; [exact Hr | lia].
      * apply (Hpair _ _ (location rec) IH1 IH2). cbn [location]. lia.
    + split; [intros r Hr _; apply Hall, Hr | ].
      intros l1 a l2 b l3 E _. apply Hall. rewrite E.
      apply in_or_app. right. right. apply in_or_app. right. left. reflexivity.
Qed.

(** C3. On a state as the locator leaves it the resolver returns, and in
    the state it returns: of two records with the same location the later
    one has kept the length -1, so that only the first record of a location
    can be resolved; at most one record of a location has a length that is
    not negative, and exactly one when a record of that location was
    resolved.  A record whose location is at or before the last resolved
    location is passed over by the loop of the resolver with its length
    unchanged and with the scanner as it was, no token being taken; and the
    loop of the builder writes nothing for a record of negative length, so
    that exactly one placeholder is written at a resolved location, not
    two. *)
Theorem duplicate_collapse (jstate : pgnqConstLocations) (query : list byte) :
  locator_state jstate -> codes_ok (core_scanner query) ->
  exists jstate',
    pgnq_fill_in_constant_lengths jstate query = Ok jstate'
    /\ (forall l1 a l2 b l3,
           records jstate' = l1 ++ a :: l2 ++ b :: l3 ->
           location a = location b -> length b = -1)
    /\ (forall p, (placeholders_at p (records jstate') <= 1)%nat)
    /\ (forall p r,
           In r (records jstate') -> location r = p -> 0 <= length r ->
           placeholders_at p (records jstate') = 1%nat)
    /\ (forall rec rest yyscanner last_loc,
           0 <= location rec -> location rec <= last_loc ->
           fill_loop query (rec :: rest) yyscanner last_loc
           = ('(rest', yyscanner', last_loc', eof) <-
                fill_loop query rest yyscanner last_loc ;;
              Ok (rec :: rest', yyscanner', last_loc', eof)))
    /\ (forall h rec rest i v,
           length rec < 0 ->
           build_loop query 0 h (rec :: rest) i v
           = build_loop query 0 h rest (i +i 1) v).
Proof.
  intros (Hwf & Hun & Hlocs) Hcodes.
  destruct (fill_spec jstate query Hwf Hlocs Hcodes)
    as (st' & Hfill & Hrec & _).
  exists st'. split; [exact Hfill | ]. rewrite Hrec. unfold resolved.
  assert (Hun' : all_unresolved (qsort pgnq_comp_location (records jstate)))
    by (apply qsort_Forall, Hun).
  split; [apply (resolve_duplicates query _ Hun') | ].
  split; [intros p; apply (resolve_placeholders query _ Hun') | ].
  split.
  - intros p r Hr Hp Hlen.
    pose proof (proj1 (resolve_placeholders query _ Hun' (core_scanner query)
                         (-1) p)) as Hle.
    assert (Hge : (1 <= placeholders_at p
                          (resolve query
                             (qsort pgnq_comp_location (records jstate))
                             (core_scanner query) (-1)))%nat).
    { unfold placeholders_at.
      assert (Hin : In r (filter (fun r => (location r =? p)
                                           && negb (length r <? 0))
                            (resolve query
                               (qsort pgnq_comp_location (records jstate))
                               (core_scanner query) (-1)))).
      { apply filter_In. split; [exact Hr | ].
        apply andb_true_iff. split; [apply Z.eqb_eq, Hp | ].
        apply negb_true_iff, Z.ltb_ge, Hlen. }
      destruct (filter _ _); [contradiction | simpl; lia]. }
    lia.
  - split.
    + intros rec rest sc last H0 Hle. cbn [fill_loop].
      destruct (location rec >=? 0) eqn:E0; [ | blia].
      destruct (location rec <=? last) eqn:E; [reflexivity | blia].
    + intros h rec rest i v Hneg. cbn [build_loop].
      destruct (length rec <? 0) eqn:E; [reflexivity | blia].
Qed.

(** ** The end of the input *)

Lemma stop_point_spec (query : list byte) (locs : list pgnqLocationLen) :
  forall (toks : list token) (last_loc : Z) done r s,
    stop_point query locs toks last_loc = Some (done, r, s) ->
    locs = done ++ r :: s
    /\ resolve query locs toks last_loc
       = resolve query done toks last_loc ++ r :: s
    /\ exhausted query locs toks last_loc = true
    /\ exhausted query done toks last_loc = false.
Proof.
  induction locs as [ | rec rest IH]; intros toks last done r s Hsp;
    [discriminate | ].
  cbn [stop_point] in Hsp. cbn [resolve exhausted].
  assert (Hcons : forall toks' last',
             option_map (stop_cons rec) (stop_point query rest toks' last')
             = Some (done, r, s) ->
             exists d, done = rec :: d
                       /\ stop_point query rest toks' last' = Some (d, r, s)).
  { intros toks' last' H.
    destruct (stop_point query rest toks' last') as [[[d r'] s'] | ];
      [ | discriminate].
    injection H as <- <- <-. eauto. }
  destruct (location rec <=? last) eqn:Edup.
  - destruct (Hcons _ _ Hsp) as (d & -> & Hd).
    destruct (IH _ _ _ _ _ Hd) as (-> & Hres & Hex & Hex').
    cbn [resolve exhausted]. rewrite Edup, Hres. auto.
  - destruct (found query (location rec) toks) as [[t toks'] | ] eqn:Ef.
    + destruct (Hcons _ _ Hsp) as (d & -> & Hd).
      destruct (IH _ _ _ _ _ Hd) as (-> & Hres & Hex & Hex').
      cbn [resolve exhausted]. rewrite Edup, Ef, Hres. auto.
    + injection Hsp as <- <- <-. auto.
Qed.

Lemma render_body_unresolved (query : list byte) (h : Z)
  (locs rest : list pgnqLocationLen) :
  all_unresolved rest ->
  forall (i from : Z),
    render_body query h (locs ++ rest) i from = render_body query h locs i from
    /\ final_loc (locs ++ rest) from = final_loc locs from.
Proof.
  intros Hun.
  assert (Hrest : forall i from,
             render_body query h rest i from = []
             /\ final_loc rest from = from).
  { induction Hun as [ | r rest Hr Hun IH]; intros i from; [auto | ].
    cbn [render_body final_loc]. rewrite Hr. apply IH. }
  induction locs as [ | r locs IH]; intros i from; cbn [app].
  - apply Hrest.
  - cbn [render_body final_loc]. destruct (length r <? 0); [apply IH | ].
    destruct (IH (i + 1) (location r + length r)) as (-> & ->). auto.
Qed.

Lemma render_unresolved (query : list byte) (h : Z)
  (locs rest : list pgnqLocationLen) :
  all_unresolved rest -> render query h (locs ++ rest) = render query h locs.
Proof.
  intros Hun. unfold render.
  destruct (render_body_unresolved query h locs rest Hun 0 0) as (-> & ->).
  reflexivity.
Qed.

Lemma spans_ok_app_unresolved (locs rest : list pgnqLocationLen)
  (from qlen : Z) :
  all_unresolved rest ->
  spans_ok (locs ++ rest) from qlen = spans_ok locs from qlen.
Proof.
  intros Hun.
  assert (Hrest : forall from, spans_ok rest from qlen = (from <=? qlen)).
  { induction Hun as [ | u rest Hu Hun IH]; intros from'; cbn [spans_ok];
      [reflexivity | ].
    rewrite Hu. apply IH. }
  revert from. induction locs as [ | x locs IH]; intros from;
    cbn [app spans_ok]; [apply Hrest | ].
  destruct (length x <? 0); [apply IH | ]. rewrite IH. reflexivity.
Qed.

Lemma sub_tail (s : list byte) (from loc : Z) :
  0 <= from <= loc -> from <= Z.of_nat (List.length s) ->
  sub s from (Z.of_nat (List.length s))
  = sub s from loc ++ skipn (Z.to_nat loc) s.
Proof.
  intros H1 H2. unfold sub.
  rewrite (firstn_all2 (n := Z.to_nat (Z.of_nat (List.length s) - from)))
    by (rewrite length_skipn; lia).
  rewrite <- (firstn_skipn (Z.to_nat (loc - from)) (skipn (Z.to_nat from) s))
    at 1.
  rewrite skipn_skipn. do 2 f_equal. lia.
Qed.

(** C5. Let the pass of the resolver stop at the record [r] because the
    scanner reaches the end of the input before the constant of [r] is
    found, [done] being the records gone through before and [s] those after
    [r].  Then the resolver returns normally; the records it leaves are
    those of [done], resolved, followed by [r] and [s] as they were, all of
    length -1.  For a well-located query the builder returns too, without
    error: its text is the normalized text of the records resolved before
    the stop, numbered as they are, and it ends with the text of the query
    from the location of [r] on, unchanged. *)
Theorem soft_failure (jstate : pgnqConstLocations) (query : list byte)
  (done : list pgnqLocationLen) (r : pgnqLocationLen)
  (s : list pgnqLocationLen) :
  locator_state jstate -> codes_ok (core_scanner query) ->
  stop_point query (qsort pgnq_comp_location (records jstate))
    (core_scanner query) (-1) = Some (done, r, s) ->
  qsort pgnq_comp_location (records jstate) = done ++ r :: s
  /\ exhausted query (qsort pgnq_comp_location (records jstate))
       (core_scanner query) (-1) = true
  /\ (exists jstate',
         pgnq_fill_in_constant_lengths jstate query = Ok jstate'
         /\ records jstate'
            = resolve query done (core_scanner query) (-1) ++ r :: s
         /\ Forall (fun u => length u = -1) (r :: s))
  /\ (scanner_isspace "u" = false -> scanner_isspace "U" = false ->
      no_NUL query -> well_located (records jstate) query ->
      0 <= highest_extern_param_id jstate ->
      clocations_count jstate + highest_extern_param_id jstate <= INT_MAX ->
      Z.of_nat (List.length query) + 10 * clocations_count jstate + 1
      <= MaxAllocSize ->
      exists out head,
        pgnq_build_normalized_query jstate query 0
          (Z.of_nat (List.length query))
        = Ok (out, Z.of_nat (List.length out))
        /\ out = render query (highest_extern_param_id jstate)
                   (resolve query done (core_scanner query) (-1))
        /\ out = head ++ skipn (Z.to_nat (location r)) query).
Proof.
  intros Hst Hcodes Hsp.
  destruct (stop_point_spec _ _ _ _ _ _ _ Hsp) as (Hsplit & Hres & Hex & _).
  pose proof Hst as (Hwf & Hun & Hlocs).
  assert (Hun' : all_unresolved (r :: s)).
  { assert (H : all_unresolved (qsort pgnq_comp_location (records jstate)))
      by (apply qsort_Forall, Hun).
    rewrite Hsplit in H. apply Forall_app in H. apply H. }
  split; [exact Hsplit | ]. split; [exact Hex | ]. split.
  - destruct (fill_spec jstate query Hwf Hlocs Hcodes)
      as (st' & Hfill & Hrec & _).
    exists st'. split; [exact Hfill | ].
    split; [rewrite Hrec; exact Hres | exact Hun'].
  - intros Hu HU Hq Hwl Hh Hnum Halloc.
    destruct (builder_ok jstate query Hu HU Hq Hst Hwl Hh Hnum Halloc)
      as (Hbuild & _).
    assert (Hmax : Z.of_nat (List.length query) + 2 <= INT_MAX).
    { destruct Hwf as (_ & ? & _). unfold MaxAllocSize, INT_MAX in *. lia. }
    destruct (resolved_spans jstate query Hu HU Hq Hmax Hst Hwl)
      as (Hspans & Hl & Hstop).
    specialize (Hstop _ _ _ Hsp).
    unfold resolved in *. rewrite Hres in *.
    rewrite (render_unresolved _ _ _ _ Hun') in Hbuild.
    set (X := resolve query done (core_scanner query) (-1)) in *.
    exists (render query (highest_extern_param_id jstate) X).
    exists (render_body query (highest_extern_param_id jstate) X 0 0
              ++ sub query (final_loc X 0) (location r)).
    split; [exact Hbuild | ]. split; [reflexivity | ].
    unfold render. rewrite <- app_assoc. f_equal.
    destruct (render_body_unresolved query 0 X (r :: s) Hun' 0 0)
      as (_ & Hfin).
    apply Forall_app in Hl. destruct Hl as (Hl & _).
    assert (Hsp' : spans_ok X 0 (Z.of_nat (List.length query)) = true)
      by (rewrite <- (spans_ok_app_unresolved X (r :: s)); assumption).
    pose proof (spans_ok_le _ _ _ Hl Hsp') as Hfl.
    apply sub_tail; lia.
Qed.

(** ** A minus sign at the location of a constant *)

Lemma skip_before_at (lo qlen : Z) (before after : list token) (t : token) :
  tokens_wf lo qlen (before ++ t :: after) = true ->
  skip_before (yylloc t) (before ++ t :: after) = t :: after.
Proof.
  revert lo. induction before as [ | t0 before IH]; intros lo Hwf;
    cbn [app skip_before].
  - destruct (yylloc t >=? yylloc t) eqn:E; [reflexivity | blia].
  - apply tokens_wf_cons in Hwf. destruct Hwf as (_ & ? & ? & _ & Hwf).
    assert (Hin : In t (before ++ t :: after))
      by (apply in_or_app; right; left; reflexivity).
    pose proof (tokens_wf_In _ _ _ _ Hwf Hin).
    destruct (yylloc t0 >=? yylloc t) eqn:E; [blia | ].
    apply (IH _ Hwf).
Qed.

Lemma skipn_nth_cons {A : Type} (d : A) (s : list A) (n : nat) :
  (n < List.length s)%nat -> skipn n s = nth n s d :: skipn (S n) s.
Proof.
  revert n. induction s as [ | b s IH]; intros n Hn; simpl in Hn; [lia | ].
  destruct n as [ | n]; [reflexivity | ].
  rewrite !skipn_cons. cbn [nth]. apply IH. lia.
Qed.

Lemma sub_cons (s : list byte) (from to : Z) :
  0 <= from < to -> from < Z.of_nat (List.length s) ->
  sub s from to = byte_at s from :: sub s (from + 1) to.
Proof.
  intros H1 H2. unfold sub. rewrite byte_at_nth by lia.
  replace (Z.to_nat (to - from)) with (S (Z.to_nat (to - (from + 1)))) by lia.
  replace (Z.to_nat (from + 1)) with (S (Z.to_nat from)) by lia.
  rewrite (skipn_nth_cons NUL s (Z.to_nat from)) by lia.
  rewrite firstn_cons. reflexivity.
Qed.

(** A text that begins with a minus sign is counted whole. *)
Lemma measured_minus (query : list byte) (loc e : Z) :
  no_NUL query -> 0 <= loc < e -> e <= Z.of_nat (List.length query) ->
  Z.of_nat (List.length query) + 2 <= INT_MAX ->
  byte_at query loc = "-"%byte ->
  measured query loc e = e - loc.
Proof.
  intros Hq Hloc He Hmax Hminus.
  rewrite measured_spec by (assumption || lia).
  rewrite <- (sub_length query loc e) by lia.
  rewrite sub_cons by lia. rewrite Hminus. unfold constant_text.
  destruct (sub query (loc + 1) e) as [ | b1 [ | b2 [ | b3 [ | b4 l]]]];
    reflexivity.
Qed.

Lemma sub_app_middle (pre mid rest : list byte) :
  sub (pre ++ mid ++ rest) (Z.of_nat (List.length pre))
    (Z.of_nat (List.length pre) + Z.of_nat (List.length mid)) = mid.
Proof.
  unfold sub. rewrite Nat2Z.id.
  replace (Z.to_nat (Z.of_nat (List.length pre) + Z.of_nat (List.length mid)
                     - Z.of_nat (List.length pre)))
    with (List.length mid) by lia.
  rewrite skipn_app, skipn_all, Nat.sub_diag, skipn_O. cbn [app].
  rewrite firstn_app, Nat.sub_diag, firstn_O, app_nil_r.
  apply firstn_all.
Qed.

Lemma byte_at_app (pre rest : list byte) :
  byte_at (pre ++ rest) (Z.of_nat (List.length pre)) = byte_at rest 0.
Proof.
  rewrite !byte_at_nth by lia. rewrite Nat2Z.id.
  rewrite app_nth2, Nat.sub_diag by lia. reflexivity.
Qed.

(** ** The order of the records after qsort *)

Lemma qsort_insert_sorted (x : pgnqLocationLen) (l : list pgnqLocationLen) :
  StronglySorted by_location l ->
  StronglySorted by_location (qsort_insert pgnq_comp_location x l).
Proof.
  intros Hs. induction Hs as [ | y l Hs IH Hy]; cbn [qsort_insert].
  - constructor; constructor.
  - unfold pgnq_comp_location at 1.
    destruct (location x <? location y) eqn:E1.
    + cbn. constructor; [constructor; assumption | ].
      constructor; [unfold by_location; blia | ].
      eapply Forall_impl; [ | exact Hy].
      intros z Hz. unfold by_location in *. blia.
    + destruct (location x >? location y) eqn:E2; cbn.
      * constructor; [exact IH | ].
        apply (Permutation_Forall (qsort_insert_perm pgnq_comp_location x l)).
        constructor; [unfold by_location; blia | exact Hy].
      * constructor; [constructor; assumption | ].
        constructor; [unfold by_location; blia | ].
        eapply Forall_impl; [ | exact Hy].
        intros z Hz. unfold by_location in *. blia.
Qed.

Lemma qsort_sorted (l : list pgnqLocationLen) :
  StronglySorted by_location (qsort pgnq_comp_location l).
Proof.
  induction l as [ | x l IH]; [constructor | ].
  apply qsort_insert_sorted, IH.
Qed.

Lemma sorted_perm_eq (l1 l2 : list pgnqLocationLen) :
  all_unresolved l1 ->
  StronglySorted by_location l1 -> StronglySorted by_location l2 ->
  Permutation l1 l2 -> l1 = l2.
Proof.
  intros Hun Hs1. revert l2 Hun.
  induction Hs1 as [ | a l1 Hs1 IH Ha]; intros l2 Hun Hs2 Hp.
  - apply Permutation_nil in Hp. congruence.
  - destruct Hs2 as [ | b l2 Hs2 Hb].
    + apply Permutation_sym, Permutation_nil in Hp. discriminate.
    + assert (Hun2 : all_unresolved (b :: l2))
        by (apply (Permutation_Forall Hp), Hun).
      inversion Hun as [ | ? ? Hla Hun1]; subst.
      inversion Hun2 as [ | ? ? Hlb _]; subst.
      assert (Hab : location a = location b).
      { assert (H1 : In a (b :: l2))
          by (apply (Permutation_in _ Hp); left; reflexivity).
        assert (H2 : In b (a :: l1))
          by (apply (Permutation_in _ (Permutation_sym Hp)); left; reflexivity).
        rewrite Forall_forall in Ha, Hb. unfold by_location in *.
        destruct H1 as [<- | H1]; [reflexivity | ].
        destruct H2 as [<- | H2]; [reflexivity | ].
        specialize (Ha _ H2). specialize (Hb _ H1). lia. }
      assert (Eab : a = b)
        by (destruct a, b; cbn in *; congruence).
      subst b. f_equal.
      apply IH; [exact Hun1 | exact Hs2 | ].
      apply (Permutation_cons_inv Hp).
Qed.

(** Whatever order qsort leaves records of one location in, the outcome is
    that of the model: records of length -1 in the order of their locations
    are one list only. *)
Lemma qsort_unique (l sorted : list pgnqLocationLen) :
  all_unresolved l -> Permutation l sorted ->
  StronglySorted by_location sorted ->
  sorted = qsort pgnq_comp_location l.
Proof.
  intros Hun Hp Hs. symmetry.
  apply sorted_perm_eq;
    [apply qsort_Forall, Hun | apply qsort_sorted | exact Hs | ].
  apply perm_trans with l; [apply Permutation_sym, qsort_perm | exact Hp].
Qed.

(** ** The numbering of the placeholders *)

(** C1, as the code has it.  For a well-located statement whose tree the
    walk gets through, [pg_normalize_query] returns the text in which every
    record with a length that is not negative has its constant replaced by
    [$] followed by the decimal value of (index of the record in the sorted
    array + 1 + highest_extern_param_id), the index counting all records,
    also those passed over; highest_extern_param_id is the largest parameter
    number of the tree.  The numbers begin after the largest parameter
    number and grow with the offsets; they are contiguous when no record is
    passed over before a record that is written. *)
Theorem placeholder_numbering (sql : list byte) (tree : Node) :
  scanner_isspace "u" = false -> scanner_isspace "U" = false ->
  no_NUL sql -> raw_parser sql = Ok tree -> walkable tree = true ->
  (walk_depth tree <= max_stack_depth)%nat ->
  well_located (stored (const_locations tree)) sql ->
  let count := Z.of_nat (List.length (stored (const_locations tree))) in
  let h := max_of 0 (param_numbers tree) in
  let locs := resolve sql
                (qsort pgnq_comp_location (stored (const_locations tree)))
                (core_scanner sql) (-1) in
  count <= max_records -> count + h <= INT_MAX ->
  Z.of_nat (List.length sql) + 10 * count + 1 <= MaxAllocSize ->
  pg_normalize_query sql
  = Ok (render_body sql h locs 0 0
          ++ sub sql (final_loc locs 0) (Z.of_nat (List.length sql)))
  /\ (forall r rest i from,
         0 <= length r ->
         render_body sql h (r :: rest) i from
         = sub sql from (location r)
             ++ "$"%byte :: format_d (to_int (i + 1 + h))
             ++ render_body sql h rest (i + 1) (location r + length r))
  /\ (forall r rest i from,
         length r < 0 ->
         render_body sql h (r :: rest) i from
         = render_body sql h rest (i + 1) from).
Proof.
  intros Hu HU Hq Hparse Hok Hdepth Hwl count h locs Hcount Hnum Halloc.
  destruct (normalize_ok sql tree Hu HU Hq Hparse Hok Hdepth Hwl Hcount Hnum
              Halloc) as (Hn & _).
  split; [exact Hn | ]. split.
  - intros r rest i from Hlen. cbn [render_body].
    destruct (length r <? 0) eqn:E; [blia | reflexivity].
  - intros r rest i from Hlen. cbn [render_body].
    destruct (length r <? 0) eqn:E; [reflexivity | blia].
Qed.

(** ** Deciding the conditions *)

Lemma no_NUL_b_true (s : list byte) : no_NUL_b s = true -> no_NUL s.
Proof.
  unfold no_NUL_b, no_NUL. rewrite forallb_forall, Forall_forall.
  intros H b Hb E. specialize (H b Hb). subst b. discriminate.
Qed.

Lemma locator_state_b_true (jstate : pgnqConstLocations) :
  locator_state_b jstate = true -> locator_state jstate.
Proof.
  unfold locator_state_b. rewrite !andb_true_iff.
  intros (((((H1 & H2) & H3) & H4) & H5) & H6).
  rewrite forallb_forall in H6.
  split; [unfold jstate_wf; blia | ].
  split; apply Forall_forall; intros r Hr; specialize (H6 r Hr); blia.
Qed.

(** * Further properties of the module *)

(** ** The comparator *)

(** X1. [pgnq_comp_location] is a comparator as qsort needs one: its
    result is -1, 0 or 1 as the location of the first record is below, equal
    to or above that of the second, whatever the lengths; exchanging the
    arguments negates the result; and the order is transitive, records that
    compare equal comparing alike with every third. *)
Theorem comp_location_order (a b c : pgnqLocationLen) :
  (pgnq_comp_location a b = -1 <-> location a < location b)
  /\ (pgnq_comp_location a b = 0 <-> location a = location b)
  /\ (pgnq_comp_location a b = 1 <-> location b < location a)
  /\ pgnq_comp_location b a = - pgnq_comp_location a b
  /\ (pgnq_comp_location a b <= 0 -> pgnq_comp_location b c <= 0 ->
      pgnq_comp_location a c <= 0)
  /\ (pgnq_comp_location a b = 0 ->
      pgnq_comp_location a c = pgnq_comp_location b c).
Proof.
  unfold pgnq_comp_location. cbv zeta. rewrite !Z.gtb_ltb.
  destruct (Z.ltb_spec (location a) (location b)),
    (Z.ltb_spec (location b) (location a)),
    (Z.ltb_spec (location b) (location c)),
    (Z.ltb_spec (location c) (location b)),
    (Z.ltb_spec (location a) (location c)),
    (Z.ltb_spec (location c) (location a));
    try lia; repeat split; intros; lia.
Qed.

(** ** The resolver sorts *)

Lemma resolve_locations (query : list byte) (locs : list pgnqLocationLen) :
  forall (toks : list token) (last_loc : Z),
    map location (resolve query locs toks last_loc) = map location locs.
Proof.
  induction locs as [ | rec rest IH]; intros toks last; [reflexivity | ].
  cbn [resolve]. destruct (location rec <=? last).
  - cbn [map]. rewrite IH. reflexivity.
  - destruct (found query (location rec) toks) as [[t toks'] | ];
      [ | reflexivity].
    cbn [map location]. rewrite IH. reflexivity.
Qed.

Lemma sorted_locations (l : list pgnqLocationLen) :
  StronglySorted by_location l -> StronglySorted Z.le (map location l).
Proof.
  intros Hs. induction Hs as [ | a l Hs IH Ha]; cbn [map]; constructor;
    [exact IH | ].
  apply Forall_map. exact Ha.
Qed.

Lemma set_records_twice (jstate : pgnqConstLocations)
  (l1 l2 : list pgnqLocationLen) :
  List.length l1 = Z.to_nat (clocations_count jstate) ->
  set_records (set_records jstate l1) l2 = set_records jstate l2.
Proof.
  intros H. unfold set_records.
  cbn [clocations clocations_count clocations_buf_size
       highest_extern_param_id].
  rewrite <- H, skipn_app, skipn_all, Nat.sub_diag. reflexivity.
Qed.

(** The state the resolver returns: that of the caller with the records
    sorted and resolved in the place of its records. *)
Lemma fill_exact (jstate : pgnqConstLocations) (query : list byte) :
  jstate_wf jstate -> locations_ok (records jstate) ->
  codes_ok (core_scanner query) ->
  pgnq_fill_in_constant_lengths jstate query
  = Ok (set_records jstate (resolved jstate query)).
Proof.
  intros Hwf Hlocs Hcodes. unfold pgnq_fill_in_constant_lengths.
  pose proof (records_length jstate Hwf) as Hlen.
  destruct (clocations_count jstate >? 1) eqn:E.
  - destruct (fill_loop_resolve query
                (records (set_records jstate
                            (qsort pgnq_comp_location (records jstate)))))
      with (yyscanner := scanner_init query (core_scanner query))
           (last_loc := -1) as (sc' & last' & Hfill & _).
    + rewrite records_set_records by (rewrite qsort_length; exact Hlen).
      apply qsort_Forall, Hlocs.
    + reflexivity.
    + exact Hcodes.
    + rewrite Hfill. cbn [bind pending scanner_init].
      rewrite records_set_records by (rewrite qsort_length; exact Hlen).
      rewrite set_records_twice by (rewrite qsort_length; exact Hlen).
      reflexivity.
  - destruct (fill_loop_resolve query (records jstate) Hlocs)
      with (yyscanner := scanner_init query (core_scanner query))
           (last_loc := -1) as (sc' & last' & Hfill & _);
      [reflexivity | exact Hcodes | ].
    rewrite Hfill. cbn [bind pending scanner_init]. unfold resolved.
    rewrite qsort_small by blia. reflexivity.
Qed.

(** X2. The resolver leaves the records in the order of their locations
    (the order the builder relies on): the locations of the records it
    returns are those it was given, sorted in ascending order.  It changes
    nothing else of the state than the lengths and the order of the records:
    the count, the capacity, the highest parameter number and the cells of
    the array after the records are as they were. *)
Theorem resolver_sorts (jstate : pgnqConstLocations) (query : list byte) :
  jstate_wf jstate -> locations_ok (records jstate) ->
  codes_ok (core_scanner query) ->
  exists jstate',
    pgnq_fill_in_constant_lengths jstate query = Ok jstate'
    /\ StronglySorted Z.le (map location (records jstate'))
    /\ Permutation (map location (records jstate))
         (map location (records jstate'))
    /\ clocations_count jstate' = clocations_count jstate
    /\ clocations_buf_size jstate' = clocations_buf_size jstate
    /\ highest_extern_param_id jstate' = highest_extern_param_id jstate
    /\ skipn (Z.to_nat (clocations_count jstate)) (clocations jstate')
       = skipn (Z.to_nat (clocations_count jstate)) (clocations jstate).
Proof.
  intros Hwf Hlocs Hcodes.
  exists (set_records jstate (resolved jstate query)).
  split; [apply fill_exact; assumption | ].
  assert (Hl : List.length (resolved jstate query)
               = Z.to_nat (clocations_count jstate)).
  { unfold resolved. rewrite resolve_length, qsort_length.
    apply records_length, Hwf. }
  rewrite records_set_records by exact Hl.
  unfold resolved at 1 2. rewrite resolve_locations.
  split; [apply sorted_locations, qsort_sorted | ].
  split; [apply Permutation_map, qsort_perm | ].
  split; [reflexivity | ]. split; [reflexivity | ]. split; [reflexivity | ].
  unfold set_records. cbn [clocations].
  rewrite <- Hl at 1. rewrite skipn_app, skipn_all, Nat.sub_diag.
  reflexivity.
Qed.

(** ** A statement without constants *)

Lemma build_loop_unresolved (query : list byte) (query_loc h : Z)
  (locs : list pgnqLocationLen) :
  all_unresolved locs ->
  forall (i : Z) (v : build_vars),
    build_loop query query_loc h locs i v = Ok v.
Proof.
  intros Hun. induction Hun as [ | r rest Hr Hun IH]; intros i v;
    [reflexivity | ].
  cbn [build_loop]. rewrite Hr. apply IH.
Qed.

(** The builder when the resolver has resolved nothing: the text is copied
    as it is. *)
Lemma builder_nothing_resolved (jstate jstate' : pgnqConstLocations)
  (query : list byte) :
  pgnq_fill_in_constant_lengths jstate query = Ok jstate' ->
  all_unresolved (records jstate') ->
  0 <= clocations_count jstate' ->
  Z.of_nat (List.length query) + 10 * clocations_count jstate' + 1
  <= MaxAllocSize ->
  pgnq_build_normalized_query jstate query 0 (Z.of_nat (List.length query))
  = Ok (query, Z.of_nat (List.length query)).
Proof.
  intros Hfill Hun Hc Halloc.
  set (qlen := Z.of_nat (List.length query)) in *.
  set (count := clocations_count jstate') in *.
  unfold pgnq_build_normalized_query. rewrite Hfill. cbn [bind].
  fold count. unfold MaxAllocSize in *.
  rewrite (int_mul_id count 10) by (unfold INT_MIN, INT_MAX; lia).
  rewrite (int_add_id qlen) by (unfold INT_MIN, INT_MAX; lia).
  rewrite (int_add_id (qlen + count * 10) 1) by (unfold INT_MIN, INT_MAX; lia).
  rewrite palloc_bytes by (unfold MaxAllocSize; lia). cbn [bind].
  rewrite build_loop_unresolved by exact Hun. cbn [bind].
  cbn [norm_query quer_loc n_quer_loc].
  rewrite (int_sub_id qlen) by (unfold INT_MIN, INT_MAX; lia).
  rewrite Z.sub_0_r.
  destruct (qlen >=? 0) eqn:E; [clear E | blia].
  cbn [Assert bind].
  destruct (memcpy_Ok (repeat NUL (Z.to_nat (qlen + count * 10 + 1))) query
              0 0 qlen)
    as (dst & Hcpy & Hlen1 & Hpre1); try lia.
  { rewrite repeat_length. lia. }
  rewrite Hcpy. cbn [bind].
  rewrite (int_add_id 0) by (unfold INT_MIN, INT_MAX; lia).
  rewrite repeat_length in Hlen1.
  cbn [Z.add] in *.
  destruct (qlen <=? qlen + count * 10) eqn:E; [clear E | blia].
  cbn [Assert bind].
  rewrite array_set_Ok by lia. cbn [bind].
  rewrite firstn_O, app_nil_l in Hpre1.
  assert (Hq : sub query 0 qlen = query).
  { unfold sub. rewrite Z.sub_0_r. cbn [Z.to_nat skipn].
    unfold qlen. rewrite Nat2Z.id. apply firstn_all. }
  rewrite Hq in Hpre1.
  f_equal. f_equal.
  rewrite firstn_app, length_firstn.
  replace (Z.to_nat qlen - Nat.min (Z.to_nat qlen) (List.length dst))%nat
    with O by lia.
  rewrite firstn_O, app_nil_r, firstn_firstn, Nat.min_id. exact Hpre1.
Qed.

(** X3. A statement whose tree the walk gets through (a tree of nodes
    raw_expression_tree_walker knows: no utility statement, no wrapper with
    a NULL field) and which holds no constant with a location (none at all,
    or only constants of location -1; parameters do not count) is returned
    as it is, whatever the scanner makes of it.  The empty statement, whose
    tree is NULL, is one of them. *)
Theorem no_constant_unchanged (sql : list byte) (tree : Node) :
  no_NUL sql -> raw_parser sql = Ok tree -> walkable tree = true ->
  (walk_depth tree <= max_stack_depth)%nat ->
  stored (const_locations tree) = [] ->
  Z.of_nat (List.length sql) + 1 <= MaxAllocSize ->
  pg_normalize_query sql = Ok sql.
Proof.
  intros Hq Hparse Hok Hdepth Hnone Halloc.
  unfold pg_normalize_query. rewrite Hparse, initial_state_eq. cbn [bind].
  destruct (walker_spec max_stack_depth tree initial_state Hok Hdepth
              initial_state_wf initial_state_buf_size_ok)
    as (st & Hwalk & Hrec & Hc & _ & Hwf & _).
  { unfold walk_room. fold (const_locations tree). rewrite Hnone.
    unfold max_records. simpl. lia. }
  rewrite Hwalk. cbn [bind].
  fold (const_locations tree) in Hrec, Hc. rewrite Hnone in Hrec, Hc.
  change (records initial_state) with (@nil pgnqLocationLen) in Hrec.
  change (clocations_count initial_state) with 0 in Hc.
  cbn [app List.length Z.of_nat Z.add] in Hrec, Hc.
  rewrite strlen_no_NUL by exact Hq.
  rewrite to_int_id by (unfold INT_MIN, INT_MAX, MaxAllocSize in *; lia).
  assert (Hfill : pgnq_fill_in_constant_lengths st sql
                  = Ok (set_records st [])).
  { unfold pgnq_fill_in_constant_lengths. rewrite Hc.
    change (0 >? 1) with false. cbv iota. rewrite Hrec. reflexivity. }
  rewrite (builder_nothing_resolved st (set_records st []) sql Hfill).
  - cbn [bind]. rewrite strdup_no_NUL by exact Hq. reflexivity.
  - rewrite records_set_records by (rewrite Hc; reflexivity). constructor.
  - cbn [set_records clocations_count]. lia.
  - cbn [set_records clocations_count]. lia.
Qed.

(** ** The capacity of the array *)

(** An insertion into a consistent state whose capacity the doubling has
    reached from 32: it returns, and has appended the record of the
    location if this is not negative; or the array is full with 2^26
    records, and the allocator refuses the 2^30 bytes of the doubled
    array. *)
Lemma record_outcome (jstate : pgnqConstLocations) (loc : Z) :
  jstate_wf jstate -> buf_size_ok jstate ->
  clocations_count jstate <= max_records
  /\ match pgnq_record_const_location jstate loc with
     | Ok jstate' =>
         records jstate' = records jstate ++ stored [loc]
         /\ clocations_count jstate'
            = clocations_count jstate + Z.of_nat (List.length (stored [loc]))
         /\ highest_extern_param_id jstate' = highest_extern_param_id jstate
         /\ jstate_wf jstate' /\ buf_size_ok jstate'
     | Err e =>
         e = InvalidAllocSize 1073741824 /\ 0 <= loc
         /\ clocations_count jstate = max_records
     end.
Proof.
  intros Hwf Hb.
  assert (Hmax : clocations_count jstate <= clocations_buf_size jstate
                 /\ clocations_buf_size jstate <= max_records).
  { destruct Hb as (k & Hk & Hb). destruct Hwf as (_ & ? & _).
    pose proof (buf_size_ok_bound _ _ Hk Hb). lia. }
  split; [lia | ].
  destruct (Z.lt_ge_cases loc 0) as [Hneg | Hloc].
  { rewrite record_negative by exact Hneg. rewrite stored_cons.
    destruct (0 <=? loc) eqn:E; [blia | ]. cbn [stored filter map List.length].
    rewrite app_nil_r. repeat split; try apply Hwf; try assumption.
    simpl. lia. }
  destruct (Z.lt_ge_cases (clocations_count jstate) max_records)
    as [Hroom | Hfull].
  - destruct (record_Ok jstate loc Hwf Hb Hroom) as (st & Hst & Hb').
    rewrite Hst.
    destruct (record_step _ _ _ Hwf Hloc Hst) as (Hr & Hc & _ & Hh & Hwf').
    rewrite stored_cons. destruct (0 <=? loc) eqn:E; [ | blia].
    repeat split; try apply Hwf'; try assumption.
  - assert (Hc : clocations_count jstate = 67108864)
      by (unfold max_records in *; lia).
    assert (Hs : clocations_buf_size jstate = 67108864)
      by (unfold max_records in *; lia).
    unfold pgnq_record_const_location.
    destruct (loc >=? 0) eqn:E; [clear E | blia].
    rewrite Hc, Hs. change (67108864 >=? 67108864) with true. cbv iota.
    unfold repalloc, sizeof_pgnqLocationLen. cbv zeta.
    change (AllocSizeIsValid (to_size_t (to_size_t (67108864 *i 2) * 8)))
      with false.
    cbv iota. cbn [bind].
    change (to_size_t (to_size_t (67108864 *i 2) * 8)) with 1073741824.
    repeat split; assumption.
Qed.

(** X4. The array holds 2^26 = 67108864 records and no more.  A sequence of
    insertions into the workspace [pg_normalize_query] sets up returns
    exactly when the locations that are not negative are at most 2^26; the
    capacity is then 32 doubled at most 21 times, so that the doubling of an
    [int] never overflows.  With more, the insertion after the 2^26th
    doubles the capacity to 2^27 and the allocator refuses the request of
    1073741824 bytes. *)
Theorem record_capacity (locs : list Z) :
  match record_all initial_state locs with
  | Ok jstate =>
      Z.of_nat (List.length (stored locs)) <= max_records
      /\ records jstate = stored locs
      /\ clocations_count jstate <= clocations_buf_size jstate
      /\ buf_size_ok jstate
  | Err e =>
      max_records < Z.of_nat (List.length (stored locs))
      /\ e = InvalidAllocSize 1073741824
  end.
Proof.
  assert (H : forall jstate,
             jstate_wf jstate -> buf_size_ok jstate ->
             match record_all jstate locs with
             | Ok jstate' =>
                 clocations_count jstate
                 + Z.of_nat (List.length (stored locs)) <= max_records
                 /\ records jstate' = records jstate ++ stored locs
                 /\ jstate_wf jstate' /\ buf_size_ok jstate'
             | Err e =>
                 max_records
                 < clocations_count jstate
                   + Z.of_nat (List.length (stored locs))
                 /\ e = InvalidAllocSize 1073741824
             end).
  { induction locs as [ | loc locs IH]; intros st Hwf Hb.
    - cbn [record_all stored filter map List.length].
      rewrite app_nil_r.
      destruct (record_outcome st 0 Hwf Hb) as (Hmax & _).
      repeat split; try apply Hwf; try assumption. simpl. lia.
    - cbn [record_all].
      destruct (record_outcome st loc Hwf Hb) as (Hmax & Hrec).
      destruct (pgnq_record_const_location st loc) as [st1 | e]; cbn [bind].
      + destruct Hrec as (Hr & Hc & _ & Hwf1 & Hb1).
        specialize (IH st1 Hwf1 Hb1).
        replace (stored (loc :: locs)) with (stored [loc] ++ stored locs)
          by (rewrite <- stored_app; reflexivity).
        rewrite length_app, Nat2Z.inj_add.
        destruct (record_all st1 locs) as [st2 | e].
        * destruct IH as (Hn & Hr2 & Hwf2 & Hb2).
          rewrite Hr2, Hr, <- app_assoc.
          repeat split; try apply Hwf2; try assumption. lia.
        * destruct IH as (Hn & ->). split; [lia | reflexivity].
      + destruct Hrec as (-> & Hloc & Hfull).
        rewrite stored_cons. destruct (0 <=? loc) eqn:E; [ | blia].
        cbn [List.length]. split; [lia | reflexivity]. }
  specialize (H initial_state initial_state_wf initial_state_buf_size_ok).
  change (clocations_count initial_state) with 0 in H.
  change (records initial_state) with (@nil pgnqLocationLen) in H.
  destruct (record_all initial_state locs) as [st | e].
  - destruct H as (Hn & Hr & Hwf & Hb).
    repeat split; try assumption; try lia. apply Hwf.
  - exact H.
Qed.

(** ** Every way the walk can end *)

Lemma walk_room_left (st : pgnqConstLocations) (l1 l2 : list Node) :
  walk_room st (l1 ++ l2) -> walk_room st l1.
Proof.
  unfold walk_room. rewrite flat_map_app, stored_app, length_app. lia.
Qed.

(** A node that records nothing itself, before the nodes of the walk under
    it. *)
Lemma walk_outcome_under (stack depth : nat) (ok : bool)
  (st : pgnqConstLocations) (node : Node) (nodes : list Node)
  (r : result (bool * pgnqConstLocations)) :
  const_location node = [] -> param_number node = [] ->
  walk_outcome stack depth ok st nodes r ->
  walk_outcome (S stack) (S depth) ok st (node :: nodes) r.
Proof.
  intros Ec Ep H. unfold walk_outcome, walk_post, walk_room in *.
  cbn [flat_map]. rewrite Ec, Ep. cbn [app].
  destruct r as [[stop st'] | e]; [exact H | ].
  destruct H as [(-> & H) | H]; [left; split; [reflexivity | lia] | right].
  exact H.
Qed.

Lemma walk_nodes_outcome (stack : nat) :
  (forall node jstate,
      jstate_wf jstate -> buf_size_ok jstate ->
      walk_outcome stack (walk_depth node) (walkable node) jstate
        (reached node) (pgnq_const_record_walker stack node jstate)) ->
  forall w jstate,
    jstate_wf jstate -> buf_size_ok jstate ->
    walk_outcome stack (list_max (map walk_depth w)) (forallb walkable w)
      jstate (flat_map reached w)
      (walk_nodes (pgnq_const_record_walker stack) w jstate).
Proof.
  intros IH w. induction w as [ | n w IHw]; intros st Hwf Hb.
  - cbn. split; [reflexivity | ].
    split; [apply walk_post_nil; assumption | reflexivity].
  - cbn [walk_nodes map flat_map forallb].
    change (list_max (walk_depth n :: map walk_depth w))
      with (Nat.max (walk_depth n) (list_max (map walk_depth w))).
    specialize (IH n st Hwf Hb).
    destruct (pgnq_const_record_walker stack n st) as [[stop st1] | e];
      cbn [bind walk_outcome] in *.
    + destruct IH as (-> & Hp1 & ->).
      assert (Hwf1 : jstate_wf st1) by apply Hp1.
      assert (Hb1 : buf_size_ok st1) by apply Hp1.
      specialize (IHw st1 Hwf1 Hb1). cbn [andb].
      destruct (walk_nodes (pgnq_const_record_walker stack) w st1)
        as [[stop st2] | e]; cbn [walk_outcome] in *.
      * destruct IHw as (-> & Hp2 & Hok).
        split; [reflexivity | ].
        split; [apply (walk_post_app _ _ _ _ _ Hp1 Hp2) | exact Hok].
      * destruct IHw as [(-> & H) | [(-> & H) | (-> & H)]].
        -- left. split; [reflexivity | lia].
        -- right. left. split; [reflexivity | ]. intros Hroom.
           apply H. apply (walk_room_app _ _ _ _ Hroom Hp1).
        -- right. right. split; [reflexivity | exact H].
    + destruct IH as [(-> & H) | [(-> & H) | (-> & H)]].
      * left. split; [reflexivity | lia].
      * right. left. split; [reflexivity | ]. intros Hroom.
        apply H. apply (walk_room_left _ _ _ Hroom).
      * right. right. split; [reflexivity | ]. rewrite H. reflexivity.
Qed.

(** The walk on any consistent state ends in one of the four ways of
    [walk_outcome]. *)
Lemma walk_outcome_spec (stack : nat) (tree : Node)
  (jstate : pgnqConstLocations) :
  jstate_wf jstate -> buf_size_ok jstate ->
  walk_outcome stack (walk_depth tree) (walkable tree) jstate (reached tree)
    (pgnq_const_record_walker stack tree jstate).
Proof.
  revert tree jstate.
  induction stack as [ | stack IH]; intros node st Hwf Hb.
  { destruct node; cbn;
      try (left; split; [reflexivity | lia]).
    split; [reflexivity | ].
    split; [apply walk_post_nil; assumption | reflexivity]. }
  destruct (wrapper_fields node) as [[inner w] | ] eqn:Ew.
  { destruct (reached_wrapper _ _ _ Ew) as (Er & Edp & Ec & Ep & Ek).
    rewrite (walker_wrapper _ _ _ _ _ Ew), Er, Edp, Ek.
    destruct (is_NULL inner) eqn:En.
    - right. right. split; reflexivity.
    - cbn [negb andb]. apply walk_outcome_under; [exact Ec | exact Ep | ].
      apply (IH inner st Hwf Hb). }
  destruct node; try discriminate.
  - cbn. split; [reflexivity | ].
    split; [apply walk_post_nil; assumption | reflexivity].
  - (* A_Const *)
    rewrite walker_step by discriminate. cbn [pgnq_walker_switch].
    destruct (record_outcome st loc Hwf Hb) as (Hmax & Hrec).
    destruct (pgnq_record_const_location st loc) as [st' | e];
      cbn [bind is_NULL negb raw_expression_tree_walker walk_outcome reached
           walkable].
    + split; [reflexivity | ]. split; [ | reflexivity]. unfold walk_post.
      change (flat_map const_location [A_Const loc]) with [loc].
      change (flat_map param_number [A_Const loc]) with (@nil Z).
      destruct Hrec as (Hr & Hc & Hh & Hwf' & Hb').
      repeat split; try apply Hwf'; assumption.
    + right. left. destruct Hrec as (-> & Hloc & Hfull).
      split; [reflexivity | ]. unfold walk_room.
      change (flat_map const_location [A_Const loc]) with [loc].
      rewrite stored_cons. destruct (0 <=? loc) eqn:E; [ | blia].
      cbn [List.length stored filter map]. lia.
  - (* ParamRef *)
    rewrite walker_step by discriminate. cbn [pgnq_walker_switch].
    destruct (number >? highest_extern_param_id st) eqn:E; cbn.
    + split; [reflexivity | ]. split; [ | reflexivity].
      unfold walk_post, records, jstate_wf, buf_size_ok. simpl.
      rewrite app_nil_r.
      repeat split; try lia; try apply Hwf; assumption.
    + split; [reflexivity | ]. split; [ | reflexivity].
      unfold walk_post. simpl. rewrite app_nil_r.
      repeat split; try lia; try apply Hwf; assumption.
  - (* OtherNode *)
    rewrite walker_step by discriminate.
    cbn [pgnq_walker_switch bind is_NULL negb raw_expression_tree_walker
         reached walk_depth walkable].
    pose proof (walk_nodes_outcome stack IH walked st Hwf Hb) as H.
    unfold walk_outcome, walk_post, walk_room in *. cbn [flat_map app].
    change (const_location (OtherNode walked)) with (@nil Z).
    change (param_number (OtherNode walked)) with (@nil Z). cbn [app].
    destruct (walk_nodes (pgnq_const_record_walker stack) walked st)
      as [[stop st'] | e]; [exact H | ].
    destruct H as [(-> & H) | H]; [left; split; [reflexivity | lia] | right].
    exact H.
  - (* UtilityStmt *)
    right. right. split; reflexivity.
Qed.

(** X5. Every way a call of the walker can end, on any consistent state.
    It returns false, never true: the walk is never cut short; the tree is
    then one the walk gets through, the records the walker found are as
    they were, those of the constants reached come after them, and the
    highest parameter number has not gone down.  Or it raises one of three
    errors: that of the stack-depth guard, when the walk needs more nested
    calls than the guard allows; that of the allocator for 1073741824
    bytes, when the constants reached do not fit into 2^26 records; or that
    of raw_expression_tree_walker, "unrecognized node type", when the tree
    holds a utility statement or a wrapper whose designated field is NULL.
    No write goes outside the array; and for a tree the walk gets through,
    with calls and room enough, no error is raised. *)
Theorem walker_outcomes (stack : nat) (tree : Node)
  (jstate : pgnqConstLocations) :
  jstate_wf jstate -> buf_size_ok jstate ->
  match pgnq_const_record_walker stack tree jstate with
  | Ok (stop, jstate') =>
      stop = false /\ walkable tree = true
      /\ records jstate' = records jstate ++ stored (const_locations tree)
      /\ highest_extern_param_id jstate'
         = max_of (highest_extern_param_id jstate) (param_numbers tree)
      /\ highest_extern_param_id jstate <= highest_extern_param_id jstate'
      /\ jstate_wf jstate' /\ buf_size_ok jstate'
  | Err e =>
      (e = StackDepthExceeded /\ (stack < walk_depth tree)%nat)
      \/ (e = InvalidAllocSize 1073741824
          /\ max_records
             < clocations_count jstate
               + Z.of_nat (List.length (stored (const_locations tree))))
      \/ (e = UnrecognizedNodeType /\ walkable tree = false)
  end
  /\ (walkable tree = true -> (walk_depth tree <= stack)%nat ->
      clocations_count jstate
      + Z.of_nat (List.length (stored (const_locations tree))) <= max_records ->
      exists jstate',
        pgnq_const_record_walker stack tree jstate = Ok (false, jstate'))
  /\ (pgnq_const_record_walker (S stack) UtilityStmt jstate
      = Err UnrecognizedNodeType).
Proof.
  intros Hwf Hb. split; [ | split; [ | reflexivity]].
  - pose proof (walk_outcome_spec stack tree jstate Hwf Hb) as H.
    unfold walk_outcome, walk_post, walk_room in H.
    fold (const_locations tree) in H. fold (param_numbers tree) in H.
    destruct (pgnq_const_record_walker stack tree jstate) as [[stop st] | e].
    + destruct H as (Hstop & (Hr & _ & Hh & Hwf' & Hb') & Hok).
      split; [exact Hstop | ]. split; [exact Hok | ].
      split; [exact Hr | ]. split; [exact Hh | ].
      split; [rewrite Hh; apply (proj1 (max_of_upper _ _)) | ].
      split; assumption.
    + destruct H as [H | [(He & H) | H]];
        [left; exact H | right; left | right; right; exact H].
      split; [exact He | lia].
  - intros Hok Hd Hroom.
    destruct (walker_spec stack tree jstate Hok Hd Hwf Hb Hroom)
      as (st & H & _).
    exists st. exact H.
Qed.

(** ** The order of the records and the result *)

(** X6. The result of the builder depends on the state it is given through
    the set of the recorded locations and the highest parameter number
    only: two states of the locator whose records are the same up to their
    order, in arrays of any capacity, give the same result, text or error,
    for the same query. *)
Theorem builder_order_independent (jstate1 jstate2 : pgnqConstLocations)
  (query : list byte) (query_loc query_len : Z) :
  locator_state jstate1 -> locator_state jstate2 ->
  Permutation (records jstate1) (records jstate2) ->
  highest_extern_param_id jstate1 = highest_extern_param_id jstate2 ->
  codes_ok (core_scanner query) ->
  pgnq_build_normalized_query jstate1 query query_loc query_len
  = pgnq_build_normalized_query jstate2 query query_loc query_len.
Proof.
  intros (Hwf1 & Hun1 & Hlocs1) (Hwf2 & Hun2 & Hlocs2) Hperm Hh Hcodes.
  assert (Hcount : clocations_count jstate1 = clocations_count jstate2).
  { pose proof (records_length _ Hwf1) as H1.
    pose proof (records_length _ Hwf2) as H2.
    pose proof (Permutation_length Hperm) as Hl.
    destruct Hwf1 as (_ & ? & _). destruct Hwf2 as (_ & ? & _). lia. }
  assert (Hsort : qsort pgnq_comp_location (records jstate2)
                  = qsort pgnq_comp_location (records jstate1)).
  { apply qsort_unique; [exact Hun1 | | apply qsort_sorted].
    apply perm_trans with (records jstate2); [exact Hperm | apply qsort_perm]. }
  assert (Hres : resolved jstate2 query = resolved jstate1 query)
    by (unfold resolved; rewrite Hsort; reflexivity).
  assert (Hl : forall st, jstate_wf st ->
                 List.length (resolved st query)
                 = Z.to_nat (clocations_count st)).
  { intros st Hwf. unfold resolved. rewrite resolve_length, qsort_length.
    apply records_length, Hwf. }
  unfold pgnq_build_normalized_query.
  rewrite !fill_exact by assumption. cbn [bind].
  rewrite !records_set_records by (apply Hl; assumption).
  cbn [set_records clocations_count highest_extern_param_id].
  rewrite Hres, Hcount, Hh. reflexivity.
Qed.

(** ** The size of the result *)

(** X7. For a well-located query whose placeholder numbers fit in an
    [int], the value the builder leaves in [*query_len_p] is the length of
    the string it returns: the string holds no NUL byte, so that this is its
    strlen and strdup copies all of it; and it is at most query_len + 10 *
    clocations_count, the size allowed for it, so that the terminator is
    written inside the buffer. *)
Theorem builder_result_length (jstate : pgnqConstLocations)
  (query : list byte) :
  scanner_isspace "u" = false -> scanner_isspace "U" = false ->
  no_NUL query -> locator_state jstate -> well_located (records jstate) query ->
  0 <= highest_extern_param_id jstate ->
  clocations_count jstate + highest_extern_param_id jstate <= INT_MAX ->
  Z.of_nat (List.length query) + 10 * clocations_count jstate + 1
  <= MaxAllocSize ->
  exists out n,
    pgnq_build_normalized_query jstate query 0 (Z.of_nat (List.length query))
    = Ok (out, n)
    /\ n = Z.of_nat (strlen out)
    /\ strlen out = List.length out
    /\ strdup out = out
    /\ n <= Z.of_nat (List.length query) + 10 * clocations_count jstate.
Proof.
  intros Hu HU Hq Hst Hwl Hh Hnum Halloc.
  destruct (builder_ok jstate query Hu HU Hq Hst Hwl Hh Hnum Halloc)
    as (Hbuild & Hlen).
  set (out := render query (highest_extern_param_id jstate)
                (resolved jstate query)) in *.
  assert (Hno : no_NUL out) by (apply render_no_NUL, Hq).
  exists out, (Z.of_nat (List.length out)).
  split; [exact Hbuild | ].
  rewrite (strlen_no_NUL out Hno), (strdup_no_NUL out Hno).
  repeat split; lia.
Qed.

(** ** Constants that overlap *)

Lemma resolve_locations_ok (query : list byte) (locs : list pgnqLocationLen)
  (toks : list token) (last_loc : Z) :
  locations_ok locs -> locations_ok (resolve query locs toks last_loc).
Proof.
  unfold locations_ok. intros H.
  apply Forall_map with (f := location) (P := fun l => 0 <= l).
  rewrite resolve_locations. apply Forall_map. exact H.
Qed.

(** The records the resolver leaves lie inside the query. *)
Lemma resolved_inside (jstate : pgnqConstLocations) (query : list byte) :
  scanner_isspace "u" = false -> scanner_isspace "U" = false ->
  no_NUL query -> Z.of_nat (List.length query) + 2 <= INT_MAX ->
  tokens_wf 0 (Z.of_nat (List.length query)) (core_scanner query) = true ->
  locator_state jstate ->
  Forall (inside (Z.of_nat (List.length query))) (resolved jstate query).
Proof.
  intros Hu HU Hq Hmax Hwf (Hst & Hun & Hlocs).
  assert (H : Forall (resolved_ok query (core_scanner query))
                (resolved jstate query)).
  { unfold resolved.
    apply (resolve_lengths query _ Hu HU Hq Hmax) with (lo := 0);
      [apply qsort_Forall, Hun | apply qsort_Forall, Hlocs | exact Hwf]. }
  assert (H0 : locations_ok (resolved jstate query))
    by (apply resolve_locations_ok, qsort_Forall, Hlocs).
  unfold locations_ok in H0. rewrite Forall_forall in H, H0 |- *.
  intros r Hr. specialize (H r Hr). specialize (H0 r Hr). unfold inside.
  destruct H as [H | (t & _ & _ & _ & Hpos & Hend)]; [left; lia | right].
  repeat split; assumption.
Qed.

Lemma inside_lengths_ok (qlen : Z) (locs : list pgnqLocationLen) :
  Forall (inside qlen) locs -> lengths_ok locs.
Proof.
  apply Forall_impl. intros r [H | (_ & H & _)]; [left | right]; exact H.
Qed.

(** The loop of the builder on records of which one begins before the one
    written before it has ended: the assertion of line 294 fails there,
    everything before having been written inside the buffer. *)
Lemma build_loop_overlap (query : list byte) (h qlen cap : Z) (B : nat) :
  0 <= h -> 0 <= qlen <= Z.of_nat (List.length query) -> 0 <= cap ->
  Z.of_nat B = qlen + cap + 1 -> Z.of_nat B <= INT_MAX ->
  forall (locs : list pgnqLocationLen) (i : Z) (v : build_vars),
    Forall (inside qlen) locs ->
    spans_ok locs (quer_loc v) qlen = false ->
    0 <= i -> i + Z.of_nat (List.length locs) + h <= INT_MAX ->
    List.length (norm_query v) = B ->
    quer_loc v = last_off v + last_tok_len v ->
    0 <= last_off v -> 0 <= last_tok_len v ->
    quer_loc v <= qlen ->
    0 <= n_quer_loc v ->
    n_quer_loc v - quer_loc v + 10 * Z.of_nat (List.length locs) <= cap ->
    build_loop query 0 h locs i v = Err (AssertFailed 294).
Proof.
  intros Hh Hqlen Hcap0 HB Hmax locs.
  induction locs as [ | r rest IH];
    intros i v Hl Hspans Hi Hnum Hbuf Hfrom Hoff Htok Hq Hn Hcap.
  { cbn [spans_ok] in Hspans. blia. }
  inversion Hl as [ | ? ? Hr Hl']; subst.
  cbn [build_loop spans_ok] in *.
  cbn [List.length] in Hnum, Hcap.
  assert (Hi1 : i +i 1 = i + 1)
    by (apply int_add_id; unfold INT_MIN, INT_MAX in *; lia).
  destruct (length r <? 0) eqn:Eneg.
  { rewrite Hi1. apply IH; try assumption; lia. }
  apply Z.ltb_ge in Eneg.
  destruct Hr as [Hr | (Hloc & Hlen & Hend)]; [lia | ].
  set (off := location r) in *. set (tok_len := length r) in *.
  set (from := quer_loc v) in *. set (n := n_quer_loc v) in *.
  unfold INT_MIN, INT_MAX in *.
  rewrite (int_sub_id off 0) by (unfold INT_MIN, INT_MAX; lia).
  rewrite Z.sub_0_r.
  rewrite (int_sub_id off (last_off v)) by (unfold INT_MIN, INT_MAX; lia).
  rewrite (int_sub_id (off - last_off v) (last_tok_len v))
    by (unfold INT_MIN, INT_MAX; lia).
  replace (off - last_off v - last_tok_len v) with (off - from) by lia.
  destruct (from <=? off) eqn:Ele.
  2: { destruct (off - from >=? 0) eqn:E; [blia | reflexivity]. }
  apply Z.leb_le in Ele. cbn [andb] in Hspans.
  destruct (off - from >=? 0) eqn:E; [clear E | blia].
  cbn [Assert bind].
  destruct (memcpy_Ok (norm_query v) query n from (off - from))
    as (dst1 & Hcpy & Hlen1 & Hpre1); try lia.
  rewrite Hcpy. cbn [bind].
  rewrite (int_add_id n (off - from)) by (unfold INT_MIN, INT_MAX; lia).
  rewrite Hi1.
  rewrite (int_add_id (i + 1) h) by (unfold INT_MIN, INT_MAX; lia).
  pose proof (placeholder_length h i) as Hk.
  unfold placeholder in Hk.
  rewrite to_int_id in Hk by (unfold INT_MIN, INT_MAX; lia).
  specialize (Hk ltac:(unfold INT_MAX; lia)).
  destruct (sprintf_param_Ok dst1 (n + (off - from)) (i + 1 + h))
    as (dst2 & Hprt & Hlen2 & Hpre2); try lia.
  rewrite Hprt. cbn [bind].
  set (k := Z.of_nat (List.length ("$"%byte :: format_d (i + 1 + h)))) in *.
  rewrite (int_add_id (n + (off - from)) k)
    by (unfold INT_MIN, INT_MAX; lia).
  rewrite (int_add_id off tok_len) by (unfold INT_MIN, INT_MAX; lia).
  apply IH;
    cbn [norm_query quer_loc n_quer_loc last_off last_tok_len];
    try assumption; try lia.
Qed.

(** The builder on any state of the locator, for a query with a
    well-formed token sequence: the text, or the failed assertion of line
    294 when the resolved records do not lie one after the other. *)
Lemma build_outcome_spec (jstate : pgnqConstLocations) (query : list byte) :
  scanner_isspace "u" = false -> scanner_isspace "U" = false ->
  no_NUL query -> locator_state jstate ->
  tokens_wf 0 (Z.of_nat (List.length query)) (core_scanner query) = true ->
  0 <= highest_extern_param_id jstate ->
  clocations_count jstate + highest_extern_param_id jstate <= INT_MAX ->
  Z.of_nat (List.length query) + 10 * clocations_count jstate + 1
  <= MaxAllocSize ->
  pgnq_build_normalized_query jstate query 0 (Z.of_nat (List.length query))
  = if spans_ok (resolved jstate query) 0 (Z.of_nat (List.length query))
    then
      Ok (render query (highest_extern_param_id jstate)
            (resolved jstate query),
          Z.of_nat (List.length
                      (render query (highest_extern_param_id jstate)
                         (resolved jstate query))))
    else Err (AssertFailed 294).
Proof.
  intros Hu HU Hq Hst Htoks Hh Hnum Halloc.
  assert (Hmax : Z.of_nat (List.length query) + 2 <= INT_MAX).
  { destruct Hst as ((_ & ? & _) & _). unfold MaxAllocSize, INT_MAX in *. lia. }
  pose proof (resolved_inside jstate query Hu HU Hq Hmax Htoks Hst) as Hin.
  destruct Hst as (Hwf & Hun & Hlocs).
  pose proof (fill_exact jstate query Hwf Hlocs (tokens_wf_codes _ _ _ Htoks))
    as Hfill.
  assert (Hl : List.length (resolved jstate query)
               = Z.to_nat (clocations_count jstate)).
  { unfold resolved. rewrite resolve_length, qsort_length.
    apply records_length, Hwf. }
  pose proof (records_set_records jstate _ Hl) as Hrec.
  destruct (spans_ok (resolved jstate query) 0 (Z.of_nat (List.length query)))
    eqn:Hspans.
  - destruct (build_spec jstate _ query Hfill) as (Hbuild & _);
      try (rewrite Hrec); try assumption.
    + apply set_records_wf; assumption.
    + apply (inside_lengths_ok _ _ Hin).
    + rewrite Hrec in Hbuild. exact Hbuild.
  - destruct Hwf as (_ & Hc & _).
    set (qlen := Z.of_nat (List.length query)) in *.
    set (count := clocations_count jstate) in *.
    set (h := highest_extern_param_id jstate) in *.
    unfold pgnq_build_normalized_query. rewrite Hfill. cbn [bind].
    rewrite Hrec. cbn [set_records clocations_count highest_extern_param_id].
    fold count h. unfold MaxAllocSize, INT_MAX in *.
    rewrite (int_mul_id count 10) by (unfold INT_MIN, INT_MAX; lia).
    rewrite (int_add_id qlen) by (unfold INT_MIN, INT_MAX; lia).
    rewrite (int_add_id (qlen + count * 10) 1)
      by (unfold INT_MIN, INT_MAX; lia).
    rewrite palloc_bytes by (unfold MaxAllocSize; lia). cbn [bind].
    set (B := Z.to_nat (qlen + count * 10 + 1)).
    rewrite (build_loop_overlap query h qlen (10 * count) B);
      cbn [norm_query quer_loc n_quer_loc last_off last_tok_len];
      try assumption; try (unfold INT_MAX; lia);
      try (apply repeat_length).
    reflexivity.
Qed.

(** X8. The builder, in a build with assertions, on any state of the
    locator, for a query with a well-formed token sequence and placeholder
    numbers that fit in an [int]: the records the resolver has resolved lie
    inside the query, and either they lie one after the other, and the
    builder returns the normalized text; or one of them begins before the
    one before it has ended (a location recorded inside the text of another
    constant), and the assertion of line 294 fails.  Nothing else happens:
    no other assertion fails and nothing is written outside the buffer. *)
Theorem builder_outcomes (jstate : pgnqConstLocations) (query : list byte) :
  scanner_isspace "u" = false -> scanner_isspace "U" = false ->
  no_NUL query -> locator_state jstate ->
  tokens_wf 0 (Z.of_nat (List.length query)) (core_scanner query) = true ->
  0 <= highest_extern_param_id jstate ->
  clocations_count jstate + highest_extern_param_id jstate <= INT_MAX ->
  Z.of_nat (List.length query) + 10 * clocations_count jstate + 1
  <= MaxAllocSize ->
  exists jstate',
    pgnq_fill_in_constant_lengths jstate query = Ok jstate'
    /\ Forall (inside (Z.of_nat (List.length query))) (records jstate')
    /\ pgnq_build_normalized_query jstate query 0
         (Z.of_nat (List.length query))
       = if spans_ok (records jstate') 0 (Z.of_nat (List.length query))
         then
           Ok (render query (highest_extern_param_id jstate)
                 (records jstate'),
               Z.of_nat (List.length
                           (render query (highest_extern_param_id jstate)
                              (records jstate'))))
         else Err (AssertFailed 294).
Proof.
  intros Hu HU Hq Hst Htoks Hh Hnum Halloc.
  assert (Hmax : Z.of_nat (List.length query) + 2 <= INT_MAX).
  { destruct Hst as ((_ & ? & _) & _). unfold MaxAllocSize, INT_MAX in *. lia. }
  pose proof (resolved_inside jstate query Hu HU Hq Hmax Htoks Hst) as Hin.
  pose proof (build_outcome_spec jstate query Hu HU Hq Hst Htoks Hh Hnum
                Halloc) as Hbuild.
  destruct Hst as (Hwf & Hun & Hlocs).
  exists (set_records jstate (resolved jstate query)).
  split; [apply fill_exact; try assumption;
          apply (tokens_wf_codes _ _ _ Htoks) | ].
  rewrite records_set_records.
  - split; [exact Hin | exact Hbuild].
  - unfold resolved. rewrite resolve_length, qsort_length.
    apply records_length, Hwf.
Qed.

(** ** Numbers without gaps *)

Lemma measured_nonneg (query : list byte) (loc e : Z) :
  0 <= loc -> Z.of_nat (List.length query) + 2 <= INT_MAX ->
  0 <= measured query loc e.
Proof.
  intros Hloc Hmax. unfold measured.
  rewrite constant_length_spec; [lia | exact Hloc | ].
  rewrite put_NUL_length, length_app. cbn [List.length]. lia.
Qed.

(** On records of distinct locations in ascending order, all after
    [last_loc], the pass resolves every record unless the input ends. *)
Lemma resolve_all (query : list byte) (locs : list pgnqLocationLen) :
  Z.of_nat (List.length query) + 2 <= INT_MAX ->
  locations_ok locs ->
  StronglySorted by_location locs -> NoDup (map location locs) ->
  forall (toks : list token) (last_loc : Z),
    Forall (fun r => last_loc < location r) locs ->
    exhausted query locs toks last_loc = false ->
    Forall (fun r => 0 <= length r) (resolve query locs toks last_loc).
Proof.
  intros Hmax Hlocs Hs. induction Hs as [ | rec rest Hs IH Hrec];
    intros Hnd toks last Hlast Hex; [constructor | ].
  inversion Hlocs as [ | ? ? Hloc Hlocs']; subst.
  inversion Hlast as [ | ? ? Hlt Hlast']; subst.
  cbn [map] in Hnd. inversion Hnd as [ | ? ? Hnot Hnd']; subst.
  cbn [resolve exhausted] in *.
  destruct (location rec <=? last) eqn:E; [blia | ].
  destruct (found query (location rec) toks) as [[t toks'] | ];
    [ | discriminate].
  constructor; [cbn [length]; apply measured_nonneg; assumption | ].
  apply IH; try assumption.
  rewrite Forall_forall in Hrec |- *. intros r Hr.
  specialize (Hrec r Hr). unfold by_location in Hrec.
  assert (location r <> location rec).
  { intros Heq. apply Hnot. rewrite <- Heq. apply in_map, Hr. }
  lia.
Qed.

Lemma render_body_contiguous (query : list byte) (h : Z)
  (locs : list pgnqLocationLen) :
  0 <= h -> Forall (fun r => 0 <= length r) locs ->
  forall (i from : Z),
    0 <= i -> i + Z.of_nat (List.length locs) + h <= INT_MAX ->
    render_body query h locs i from = spec_render_body query h locs i from.
Proof.
  intros Hh Hall. induction Hall as [ | r rest Hr Hall IH];
    intros i from Hi Hnum; [reflexivity | ].
  cbn [render_body spec_render_body List.length] in *.
  destruct (length r <? 0) eqn:E; [blia | ].
  unfold placeholder.
  rewrite to_int_id by (unfold INT_MIN, INT_MAX in *; lia).
  rewrite IH by lia. reflexivity.
Qed.

(** X9. When no location is recorded twice and the scanner reaches every
    constant of a well-located query, the resolver resolves every record,
    and the numbers of the placeholders have no gap: the builder returns the
    text in which the constants are replaced, in the order of their offsets,
    by the placeholders of the numbers highest_extern_param_id + 1, + 2, and
    so on, one for each record. *)
Theorem numbering_contiguous (jstate : pgnqConstLocations)
  (query : list byte) :
  scanner_isspace "u" = false -> scanner_isspace "U" = false ->
  no_NUL query -> locator_state jstate -> well_located (records jstate) query ->
  NoDup (map location (records jstate)) ->
  exhausted query (qsort pgnq_comp_location (records jstate))
    (core_scanner query) (-1) = false ->
  0 <= highest_extern_param_id jstate ->
  clocations_count jstate + highest_extern_param_id jstate <= INT_MAX ->
  Z.of_nat (List.length query) + 10 * clocations_count jstate + 1
  <= MaxAllocSize ->
  exists jstate',
    pgnq_fill_in_constant_lengths jstate query = Ok jstate'
    /\ Forall (fun r => 0 <= length r) (records jstate')
    /\ pgnq_build_normalized_query jstate query 0
         (Z.of_nat (List.length query))
       = Ok (spec_render query (highest_extern_param_id jstate)
               (records jstate'),
             Z.of_nat (List.length
                         (spec_render query (highest_extern_param_id jstate)
                            (records jstate')))).
Proof.
  intros Hu HU Hq Hst Hwl Hnd Hex Hh Hnum Halloc.
  destruct (builder_ok jstate query Hu HU Hq Hst Hwl Hh Hnum Halloc)
    as (Hbuild & _).
  destruct Hst as (Hwf & Hun & Hlocs). destruct Hwl as (Htoks & _).
  assert (Hmax : Z.of_nat (List.length query) + 2 <= INT_MAX).
  { destruct Hwf as (_ & ? & _). unfold MaxAllocSize, INT_MAX in *. lia. }
  pose proof (qsort_perm pgnq_comp_location (records jstate)) as Hperm.
  assert (Hall : Forall (fun r => 0 <= length r) (resolved jstate query)).
  { unfold resolved. apply resolve_all; try assumption.
    - apply qsort_Forall, Hlocs.
    - apply qsort_sorted.
    - apply (Permutation_NoDup (Permutation_map location Hperm) Hnd).
    - apply qsort_Forall. eapply Forall_impl; [ | exact Hlocs].
      intros r Hr. cbn beta in Hr. lia. }
  assert (Hl : List.length (resolved jstate query)
               = Z.to_nat (clocations_count jstate)).
  { unfold resolved. rewrite resolve_length, qsort_length.
    apply records_length, Hwf. }
  exists (set_records jstate (resolved jstate query)).
  split; [apply fill_exact; try assumption; apply (tokens_wf_codes _ _ _ Htoks) | ].
  rewrite records_set_records by exact Hl.
  split; [exact Hall | ].
  rewrite Hbuild. unfold render, spec_render.
  rewrite render_body_contiguous; try assumption; [reflexivity | lia | ].
  rewrite Hl. destruct Hwf as (_ & ? & _). lia.
Qed.

(** ** The text of a placeholder *)

Lemma digit_value_digit (d : Z) :
  0 <= d <= 9 -> digit_value (digit d) = d /\ is_digit (digit d) = true.
Proof.
  intros H.
  assert (E : d = 0 \/ d = 1 \/ d = 2 \/ d = 3 \/ d = 4 \/ d = 5 \/ d = 6
              \/ d = 7 \/ d = 8 \/ d = 9) by lia.
  repeat (destruct E as [-> | E]; [split; reflexivity | ]).
  subst d. split; reflexivity.
Qed.

Lemma parse_decimal_snoc (l : list byte) (b : byte) :
  parse_decimal (l ++ [b]) = 10 * parse_decimal l + digit_value b.
Proof. unfold parse_decimal. rewrite fold_left_app. reflexivity. Qed.

(** The digits of a number that has at most [fuel] of them. *)
Lemma decimal_parse (fuel : nat) :
  forall n : Z,
    0 <= n < 10 ^ Z.of_nat fuel ->
    parse_decimal (decimal fuel n) = n
    /\ forallb is_digit (decimal fuel n) = true.
Proof.
  induction fuel as [ | fuel IH]; intros n Hn.
  { change (10 ^ Z.of_nat 0) with 1 in Hn.
    assert (n = 0) by lia. subst n. split; reflexivity. }
  cbn [decimal]. rewrite parse_decimal_snoc, forallb_app.
  destruct (digit_value_digit (n mod 10)) as (Hd & Hisd); [zlia | ].
  rewrite Hd. cbn [forallb]. rewrite Hisd.
  destruct (n <? 10) eqn:E.
  - split; [ | reflexivity].
    apply Z.ltb_lt in E. change (parse_decimal []) with 0.
    rewrite Z.mod_small by lia. lia.
  - apply Z.ltb_ge in E.
    destruct (IH (n / 10)) as (Hp & Hall).
    { rewrite Nat2Z.inj_succ, Z.pow_succ_r in Hn by lia. zlia. }
    rewrite Hp, Hall. split; [zlia | reflexivity].
Qed.

(** What %d prints for an [int] reads back as that [int]. *)
Lemma format_d_parse (n : Z) :
  INT_MIN <= n <= INT_MAX -> parse_d (format_d n) = n.
Proof.
  intros Hn. unfold format_d, INT_MIN, INT_MAX in *.
  destruct (n <? 0) eqn:E.
  - apply Z.ltb_lt in E. cbn [parse_d].
    change (Byte.eqb "-" "-") with true. cbv iota.
    destruct (decimal_parse 10 (- n)) as (Hp & _).
    { change (10 ^ Z.of_nat 10) with 10000000000. lia. }
    rewrite Hp. lia.
  - apply Z.ltb_ge in E.
    destruct (decimal_parse 10 n) as (Hp & Hall).
    { change (10 ^ Z.of_nat 10) with 10000000000. lia. }
    destruct (decimal_length 10 n) as (_ & Hne).
    destruct (decimal 10 n) as [ | b rest] eqn:Ed;
      [exfalso; apply Hne; [discriminate | reflexivity] | ].
    cbn [parse_d]. cbn [forallb] in Hall.
    apply andb_true_iff in Hall. destruct Hall as (Hb & _).
    destruct (Byte.eqb b "-") eqn:Eb; [ | exact Hp].
    apply byte_dec_bl in Eb. subst b. discriminate.
Qed.

(** ** Every way pg_normalize_query can end *)

(** X11. [pg_normalize_query], in a build with assertions, on a statement
    the parser accepts, with a well-formed token sequence, placeholder
    numbers that fit in an [int] and a result the allocator grants: it
    returns the normalized text, the tree being one the walk gets through
    and the resolved constants lying one after the other; or it raises the
    error of the stack-depth guard, the tree being deeper than the guard
    allows; or that of the allocator for 1073741824 bytes, the tree holding
    more than 2^26 constants; or that of raw_expression_tree_walker,
    "unrecognized node type", the tree holding a utility statement or a
    wrapper whose designated field is NULL; or the assertion of line 294
    fails, a resolved constant beginning inside the one before it.  Nothing
    else happens: no array and no buffer is written outside its bounds. *)
Theorem normalize_outcomes (sql : list byte) (tree : Node) :
  scanner_isspace "u" = false -> scanner_isspace "U" = false ->
  no_NUL sql -> raw_parser sql = Ok tree ->
  tokens_wf 0 (Z.of_nat (List.length sql)) (core_scanner sql) = true ->
  let count := Z.of_nat (List.length (stored (const_locations tree))) in
  let locs := resolve sql
                (qsort pgnq_comp_location (stored (const_locations tree)))
                (core_scanner sql) (-1) in
  count + max_of 0 (param_numbers tree) <= INT_MAX ->
  Z.of_nat (List.length sql) + 10 * count + 1 <= MaxAllocSize ->
  match pg_normalize_query sql with
  | Ok out =>
      out = normalized sql tree
      /\ walkable tree = true
      /\ spans_ok locs 0 (Z.of_nat (List.length sql)) = true
  | Err e =>
      (e = StackDepthExceeded /\ (max_stack_depth < walk_depth tree)%nat)
      \/ (e = InvalidAllocSize 1073741824 /\ max_records < count)
      \/ (e = UnrecognizedNodeType /\ walkable tree = false)
      \/ (e = AssertFailed 294
          /\ spans_ok locs 0 (Z.of_nat (List.length sql)) = false)
  end.
Proof.
  intros Hu HU Hq Hparse Htoks count locs Hnum Halloc.
  unfold pg_normalize_query. rewrite Hparse, initial_state_eq. cbn [bind].
  pose proof (walk_outcome_spec max_stack_depth tree initial_state
                initial_state_wf initial_state_buf_size_ok) as Hwalk.
  destruct (pgnq_const_record_walker max_stack_depth tree initial_state)
    as [[stop st] | e]; cbn [bind walk_outcome] in *.
  2: { destruct Hwalk as [H | [(-> & H) | H]];
         [left; exact H | right; left | right; right; left; exact H].
       split; [reflexivity | ]. unfold walk_room in H.
       change (clocations_count initial_state) with 0 in H.
       fold (const_locations tree) in H. fold count in H. lia. }
  destruct Hwalk as (_ & (Hrec & Hc & Hh & Hwf & _) & Hok).
  change (records initial_state) with (@nil pgnqLocationLen) in Hrec.
  change (clocations_count initial_state) with 0 in Hc.
  change (highest_extern_param_id initial_state) with 0 in Hh.
  cbn [app] in Hrec. fold (const_locations tree) in Hrec, Hc.
  fold (param_numbers tree) in Hh. fold count in Hc.
  rewrite strlen_no_NUL by exact Hq.
  rewrite to_int_id by (unfold INT_MIN, INT_MAX, MaxAllocSize in *; lia).
  destruct (stored_unresolved (const_locations tree)) as (Hun & Hlocs).
  rewrite (build_outcome_spec st sql Hu HU Hq).
  2: split; [exact Hwf | split; rewrite Hrec; assumption].
  2: exact Htoks.
  2: rewrite Hh; apply (proj1 (max_of_upper _ _)).
  2: rewrite Hh, Hc; lia.
  2: rewrite Hc; lia.
  unfold resolved. rewrite Hrec, Hh. fold locs.
  destruct (spans_ok locs 0 (Z.of_nat (List.length sql))); cbn [bind].
  - rewrite strdup_no_NUL by (apply render_no_NUL, Hq).
    split; [reflexivity | ]. split; [exact Hok | reflexivity].
  - right. right. right. split; reflexivity.
Qed.

(** ** Statements that differ in their constants only *)

Lemma render_skeleton (query1 query2 : list byte) (h : Z)
  (locs1 : list pgnqLocationLen) :
  forall (locs2 : list pgnqLocationLen) (i from1 from2 : Z),
    skeleton query1 locs1 from1 = skeleton query2 locs2 from2 ->
    render_body query1 h locs1 i from1
      ++ sub query1 (final_loc locs1 from1) (Z.of_nat (List.length query1))
    = render_body query2 h locs2 i from2
        ++ sub query2 (final_loc locs2 from2) (Z.of_nat (List.length query2)).
Proof.
  induction locs1 as [ | r1 rest1 IH]; intros locs2 i from1 from2 Hsk.
  - destruct locs2 as [ | r2 rest2].
    + cbn in Hsk |- *. congruence.
    + exfalso. cbn [skeleton] in Hsk.
      destruct (length r2 <? 0); [discriminate | ].
      injection Hsk as _ Hsk. destruct rest2 as [ | r3 rest3];
        [discriminate | ].
      cbn [skeleton] in Hsk. destruct (length r3 <? 0); discriminate.
  - destruct locs2 as [ | r2 rest2].
    + exfalso. cbn [skeleton] in Hsk.
      destruct (length r1 <? 0); [discriminate | ].
      injection Hsk as _ Hsk. destruct rest1 as [ | r3 rest3];
        [discriminate | ].
      cbn [skeleton] in Hsk. destruct (length r3 <? 0); discriminate.
    + cbn [skeleton render_body final_loc] in *.
      destruct (length r1 <? 0), (length r2 <? 0); try discriminate.
      * injection Hsk as Hsk. apply IH, Hsk.
      * injection Hsk as Hpiece Hsk.
        rewrite Hpiece, <- !app_assoc. do 2 f_equal. apply IH, Hsk.
Qed.

(** X12. Two statements that normalize and differ in their constants only
    have the same normalized text: when the texts around the resolved
    constants are the same in both, piece by piece, the same records are
    passed over, and the highest parameter numbers are equal,
    [pg_normalize_query] returns the same text for both. *)
Theorem same_skeleton_same_text (sql1 sql2 : list byte) (tree1 tree2 : Node) :
  scanner_isspace "u" = false -> scanner_isspace "U" = false ->
  no_NUL sql1 -> no_NUL sql2 ->
  raw_parser sql1 = Ok tree1 -> raw_parser sql2 = Ok tree2 ->
  walkable tree1 = true -> walkable tree2 = true ->
  (walk_depth tree1 <= max_stack_depth)%nat ->
  (walk_depth tree2 <= max_stack_depth)%nat ->
  well_located (stored (const_locations tree1)) sql1 ->
  well_located (stored (const_locations tree2)) sql2 ->
  let count1 := Z.of_nat (List.length (stored (const_locations tree1))) in
  let count2 := Z.of_nat (List.length (stored (const_locations tree2))) in
  let locs1 := resolve sql1
                 (qsort pgnq_comp_location (stored (const_locations tree1)))
                 (core_scanner sql1) (-1) in
  let locs2 := resolve sql2
                 (qsort pgnq_comp_location (stored (const_locations tree2)))
                 (core_scanner sql2) (-1) in
  count1 <= max_records -> count2 <= max_records ->
  count1 + max_of 0 (param_numbers tree1) <= INT_MAX ->
  count2 + max_of 0 (param_numbers tree2) <= INT_MAX ->
  Z.of_nat (List.length sql1) + 10 * count1 + 1 <= MaxAllocSize ->
  Z.of_nat (List.length sql2) + 10 * count2 + 1 <= MaxAllocSize ->
  max_of 0 (param_numbers tree1) = max_of 0 (param_numbers tree2) ->
  skeleton sql1 locs1 0 = skeleton sql2 locs2 0 ->
  exists out,
    pg_normalize_query sql1 = Ok out /\ pg_normalize_query sql2 = Ok out.
Proof.
  intros Hu HU Hq1 Hq2 Hp1 Hp2 Hk1 Hk2 Hd1 Hd2 Hwl1 Hwl2 count1 count2 locs1
    locs2 Hc1 Hc2 Hn1 Hn2 Ha1 Ha2 Hh Hsk.
  destruct (normalize_ok sql1 tree1 Hu HU Hq1 Hp1 Hk1 Hd1 Hwl1 Hc1 Hn1 Ha1)
    as (H1 & _).
  destruct (normalize_ok sql2 tree2 Hu HU Hq2 Hp2 Hk2 Hd2 Hwl2 Hc2 Hn2 Ha2)
    as (H2 & _).
  exists (normalized sql1 tree1). split; [exact H1 | ].
  rewrite H2. f_equal. unfold normalized, render. fold locs1 locs2.
  rewrite Hh. symmetry. apply render_skeleton, Hsk.
Qed.

(** ** A constant that is one token *)

(** X13. The usual case of the search for a constant: the location is the
    start of a token still to come, the byte there is not a minus sign and
    the text of the token is not a quoted string with Unicode escapes.  Then
    the search stops at that token, whatever tokens come before it, and the
    length stored is the length of the text of the token, from [yylloc] to
    the end of the match, nothing being trimmed; the scanner is left after
    the token. *)
Theorem constant_token_length (query : list byte) (yyscanner : core_yyscan)
  (before after : list token) (t : token) (lo len : Z) :
  scan_text yyscanner = query ->
  pending yyscanner = before ++ t :: after ->
  no_NUL query -> Z.of_nat (List.length query) + 2 <= INT_MAX -> 0 <= lo ->
  tokens_wf lo (Z.of_nat (List.length query)) (before ++ t :: after) = true ->
  byte_at query (yylloc t) <> "-"%byte ->
  unicode_quoted (sub query (yylloc t) (yyend t)) = false ->
  find_constant query yyscanner (mkLocationLen (yylloc t) len)
  = (tok t, mkLocationLen (yylloc t) (yyend t - yylloc t),
     scanner_at query (yyend t) after)
  /\ 0 < yyend t - yylloc t
  /\ text_at (scanbuf (scanner_at query (yyend t) after)) (yylloc t)
     = sub query (yylloc t) (yyend t).
Proof.
  intros Hscan Hpend Hq Hmax Hlo Hwf Hminus Huni.
  assert (Hin : In t (before ++ t :: after))
    by (apply in_or_app; right; left; reflexivity).
  destruct (tokens_wf_In _ _ _ _ Hwf Hin) as (H1 & H2 & H3).
  split; [ | split; [lia | ]].
  - rewrite (find_constant_spec query query yyscanner)
      by (try exact Hscan; rewrite Hpend; apply (tokens_wf_codes _ _ _ Hwf)).
    rewrite Hpend. cbn [location]. unfold found.
    rewrite (skip_before_at _ _ _ _ _ Hwf).
    destruct (Byte.eqb (byte_at query (yylloc t)) "-") eqn:E;
      [apply byte_dec_bl in E; contradiction | ].
    fold (measured query (yylloc t) (yyend t)).
    rewrite measured_spec by (try assumption; lia).
    unfold constant_text. rewrite Huni.
    rewrite sub_length by lia. reflexivity.
  - cbn [scanner_at scanbuf]. apply text_at_put_NUL; [assumption | lia | lia].
Qed.


(** ** One pass of the loop of the builder *)

(** A pass of the loop on a record with a length above 0 (lines 279-304):
    the text before the constant is copied, the placeholder is printed with
    the number [i + 1 + highest_extern_param_id], and the loop goes on after
    the constant with the next index. *)
Lemma build_loop_step (query : list byte) (h qlen cap : Z) (B : nat)
  (r : pgnqLocationLen) (rest : list pgnqLocationLen) (i : Z)
  (v : build_vars) :
  pass_ready query h qlen cap B r i v ->
  exists v1,
    build_loop query 0 h (r :: rest) i v
    = build_loop query 0 h rest (i + 1) v1
    /\ List.length (norm_query v1) = B
    /\ firstn (Z.to_nat (n_quer_loc v1)) (norm_query v1)
       = firstn (Z.to_nat (n_quer_loc v)) (norm_query v)
           ++ sub query (quer_loc v) (location r)
           ++ "$"%byte :: format_d (i + 1 + h)
    /\ quer_loc v1 = location r + length r
    /\ last_off v1 = location r /\ last_tok_len v1 = length r.
Proof.
  intros (Hh & Hqlen & Hcap0 & HB & Hmax & Hlen & Hle & Hend & Hi & Hnum
          & Hbuf & Hfrom & Hoff & Htok & Hn & Hcap).
  cbn [build_loop].
  assert (Hi1 : i +i 1 = i + 1)
    by (apply int_add_id; unfold INT_MIN, INT_MAX in *; lia).
  destruct (length r <? 0) eqn:Eneg; [blia | clear Eneg].
  set (off := location r) in *. set (tok_len := length r) in *.
  set (from := quer_loc v) in *. set (n := n_quer_loc v) in *.
  unfold INT_MAX in *.
  rewrite (int_sub_id off 0) by (unfold INT_MIN, INT_MAX; lia).
  rewrite Z.sub_0_r.
  rewrite (int_sub_id off (last_off v)) by (unfold INT_MIN, INT_MAX; lia).
  rewrite (int_sub_id (off - last_off v) (last_tok_len v))
    by (unfold INT_MIN, INT_MAX; lia).
  replace (off - last_off v - last_tok_len v) with (off - from) by lia.
  destruct (off - from >=? 0) eqn:E; [clear E | blia].
  cbn [Assert bind].
  destruct (memcpy_Ok (norm_query v) query n from (off - from))
    as (dst1 & Hcpy & Hlen1 & Hpre1); try lia.
  rewrite Hcpy. cbn [bind].
  rewrite (int_add_id n (off - from)) by (unfold INT_MIN, INT_MAX; lia).
  rewrite Hi1.
  rewrite (int_add_id (i + 1) h) by (unfold INT_MIN, INT_MAX; lia).
  pose proof (format_d_length (i + 1 + h)) as Hk.
  specialize (Hk ltac:(lia)).
  destruct (sprintf_param_Ok dst1 (n + (off - from)) (i + 1 + h))
    as (dst2 & Hprt & Hlen2 & Hpre2); try (cbn [List.length]; lia).
  rewrite Hprt. cbn [bind].
  set (k := Z.of_nat (List.length ("$"%byte :: format_d (i + 1 + h)))) in *.
  assert (Hk' : 2 <= k <= 11) by (unfold k; cbn [List.length]; lia).
  rewrite (int_add_id (n + (off - from)) k)
    by (unfold INT_MIN, INT_MAX; lia).
  rewrite (int_add_id off tok_len) by (unfold INT_MIN, INT_MAX; lia).
  eexists. split; [reflexivity | ].
  cbn [norm_query quer_loc n_quer_loc last_off last_tok_len].
  split; [lia | ]. split; [ | repeat split].
  rewrite Hpre2, Hpre1.
  replace (from + (off - from)) with off by lia.
  rewrite <- app_assoc. reflexivity.
Qed.

(** X10. A pass of the loop of the builder on a record with a length above
    0, of index [i]: the loop goes on with the index [i + 1] after having
    written, where the buffer was filled up to, the text between the
    constant before and this one, then [$] and a text of one to ten decimal
    digits that reads back as the number i + 1 + highest_extern_param_id;
    the text of the constant itself is passed over. *)
Theorem placeholder_read_back (query : list byte) (h qlen cap : Z) (B : nat)
  (r : pgnqLocationLen) (rest : list pgnqLocationLen) (i : Z)
  (v : build_vars) :
  pass_ready query h qlen cap B r i v ->
  exists text v1,
    build_loop query 0 h (r :: rest) i v
    = build_loop query 0 h rest (i + 1) v1
    /\ firstn (Z.to_nat (n_quer_loc v1)) (norm_query v1)
       = firstn (Z.to_nat (n_quer_loc v)) (norm_query v)
           ++ sub query (quer_loc v) (location r) ++ "$"%byte :: text
    /\ quer_loc v1 = location r + length r
    /\ parse_d text = i + 1 + h
    /\ forallb is_digit text = true
    /\ (1 <= List.length text <= 10)%nat.
Proof.
  intros Hready.
  destruct (build_loop_step query h qlen cap B r rest i v Hready)
    as (v1 & Hloop & _ & Hpre & Hq & _).
  destruct Hready as (Hh & _ & _ & _ & _ & _ & _ & _ & Hi & Hnum & _).
  exists (format_d (i + 1 + h)), v1.
  split; [exact Hloop | ]. split; [exact Hpre | ]. split; [exact Hq | ].
  split; [apply format_d_parse; unfold INT_MIN, INT_MAX in *; lia | ].
  split; [ | apply format_d_length; lia].
  unfold format_d. destruct (i + 1 + h <? 0) eqn:E; [blia | ].
  apply decimal_parse. change (10 ^ Z.of_nat 10) with 10000000000.
  unfold INT_MAX in Hnum. lia.
Qed.

(** ** Numbers that are new *)

(** X14. The numbers of the placeholders are new.  After the walk of a tree
    from the workspace [pg_normalize_query] sets up, a pass of the loop of
    the builder with the highest parameter number the walk has left prints
    [$] and a text that reads back as a number above 0 and above every
    parameter number of the tree: the index of the record, plus one, plus
    the largest parameter number of the tree. *)
Theorem placeholders_fresh (stack : nat) (tree : Node)
  (jstate : pgnqConstLocations) (query : list byte) (qlen cap : Z) (B : nat)
  (r : pgnqLocationLen) (rest : list pgnqLocationLen) (i : Z)
  (v : build_vars) :
  pgnq_const_record_walker stack tree initial_state = Ok (false, jstate) ->
  pass_ready query (highest_extern_param_id jstate) qlen cap B r i v ->
  exists text v1,
    build_loop query 0 (highest_extern_param_id jstate) (r :: rest) i v
    = build_loop query 0 (highest_extern_param_id jstate) rest (i + 1) v1
    /\ firstn (Z.to_nat (n_quer_loc v1)) (norm_query v1)
       = firstn (Z.to_nat (n_quer_loc v)) (norm_query v)
           ++ sub query (quer_loc v) (location r) ++ "$"%byte :: text
    /\ parse_d text = i + 1 + max_of 0 (param_numbers tree)
    /\ 0 < parse_d text
    /\ forall number, In number (param_numbers tree) -> number < parse_d text.
Proof.
  intros Hwalk Hready.
  pose proof (walk_outcome_spec stack tree initial_state initial_state_wf
                initial_state_buf_size_ok) as H.
  rewrite Hwalk in H. destruct H as (_ & (_ & _ & Hh & _) & _).
  change (highest_extern_param_id initial_state) with 0 in Hh.
  fold (param_numbers tree) in Hh.
  destruct (max_of_upper 0 (param_numbers tree)) as (H0 & Hup).
  rewrite <- Hh in H0, Hup |- *.
  set (h := highest_extern_param_id jstate) in *.
  destruct (build_loop_step query h qlen cap B r rest i v Hready)
    as (v1 & Hloop & _ & Hpre & _).
  destruct Hready as (_ & _ & _ & _ & _ & _ & _ & _ & Hi & Hnum & _).
  exists (format_d (i + 1 + h)), v1.
  split; [exact Hloop | ]. split; [exact Hpre | ].
  rewrite format_d_parse by (unfold INT_MIN, INT_MAX in *; lia).
  split; [reflexivity | ]. split; [lia | ].
  intros number Hin. specialize (Hup number Hin). lia.
Qed.

(** * A minus sign before a constant *)

(** ** The tokens around one token *)

Lemma tokens_wf_split (lo qlen : Z) (l1 l2 : list token) (t : token) :
  tokens_wf lo qlen (l1 ++ t :: l2) = true ->
  Forall (fun t' => yyend t' <= yylloc t) l1
  /\ lo <= yylloc t /\ yylloc t < yyend t /\ yyend t <= qlen
  /\ tokens_wf (yyend t) qlen l2 = true.
Proof.
  revert lo. induction l1 as [ | t0 l1 IH]; intros lo Hwf; cbn [app] in Hwf;
    apply tokens_wf_cons in Hwf; destruct Hwf as (_ & H1 & H2 & H3 & Hwf).
  - split; [constructor | ]. repeat split; assumption.
  - destruct (IH _ Hwf) as (Hall & Ha & Hb & Hc & Hwf').
    split; [constructor; [lia | exact Hall] | ].
    repeat split; try assumption. lia.
Qed.

Lemma skip_before_app_lt (x : Z) (l1 l2 : list token) :
  Forall (fun t => yylloc t < x) l1 ->
  skip_before x (l1 ++ l2) = skip_before x l2.
Proof.
  intros H. induction H as [ | t l1 Ht H IH]; [reflexivity | ].
  cbn [app skip_before]. destruct (yylloc t >=? x) eqn:E; [blia | exact IH].
Qed.

Lemma signs_ok_adjacent (query : list byte) (locs : list pgnqLocationLen)
  (l1 l2 : list token) (t t2 : token) :
  signs_ok query locs (l1 ++ t :: t2 :: l2) = true ->
  sign_ok query locs t t2 = true.
Proof.
  intros H. apply signs_ok_app in H. cbn [signs_ok] in H.
  apply andb_true_iff in H. apply H.
Qed.

(** ** The search among all tokens *)

(** What the search for the constant at [x] finds among the tokens [toks],
    when [x] is a location recorded for a well-located text and the input
    does not end: the search has gone through the tokens [gone], which all
    start before every location recorded after [x]. *)
Lemma found_shape (query : list byte) (all : list pgnqLocationLen)
  (lo qlen x : Z) (toks rest : list token) (t : token) :
  tokens_wf lo qlen toks = true -> signs_ok query all toks = true ->
  recorded all x = true ->
  starts_token toks x = true \/ past_tokens toks x = true ->
  found query x toks = Some (t, rest) ->
  exists gone,
    toks = gone ++ rest
    /\ forall t' y,
         In t' gone -> x < y -> recorded all y = true ->
         starts_token toks y = true \/ past_tokens toks y = true ->
         yylloc t' < y.
Proof.
  intros Hwf Hsigns Hrec Hlocx Hfound. unfold found in Hfound.
  destruct (skip_before_split x toks) as (bef & Hsplit & Hbef).
  destruct (skip_before x toks) as [ | t1 rest1] eqn:Esk; [discriminate | ].
  assert (Hx1 : yylloc t1 = x).
  { destruct Hlocx as [Hs | Hp].
    - destruct (skip_before_start _ _ _ _ Hwf Hs) as (t0 & r0 & E0 & Ht0).
      rewrite Esk in E0. injection E0 as <- _. exact Ht0.
    - rewrite (skip_before_past _ _ _ _ Hwf Hp) in Esk. discriminate. }
  assert (Hlt : forall t', In t' bef -> yylloc t' < x)
    by (rewrite Forall_forall in Hbef; exact Hbef).
  assert (Hwf' : tokens_wf lo qlen (bef ++ t1 :: rest1) = true)
    by (rewrite <- Hsplit; exact Hwf).
  destruct (tokens_wf_split _ _ _ _ _ Hwf') as (_ & _ & H1 & _ & Hwf1).
  destruct (Byte.eqb (byte_at query x) "-") eqn:Eminus.
  - destruct rest1 as [ | t2 rest2]; [discriminate | ].
    injection Hfound as <- <-.
    exists (bef ++ [t1; t2]). split.
    { rewrite Hsplit, <- app_assoc. reflexivity. }
    intros t' y Hin Hy Hrecy Hloc.
    apply tokens_wf_cons in Hwf1.
    destruct Hwf1 as (_ & H2 & H3 & _ & Hwf2).
    assert (Hy2 : yylloc t2 < y).
    { destruct Hloc as [Hs | Hp].
      - apply starts_token_In in Hs. destruct Hs as (t3 & Hin3 & Ht3).
        rewrite Hsplit in Hin3. apply in_app_or in Hin3.
        destruct Hin3 as [Hin3 | [E3 | [E3 | Hin3]]].
        + specialize (Hlt _ Hin3). lia.
        + subst t3. lia.
        + subst t3. exfalso.
          rewrite Hsplit in Hsigns.
          pose proof (signs_ok_adjacent _ _ _ _ _ _ Hsigns) as Hs.
          unfold sign_ok in Hs. rewrite Hx1, Eminus, Hrec, Ht3, Hrecy in Hs.
          discriminate.
        + pose proof (tokens_wf_In _ _ _ _ Hwf2 Hin3). lia.
      - rewrite past_tokens_In in Hp.
        assert (Hin2 : In t2 toks).
        { rewrite Hsplit. apply in_or_app. right. right. left. reflexivity. }
        specialize (Hp _ Hin2). lia. }
    apply in_app_or in Hin. destruct Hin as [Hin | [E | [E | []]]].
    + specialize (Hlt _ Hin). lia.
    + subst t'. lia.
    + subst t'. exact Hy2.
  - injection Hfound as <- <-.
    exists (bef ++ [t1]). split.
    { rewrite Hsplit, <- app_assoc. reflexivity. }
    intros t' y Hin Hy Hrecy Hloc.
    apply in_app_or in Hin. destruct Hin as [Hin | [E | []]].
    + specialize (Hlt _ Hin). lia.
    + subst t'. lia.
Qed.

(** On the records of a well-located text, in the order of their
    locations, the searches do not get in each other's way: the pass of the
    resolver leaves what the searches among all tokens give. *)
Lemma resolve_full (query : list byte) (all : list pgnqLocationLen)
  (lo qlen : Z) (full : list token) :
  tokens_wf lo qlen full = true -> signs_ok query all full = true ->
  forall locs : list pgnqLocationLen,
    StronglySorted by_location locs ->
    (forall r, In r locs ->
               recorded all (location r) = true
               /\ (starts_token full (location r) = true
                   \/ past_tokens full (location r) = true)) ->
    forall (dropped pending : list token) (last : Z),
      full = dropped ++ pending ->
      (forall t r, In t dropped -> In r locs -> last < location r ->
                   yylloc t < location r) ->
      resolve query locs pending last = resolve_each query full locs last.
Proof.
  intros Hwf Hsigns locs Hs.
  induction Hs as [ | r rest Hs IH Hr]; intros Hloc dropped pending last
    Hfull Hinv; [reflexivity | ].
  cbn [resolve resolve_each].
  assert (Hloc' : forall r', In r' rest ->
                    recorded all (location r') = true
                    /\ (starts_token full (location r') = true
                        \/ past_tokens full (location r') = true))
    by (intros r' Hin; apply Hloc; right; exact Hin).
  destruct (location r <=? last) eqn:E.
  { f_equal. apply (IH Hloc' dropped pending last Hfull).
    intros t r' Ht Hin Hlt. apply Hinv; [exact Ht | right; exact Hin | exact Hlt]. }
  apply Z.leb_gt in E.
  assert (Hsk : skip_before (location r) full
                = skip_before (location r) pending).
  { rewrite Hfull. apply skip_before_app_lt. apply Forall_forall.
    intros t Ht. apply (Hinv t r Ht); [left; reflexivity | exact E]. }
  assert (Hf : found query (location r) pending
               = found query (location r) full)
    by (unfold found; rewrite Hsk; reflexivity).
  rewrite Hf.
  destruct (found query (location r) full) as [[t rest'] | ] eqn:Efound;
    [ | reflexivity].
  f_equal.
  destruct (Hloc r (or_introl eq_refl)) as (Hrec & Hlocr).
  destruct (found_shape query all lo qlen (location r) full rest' t Hwf Hsigns
              Hrec Hlocr Efound) as (gone & Hgone & Hbefore).
  apply (IH Hloc' gone rest' (location r) Hgone).
  intros t' r' Ht' Hin Hlt.
  destruct (Hloc' r' Hin) as (Hrec' & Hlocr').
  apply (Hbefore t' (location r') Ht' Hlt Hrec' Hlocr').
Qed.

(** ** A text and the text with one byte put in *)

Lemma byte_at_app_left (pre rest : list byte) (x : Z) :
  0 <= x < Z.of_nat (List.length pre) ->
  byte_at (pre ++ rest) x = byte_at pre x.
Proof.
  intros H. rewrite !byte_at_nth by lia. apply app_nth1. lia.
Qed.

Lemma byte_at_shift (pre rest : list byte) (b : byte) (x : Z) :
  Z.of_nat (List.length pre) <= x ->
  byte_at (pre ++ b :: rest) (x + 1) = byte_at (pre ++ rest) x.
Proof.
  intros H. rewrite !byte_at_nth by lia. rewrite !app_nth2 by lia.
  replace (Z.to_nat (x + 1) - List.length pre)%nat
    with (S (Z.to_nat x - List.length pre)) by lia.
  reflexivity.
Qed.

Lemma sub_left (pre rest : list byte) (from to : Z) :
  0 <= from -> to <= Z.of_nat (List.length pre) ->
  sub (pre ++ rest) from to = sub pre from to.
Proof.
  intros Hfrom Hto. unfold sub.
  destruct (Z.le_gt_cases to from) as [Hle | Hlt].
  { replace (Z.to_nat (to - from)) with O by lia. reflexivity. }
  rewrite skipn_app, firstn_app, length_skipn.
  replace (Z.to_nat (to - from) - (List.length pre - Z.to_nat from))%nat
    with O by lia.
  rewrite firstn_O, app_nil_r. reflexivity.
Qed.

Lemma sub_shift (pre rest : list byte) (b : byte) (from to : Z) :
  Z.of_nat (List.length pre) <= from ->
  sub (pre ++ b :: rest) (from + 1) (to + 1) = sub (pre ++ rest) from to.
Proof.
  intros Hfrom. unfold sub.
  replace (to + 1 - (from + 1)) with (to - from) by lia. f_equal.
  rewrite !skipn_app.
  rewrite (skipn_all2 pre) by lia. rewrite (skipn_all2 pre) by lia.
  cbn [app].
  replace (Z.to_nat (from + 1) - List.length pre)%nat
    with (S (Z.to_nat from - List.length pre)) by lia.
  reflexivity.
Qed.

(** The length counted for a constant before the byte put in, and for one
    after it. *)
Lemma measured_left (pre rest1 rest2 : list byte) (x e : Z) :
  no_NUL (pre ++ rest1) -> no_NUL (pre ++ rest2) ->
  0 <= x <= e -> e <= Z.of_nat (List.length pre) ->
  Z.of_nat (List.length (pre ++ rest1)) + 2 <= INT_MAX ->
  Z.of_nat (List.length (pre ++ rest2)) + 2 <= INT_MAX ->
  measured (pre ++ rest1) x e = measured (pre ++ rest2) x e.
Proof.
  intros H1 H2 Hx He Hm1 Hm2.
  rewrite !measured_spec;
    try assumption; try (rewrite length_app; lia).
  rewrite !sub_left by lia. reflexivity.
Qed.

Lemma measured_shift (pre rest : list byte) (b : byte) (x e : Z) :
  no_NUL (pre ++ rest) -> no_NUL (pre ++ b :: rest) ->
  Z.of_nat (List.length pre) <= x -> x <= e ->
  e <= Z.of_nat (List.length (pre ++ rest)) ->
  Z.of_nat (List.length (pre ++ b :: rest)) + 2 <= INT_MAX ->
  measured (pre ++ b :: rest) (x + 1) (e + 1) = measured (pre ++ rest) x e.
Proof.
  intros H1 H2 Hx He Hlen Hmax.
  assert (Hl : Z.of_nat (List.length (pre ++ b :: rest))
               = Z.of_nat (List.length (pre ++ rest)) + 1)
    by (rewrite !length_app; cbn [List.length]; lia).
  rewrite !measured_spec; try assumption; try lia.
  rewrite sub_shift by lia. reflexivity.
Qed.

(** ** The records of the two statements *)

Lemma shift_loc_leb (p x y : Z) :
  (shift_loc p x <=? shift_loc p y) = (x <=? y).
Proof.
  unfold shift_loc.
  destruct (Z.leb_spec x p), (Z.leb_spec y p);
    repeat match goal with
      | |- context [?u <=? ?v] => destruct (Z.leb_spec u v)
      end; try reflexivity; lia.
Qed.

Lemma comp_location_shift (p : Z) (a b : pgnqLocationLen) :
  pgnq_comp_location (shift_record p a) (shift_record p b)
  = pgnq_comp_location a b.
Proof.
  unfold pgnq_comp_location, shift_record, shift_loc. cbn [location].
  rewrite !Z.gtb_ltb.
  destruct (Z.leb_spec (location a) p), (Z.leb_spec (location b) p);
    repeat match goal with
      | |- context [?u <? ?v] => destruct (Z.ltb_spec u v)
      end; try reflexivity; lia.
Qed.

Lemma qsort_insert_shift (p : Z) (x : pgnqLocationLen)
  (l : list pgnqLocationLen) :
  qsort_insert pgnq_comp_location (shift_record p x) (map (shift_record p) l)
  = map (shift_record p) (qsort_insert pgnq_comp_location x l).
Proof.
  induction l as [ | y l IH]; [reflexivity | ].
  cbn [map qsort_insert]. rewrite comp_location_shift.
  destruct (pgnq_comp_location x y <=? 0); cbn [map]; [reflexivity | ].
  f_equal. exact IH.
Qed.

Lemma qsort_shift (p : Z) (l : list pgnqLocationLen) :
  qsort pgnq_comp_location (map (shift_record p) l)
  = map (shift_record p) (qsort pgnq_comp_location l).
Proof.
  induction l as [ | x l IH]; [reflexivity | ].
  unfold qsort in *. cbn [map fold_right]. rewrite IH.
  apply qsort_insert_shift.
Qed.

Lemma stored_shift (p : Z) (locs : list Z) :
  0 <= p ->
  stored (map (shift_loc p) locs) = map (shift_record p) (stored locs).
Proof.
  intros Hp. unfold stored.
  induction locs as [ | x locs IH]; [reflexivity | ].
  cbn [map filter].
  assert (E : (0 <=? shift_loc p x) = (0 <=? x)).
  { unfold shift_loc. destruct (x <=? p) eqn:E1; [reflexivity | ].
    apply Z.leb_gt in E1.
    rewrite (proj2 (Z.leb_le 0 (x + 1))), (proj2 (Z.leb_le 0 x)) by lia.
    reflexivity. }
  rewrite E. destruct (0 <=? x); [ | exact IH].
  cbn [map]. rewrite IH. reflexivity.
Qed.

Lemma skeleton_unresolved (query : list byte) (locs : list pgnqLocationLen)
  (from : Z) :
  all_unresolved locs ->
  skeleton query locs from
  = map (fun _ => None) locs
      ++ [Some (sub query from (Z.of_nat (List.length query)))].
Proof.
  intros H. induction H as [ | r locs Hr H IH]; [reflexivity | ].
  cbn [skeleton map app]. rewrite Hr. cbn. rewrite IH. reflexivity.
Qed.

Lemma skip_before_shift (x : Z) (toks : list token) :
  skip_before (x + 1) (map shift_token toks)
  = map shift_token (skip_before x toks).
Proof.
  induction toks as [ | t toks IH]; [reflexivity | ].
  cbn [map skip_before shift_token yylloc].
  assert (E : (yylloc t + 1 >=? x + 1) = (yylloc t >=? x)).
  { rewrite !Z.geb_leb.
    destruct (Z.leb_spec (x + 1) (yylloc t + 1)), (Z.leb_spec x (yylloc t));
      try reflexivity; lia. }
  rewrite E. destruct (yylloc t >=? x); [reflexivity | exact IH].
Qed.

(** ** The searches in the two statements *)

Lemma minus_inserted_facts (pre lit post : list byte)
  (before after : list token) (c1 c2 c3 : Z) (all : list pgnqLocationLen) :
  minus_inserted pre lit post before after c1 c2 c3 all ->
  0 < Z.of_nat (List.length lit)
  /\ Z.of_nat (List.length (bare pre lit post))
     = Z.of_nat (List.length pre) + Z.of_nat (List.length lit)
       + Z.of_nat (List.length post)
  /\ Z.of_nat (List.length (negated pre lit post))
     = Z.of_nat (List.length (bare pre lit post)) + 1
  /\ (forall t, In t before -> yylloc t < yyend t
                /\ yyend t <= Z.of_nat (List.length pre))
  /\ (forall t, In t after ->
                Z.of_nat (List.length pre) + Z.of_nat (List.length lit)
                <= yylloc t).
Proof.
  intros (_ & _ & _ & _ & _ & _ & Hwf1 & _ & _ & _ & _).
  unfold bare_tokens in Hwf1. cbv zeta in Hwf1.
  pose proof (fun t => tokens_wf_In _ _ _ t Hwf1) as Hin.
  destruct (tokens_wf_split _ _ _ _ _ Hwf1) as (Hbef & _ & Hn & _ & Hwfa).
  cbn [yylloc yyend] in Hbef, Hn, Hwfa.
  split; [lia | ]. split.
  { unfold bare. rewrite !length_app. lia. }
  split.
  { unfold bare, negated. rewrite !length_app. cbn [List.length].
    lia. }
  split.
  - intros t Ht. rewrite Forall_forall in Hbef.
    split; [ | apply Hbef, Ht].
    apply Hin, in_or_app. left. exact Ht.
  - intros t Ht. apply (tokens_wf_In _ _ _ _ Hwfa Ht).
Qed.

(** A constant before the sign: the search finds the same token in both
    statements, and that token ends before the sign. *)
Lemma found_before (pre lit post : list byte)
  (before after : list token) (c1 c2 c3 : Z) (all : list pgnqLocationLen)
  (x : Z) :
  minus_inserted pre lit post before after c1 c2 c3 all ->
  0 <= x < Z.of_nat (List.length pre) -> recorded all x = true ->
  starts_token (bare_tokens pre lit before after c1) x = true
  \/ past_tokens (bare_tokens pre lit before after c1) x = true ->
  exists t r1 r2,
    found (bare pre lit post) x (bare_tokens pre lit before after c1)
    = Some (t, r1)
    /\ found (negated pre lit post) x
         (negated_tokens pre lit before after c2 c3)
       = Some (t, r2)
    /\ x < yyend t /\ yyend t <= Z.of_nat (List.length pre).
Proof.
  intros H Hx Hrec Hloc.
  destruct (minus_inserted_facts _ _ _ _ _ _ _ _ _ H)
    as (Hn & Hl1 & Hl2 & Hbef & Haft).
  destruct H as (_ & _ & _ & _ & _ & _ & Hwf1 & Hwf2 & _ & Hsigns & Hrecp).
  unfold bare_tokens, negated_tokens in *. cbv zeta in *.
  set (p := Z.of_nat (List.length pre)) in *.
  set (n := Z.of_nat (List.length lit)) in *.
  destruct Hloc as [Hs | Hpast].
  2: { exfalso. rewrite past_tokens_In in Hpast.
       specialize (Hpast (mkToken c1 p (p + n))). cbn [yyend] in Hpast.
       assert (p + n <= x); [ | lia].
       apply Hpast, in_or_app. right. left. reflexivity. }
  apply starts_token_In in Hs. destruct Hs as (t0 & Hin & Ht0).
  apply in_app_or in Hin. destruct Hin as [Hin | [E | Hin]].
  2: { exfalso. subst t0. cbn [yylloc] in Ht0. lia. }
  2: { exfalso. specialize (Haft _ Hin). lia. }
  apply in_split in Hin. destruct Hin as (b1 & b2 & Eb). subst before.
  rewrite <- app_assoc in Hwf1, Hwf2, Hsigns.
  rewrite <- !app_assoc. cbn [app] in Hwf1, Hwf2, Hsigns |- *.
  assert (Hb : byte_at (negated pre lit post) x
               = byte_at (bare pre lit post) x).
  { unfold bare, negated. rewrite !byte_at_app_left by (fold p; lia).
    reflexivity. }
  unfold found. rewrite Hb, <- Ht0.
  rewrite (skip_before_at 0 _ b1 _ t0 Hwf1), (skip_before_at 0 _ b1 _ t0 Hwf2).
  destruct (tokens_wf_split _ _ _ _ _ Hwf1) as (_ & _ & H0 & _ & Hwf0).
  destruct (Byte.eqb (byte_at (bare pre lit post) (yylloc t0)) "-") eqn:Em.
  - destruct b2 as [ | t2 b2]; cbn [app] in *.
    + exfalso.
      pose proof (signs_ok_adjacent _ _ _ _ _ _ Hsigns) as Hs.
      unfold sign_ok in Hs. cbn [yylloc] in Hs.
      rewrite Em, Ht0, Hrec, Hrecp in Hs. discriminate.
    + exists t2, (b2 ++ mkToken c1 p (p + n) :: after),
        (b2 ++ mkToken c2 p (p + 1) :: mkToken c3 (p + 1) (p + 1 + n)
            :: map shift_token after).
      split; [reflexivity | ]. split; [reflexivity | ].
      apply tokens_wf_cons in Hwf0. destruct Hwf0 as (_ & H1 & H2 & _).
      assert (Hin2 : In t2 (b1 ++ t0 :: t2 :: b2))
        by (apply in_or_app; right; right; left; reflexivity).
      specialize (Hbef _ Hin2). lia.
  - exists t0, (b2 ++ mkToken c1 p (p + n) :: after),
      (b2 ++ mkToken c2 p (p + 1) :: mkToken c3 (p + 1) (p + 1 + n)
          :: map shift_token after).
    split; [reflexivity | ]. split; [reflexivity | ].
    assert (Hin0 : In t0 (b1 ++ t0 :: b2))
      by (apply in_or_app; right; left; reflexivity).
    specialize (Hbef _ Hin0). lia.
Qed.

(** The constant the sign is put before: in the first statement the search
    finds the token of the constant, in the second the sign and then the
    token of the constant. *)
Lemma found_at (pre lit post : list byte)
  (before after : list token) (c1 c2 c3 : Z) (all : list pgnqLocationLen) :
  minus_inserted pre lit post before after c1 c2 c3 all ->
  let p := Z.of_nat (List.length pre) in
  let n := Z.of_nat (List.length lit) in
  found (bare pre lit post) p (bare_tokens pre lit before after c1)
  = Some (mkToken c1 p (p + n), after)
  /\ found (negated pre lit post) p
       (negated_tokens pre lit before after c2 c3)
     = Some (mkToken c3 (p + 1) (p + 1 + n), map shift_token after).
Proof.
  intros H p n.
  destruct (minus_inserted_facts _ _ _ _ _ _ _ _ _ H)
    as (Hn & _ & _ & _ & _).
  destruct H as (_ & _ & _ & _ & Hfirst & _ & Hwf1 & Hwf2 & _ & _ & _).
  unfold bare_tokens, negated_tokens in *. cbv zeta in *.
  fold p n in Hwf1, Hwf2.
  fold p n. unfold found.
  pose proof (skip_before_at 0 _ before after (mkToken c1 p (p + n)) Hwf1)
    as Hs1.
  pose proof (skip_before_at 0 _ before
                (mkToken c3 (p + 1) (p + 1 + n) :: map shift_token after)
                (mkToken c2 p (p + 1)) Hwf2) as Hs2.
  cbn [yylloc] in Hs1, Hs2. rewrite Hs1, Hs2.
  unfold bare, negated, p. rewrite !byte_at_app.
  assert (Hb : byte_at (lit ++ post) 0 = byte_at lit 0).
  { destruct lit; [simpl in Hn; lia | reflexivity]. }
  rewrite Hb. split.
  - destruct (Byte.eqb (byte_at lit 0) "-") eqn:E;
      [apply byte_dec_bl in E; contradiction | reflexivity].
  - reflexivity.
Qed.

(** A constant after the sign: the searches end alike, and where they find
    a token it is the same token, one byte on. *)
Lemma found_after (pre lit post : list byte)
  (before after : list token) (c1 c2 c3 : Z) (all : list pgnqLocationLen)
  (x : Z) :
  minus_inserted pre lit post before after c1 c2 c3 all ->
  Z.of_nat (List.length pre) < x ->
  found (negated pre lit post) (x + 1)
    (negated_tokens pre lit before after c2 c3)
  = match found (bare pre lit post) x (bare_tokens pre lit before after c1)
    with
    | Some (t, rest) => Some (shift_token t, map shift_token rest)
    | None => None
    end.
Proof.
  intros H Hx.
  destruct (minus_inserted_facts _ _ _ _ _ _ _ _ _ H)
    as (Hn & _ & _ & Hbef & _).
  unfold bare_tokens, negated_tokens in *. cbv zeta in *.
  set (p := Z.of_nat (List.length pre)) in *.
  set (n := Z.of_nat (List.length lit)) in *.
  unfold found.
  assert (Hs1 : skip_before x (before ++ mkToken c1 p (p + n) :: after)
                = skip_before x after).
  { change (before ++ mkToken c1 p (p + n) :: after)
      with (before ++ [mkToken c1 p (p + n)] ++ after).
    rewrite app_assoc. apply skip_before_app_lt, Forall_forall.
    intros t Ht. apply in_app_or in Ht. destruct Ht as [Ht | [E | []]].
    - specialize (Hbef _ Ht). lia.
    - subst t. cbn [yylloc]. lia. }
  assert (Hs2 : skip_before (x + 1)
                  (before ++ mkToken c2 p (p + 1)
                          :: mkToken c3 (p + 1) (p + 1 + n)
                          :: map shift_token after)
                = skip_before (x + 1) (map shift_token after)).
  { change (before ++ mkToken c2 p (p + 1)
                   :: mkToken c3 (p + 1) (p + 1 + n) :: map shift_token after)
      with (before ++ [mkToken c2 p (p + 1); mkToken c3 (p + 1) (p + 1 + n)]
                   ++ map shift_token after).
    rewrite app_assoc. apply skip_before_app_lt, Forall_forall.
    intros t Ht. apply in_app_or in Ht.
    destruct Ht as [Ht | [E | [E | []]]].
    - specialize (Hbef _ Ht). lia.
    - subst t. cbn [yylloc]. lia.
    - subst t. cbn [yylloc]. lia. }
  rewrite Hs1, Hs2, skip_before_shift.
  assert (Hb : byte_at (negated pre lit post) (x + 1)
               = byte_at (bare pre lit post) x).
  { unfold bare, negated. cbn [app]. apply byte_at_shift. fold p. lia. }
  rewrite Hb.
  destruct (skip_before x after) as [ | t [ | t2 rest]]; cbn [map];
    destruct (Byte.eqb (byte_at (bare pre lit post) x) "-"); reflexivity.
Qed.

(** The lengths counted in the two statements. *)
Lemma measured_before (pre lit post : list byte)
  (before after : list token) (c1 c2 c3 : Z) (all : list pgnqLocationLen)
  (x e : Z) :
  minus_inserted pre lit post before after c1 c2 c3 all ->
  0 <= x <= e -> e <= Z.of_nat (List.length pre) ->
  measured (negated pre lit post) x e = measured (bare pre lit post) x e.
Proof.
  intros H Hx He.
  destruct (minus_inserted_facts _ _ _ _ _ _ _ _ _ H)
    as (_ & _ & Hl2 & _ & _).
  destruct H as (_ & _ & Hq1 & Hq2 & _ & _ & _ & _ & Hmax & _ & _).
  unfold bare, negated in *. apply measured_left; try assumption; lia.
Qed.

Lemma measured_at (pre lit post : list byte)
  (before after : list token) (c1 c2 c3 : Z) (all : list pgnqLocationLen) :
  minus_inserted pre lit post before after c1 c2 c3 all ->
  let p := Z.of_nat (List.length pre) in
  let n := Z.of_nat (List.length lit) in
  measured (bare pre lit post) p (p + n) = n
  /\ measured (negated pre lit post) p (p + 1 + n) = n + 1.
Proof.
  intros H p n.
  destruct (minus_inserted_facts _ _ _ _ _ _ _ _ _ H)
    as (Hn & Hl1 & Hl2 & _ & _).
  destruct H as (_ & _ & Hq1 & Hq2 & _ & Huni & _ & _ & Hmax & _ & _).
  fold p n in Hn, Hl1. split.
  - rewrite measured_spec; try assumption; try lia.
    unfold bare, p, n. rewrite sub_app_middle. unfold constant_text.
    rewrite Huni. reflexivity.
  - rewrite measured_minus; try assumption; try lia.
    unfold negated, p. rewrite byte_at_app. reflexivity.
Qed.

Lemma measured_after (pre lit post : list byte)
  (before after : list token) (c1 c2 c3 : Z) (all : list pgnqLocationLen)
  (x e : Z) :
  minus_inserted pre lit post before after c1 c2 c3 all ->
  Z.of_nat (List.length pre) <= x -> x <= e ->
  e <= Z.of_nat (List.length (bare pre lit post)) ->
  measured (negated pre lit post) (x + 1) (e + 1)
  = measured (bare pre lit post) x e.
Proof.
  intros H Hx He Hlen.
  destruct H as (_ & _ & Hq1 & Hq2 & _ & _ & _ & _ & Hmax & _ & _).
  unfold bare, negated in *. cbn [app] in *.
  apply measured_shift; assumption.
Qed.

(** ** The two passes side by side *)

(** The searches of the two statements go through the records alike.
    Before the record at the sign is reached, the texts copied and the
    lengths counted are the same; at that record the second statement counts
    one byte more, the sign; after it every offset of the second statement
    is one more than in the first.  So the two statements leave the same
    text around their constants. *)
Lemma sign_skeleton (pre lit post : list byte)
  (before after : list token) (c1 c2 c3 : Z) (all : list pgnqLocationLen) :
  minus_inserted pre lit post before after c1 c2 c3 all ->
  forall locs : list pgnqLocationLen,
    StronglySorted by_location locs ->
    (forall r, In r locs ->
       length r = -1 /\ 0 <= location r
       /\ recorded all (location r) = true
       /\ (starts_token (bare_tokens pre lit before after c1) (location r)
           = true
           \/ past_tokens (bare_tokens pre lit before after c1) (location r)
              = true)) ->
    forall last last2 from1 from2 : Z,
      last2 = shift_loc (Z.of_nat (List.length pre)) last ->
      (last < Z.of_nat (List.length pre)
       /\ 0 <= from1 <= Z.of_nat (List.length pre) /\ from2 = from1
       /\ In (Z.of_nat (List.length pre)) (map location locs))
      \/ (Z.of_nat (List.length pre) <= last
          /\ Z.of_nat (List.length pre) <= from1 /\ from2 = from1 + 1) ->
      skeleton (bare pre lit post)
        (resolve_each (bare pre lit post)
           (bare_tokens pre lit before after c1) locs last) from1
      = skeleton (negated pre lit post)
          (resolve_each (negated pre lit post)
             (negated_tokens pre lit before after c2 c3)
             (map (shift_record (Z.of_nat (List.length pre))) locs) last2)
          from2.
Proof.
  intros H locs Hs.
  destruct (minus_inserted_facts _ _ _ _ _ _ _ _ _ H)
    as (Hn & Hl1 & Hl2 & Hbef & Haft).
  pose proof H as (Hu & HU & Hq1 & Hq2 & _ & _ & Hwf1 & Hwf2 & Hmax & _ & _).
  pose proof (found_at _ _ _ _ _ _ _ _ _ H) as Fat.
  pose proof (measured_at _ _ _ _ _ _ _ _ _ H) as Mat.
  cbv zeta in Fat, Mat.
  set (p := Z.of_nat (List.length pre)) in *.
  set (n := Z.of_nat (List.length lit)) in *.
  destruct Fat as (Fat1 & Fat2). destruct Mat as (Mat1 & Mat2).
  assert (Htail : forall from,
             p <= from ->
             sub (bare pre lit post) from
               (Z.of_nat (List.length (bare pre lit post)))
             = sub (negated pre lit post) (from + 1)
                 (Z.of_nat (List.length (negated pre lit post)))).
  { intros from Hfrom. rewrite Hl2. unfold bare, negated. cbn [app].
    symmetry. apply sub_shift. exact Hfrom. }
  induction Hs as [ | r rest Hs IH Hr];
    intros Hloc last last2 from1 from2 Hlast Hphase.
  - destruct Hphase as [(_ & _ & _ & []) | (Hp & Hf & ->)].
    cbn [map resolve_each skeleton]. do 2 f_equal. apply Htail, Hf.
  - assert (Hloc' : forall r', In r' rest ->
               length r' = -1 /\ 0 <= location r'
               /\ recorded all (location r') = true
               /\ (starts_token (bare_tokens pre lit before after c1)
                     (location r') = true
                   \/ past_tokens (bare_tokens pre lit before after c1)
                        (location r') = true))
      by (intros r' Hin; apply Hloc; right; exact Hin).
    destruct (Hloc r (or_introl eq_refl)) as (Hlen & Hx0 & Hrec & Hlocated).
    cbn [map resolve_each].
    change (location (shift_record p r)) with (shift_loc p (location r)).
    subst last2. rewrite shift_loc_leb.
    destruct (location r <=? last) eqn:E.
    + cbn [skeleton].
      change (length (shift_record p r)) with (length r). rewrite Hlen.
      change (-1 <? 0) with true. cbv iota. f_equal.
      apply IH; [exact Hloc' | reflexivity | ].
      destruct Hphase as [(Hp & Hf & Hf2 & Hin) | HB]; [left | right; exact HB].
      split; [exact Hp | ]. split; [exact Hf | ]. split; [exact Hf2 | ].
      cbn [map] in Hin. destruct Hin as [E1 | Hin]; [blia | exact Hin].
    + apply Z.leb_gt in E.
      destruct Hphase as [(Hp & Hf & -> & Hin) | (Hp & Hf & ->)].
      * assert (Hle : location r <= p).
        { cbn [map] in Hin. destruct Hin as [E1 | Hin]; [lia | ].
          apply in_map_iff in Hin. destruct Hin as (r' & Er & Hin).
          rewrite Forall_forall in Hr. specialize (Hr _ Hin).
          unfold by_location in Hr. lia. }
        destruct (Z.eq_dec (location r) p) as [Ep | Hne].
        -- assert (Hsh : shift_loc p p = p)
             by (unfold shift_loc; rewrite Z.leb_refl; reflexivity).
           rewrite Ep, Hsh, Fat1, Fat2. cbn [yyend]. rewrite Mat1, Mat2.
           cbn [skeleton length location].
           destruct (n <? 0) eqn:E1; [blia | ].
           destruct (n + 1 <? 0) eqn:E2; [blia | ].
           f_equal.
           ++ f_equal. unfold bare, negated.
              rewrite !sub_left by (fold p; lia). reflexivity.
           ++ apply IH; [exact Hloc' | symmetry; exact Hsh | right; lia].
        -- assert (Hsh : shift_loc p (location r) = location r).
           { unfold shift_loc.
             destruct (location r <=? p) eqn:E1; [reflexivity | blia]. }
           destruct (found_before _ _ _ _ _ c1 c2 c3 _ (location r) H)
             as (t & r1 & r2 & F1 & F2 & Ht1 & Ht2);
             [fold p; lia | exact Hrec | exact Hlocated | ].
           fold p in Ht2.
           rewrite Hsh, F1, F2.
           rewrite (measured_before _ _ _ _ _ _ _ _ _ _ _ H)
             by (fold p; lia).
           pose proof (measured_bounds (bare pre lit post) (location r)
                         (yyend t) Hu HU Hq1) as Hm.
           cbn [skeleton length location].
           destruct (measured (bare pre lit post) (location r) (yyend t)
                     <? 0) eqn:E1; [apply Z.ltb_lt in E1; lia | ].
           f_equal.
           ++ f_equal. unfold bare, negated.
              rewrite !sub_left by (fold p; lia). reflexivity.
           ++ apply IH; [exact Hloc' | symmetry; exact Hsh | left].
              split; [lia | ]. split; [lia | ]. split; [reflexivity | ].
              cbn [map] in Hin. destruct Hin as [E2 | Hin];
                [contradiction | exact Hin].
      * assert (Hsh : shift_loc p (location r) = location r + 1).
        { unfold shift_loc.
          destruct (location r <=? p) eqn:E1; [blia | reflexivity]. }
        rewrite Hsh.
        rewrite (found_after _ _ _ _ _ c1 c2 c3 _ (location r) H)
          by (fold p; lia).
        destruct (found (bare pre lit post) (location r)
                    (bare_tokens pre lit before after c1))
          as [[t r1] | ] eqn:F1.
        -- destruct (found_wf _ _ _ _ _ _ _ Hwf1 F1) as (Hy1 & _ & Hy2 & _).
           cbn [shift_token yyend].
           rewrite (measured_after _ _ _ _ _ _ _ _ _ _ _ H)
             by (fold p; lia).
           pose proof (measured_nonneg (bare pre lit post) (location r)
                         (yyend t) Hx0) as Hm.
           cbn [skeleton length location].
           destruct (measured (bare pre lit post) (location r) (yyend t)
                     <? 0) eqn:E1; [apply Z.ltb_lt in E1; lia | ].
           f_equal.
           ++ f_equal. unfold bare, negated. cbn [app].
              symmetry. apply sub_shift. fold p. exact Hf.
           ++ apply IH; [exact Hloc' | symmetry; exact Hsh | right; lia].
        -- change (shift_record p r :: map (shift_record p) rest)
             with (map (shift_record p) (r :: rest)).
           rewrite !skeleton_unresolved.
           ++ rewrite map_map. do 3 f_equal. apply Htail, Hf.
           ++ apply Forall_forall. intros r' Hin.
              apply in_map_iff in Hin. destruct Hin as (r0 & <- & Hin).
              apply (Hloc r0 Hin).
           ++ apply Forall_forall. intros r' Hin. apply (Hloc r' Hin).
Qed.

(** ** The normalized texts of the two statements *)

Lemma stored_sorted_In (locs : list Z) (r : pgnqLocationLen) :
  In r (qsort pgnq_comp_location (stored locs)) ->
  In r (stored locs) /\ length r = -1 /\ 0 <= location r
  /\ recorded (stored locs) (location r) = true.
Proof.
  intros Hin.
  apply (Permutation_in _ (Permutation_sym (qsort_perm _ _))) in Hin.
  destruct (stored_unresolved locs) as (Hun & Hok).
  unfold all_unresolved, locations_ok in *. rewrite Forall_forall in Hun, Hok.
  split; [exact Hin | ]. split; [apply Hun, Hin | ].
  split; [apply Hok, Hin | ].
  apply recorded_In. exists r. split; [exact Hin | reflexivity].
Qed.

Lemma resolve_sorted (query : list byte) (locs : list Z) :
  tokens_wf 0 (Z.of_nat (List.length query)) (core_scanner query) = true ->
  located (core_scanner query) (stored locs) = true ->
  signs_ok query (stored locs) (core_scanner query) = true ->
  resolve query (qsort pgnq_comp_location (stored locs)) (core_scanner query)
    (-1)
  = resolve_each query (core_scanner query)
      (qsort pgnq_comp_location (stored locs)) (-1).
Proof.
  intros Hwf Hloc Hsigns.
  apply (resolve_full query (stored locs) 0 _ (core_scanner query) Hwf Hsigns
           _ (qsort_sorted _)) with (dropped := []).
  - intros r Hin. destruct (stored_sorted_In _ _ Hin) as (Hin' & _ & _ & Hrec).
    split; [exact Hrec | ]. apply (located_In _ _ Hloc r Hin').
  - reflexivity.
  - intros t r [].
Qed.

Lemma negated_normalized (pre lit post : list byte)
  (before after : list token) (c1 c2 c3 : Z) (tree1 tree2 : Node) :
  minus_inserted pre lit post before after c1 c2 c3
    (stored (const_locations tree1)) ->
  core_scanner (bare pre lit post) = bare_tokens pre lit before after c1 ->
  core_scanner (negated pre lit post)
  = negated_tokens pre lit before after c2 c3 ->
  In (Z.of_nat (List.length pre)) (const_locations tree1) ->
  const_locations tree2
  = map (shift_loc (Z.of_nat (List.length pre))) (const_locations tree1) ->
  max_of 0 (param_numbers tree2) = max_of 0 (param_numbers tree1) ->
  located (bare_tokens pre lit before after c1)
    (stored (const_locations tree1)) = true ->
  located (negated_tokens pre lit before after c2 c3)
    (stored (const_locations tree2)) = true ->
  signs_ok (negated pre lit post) (stored (const_locations tree2))
    (negated_tokens pre lit before after c2 c3) = true ->
  normalized (negated pre lit post) tree2
  = normalized (bare pre lit post) tree1.
Proof.
  intros H Hs1 Hs2 Hin Hc2 Hh Hloc1 Hloc2 Hsigns2.
  pose proof H as (_ & _ & _ & _ & _ & _ & Hwf1 & Hwf2 & _ & Hsigns1 & _).
  unfold normalized, render. rewrite Hh.
  rewrite (resolve_sorted (bare pre lit post))
    by (rewrite Hs1; assumption).
  rewrite (resolve_sorted (negated pre lit post))
    by (rewrite Hs2; assumption).
  symmetry. apply render_skeleton.
  rewrite Hs1, Hs2, Hc2, stored_shift, qsort_shift by lia.
  apply (sign_skeleton _ _ _ _ _ _ _ _ _ H _ (qsort_sorted _)).
  - intros r Hr. destruct (stored_sorted_In _ _ Hr) as (Hr' & Hl & H0 & Hrec).
    split; [exact Hl | ]. split; [exact H0 | ]. split; [exact Hrec | ].
    apply (located_In _ _ Hloc1 r Hr').
  - unfold shift_loc.
    destruct (-1 <=? Z.of_nat (List.length pre)) eqn:E; [reflexivity | blia].
  - left. split; [lia | ]. split; [lia | ]. split; [reflexivity | ].
    apply in_map_iff. exists (unresolved (Z.of_nat (List.length pre))).
    split; [reflexivity | ].
    apply (Permutation_in _ (qsort_perm _ _)).
    unfold stored. apply in_map, filter_In. split; [exact Hin | ].
    apply Z.leb_le. lia.
Qed.

(** ** The statement with the sign is well-located too *)

Lemma tokens_wf_shift (lo qlen : Z) (toks : list token) :
  tokens_wf lo qlen toks = true ->
  tokens_wf (lo + 1) (qlen + 1) (map shift_token toks) = true.
Proof.
  revert lo. induction toks as [ | t toks IH]; intros lo H; [reflexivity | ].
  apply tokens_wf_cons in H. destruct H as (H0 & H1 & H2 & H3 & H).
  cbn [map]. apply tokens_wf_cons. cbn [shift_token tok yylloc yyend].
  split; [exact H0 | ]. split; [lia | ]. split; [lia | ]. split; [lia | ].
  apply IH, H.
Qed.

Lemma negated_tokens_wf (pre lit : list byte) (before after : list token)
  (c1 c2 c3 qlen : Z) :
  c2 <> 0 -> c3 <> 0 ->
  forall lo,
    tokens_wf lo qlen (bare_tokens pre lit before after c1) = true ->
    tokens_wf lo (qlen + 1) (negated_tokens pre lit before after c2 c3)
    = true.
Proof.
  intros Hc2 Hc3. unfold bare_tokens, negated_tokens. cbv zeta.
  induction before as [ | b before IH]; intros lo H; cbn [app] in *;
    apply tokens_wf_cons in H; destruct H as (H0 & H1 & H2 & H3 & H).
  - cbn [tok yylloc yyend] in *.
    apply tokens_wf_cons. cbn [tok yylloc yyend].
    split; [exact Hc2 | ]. split; [lia | ]. split; [lia | ]. split; [lia | ].
    apply tokens_wf_cons. cbn [tok yylloc yyend].
    split; [exact Hc3 | ]. split; [lia | ]. split; [lia | ]. split; [lia | ].
    replace (Z.of_nat (List.length pre) + 1 + Z.of_nat (List.length lit))
      with (Z.of_nat (List.length pre) + Z.of_nat (List.length lit) + 1)
      by lia.
    apply tokens_wf_shift, H.
  - apply tokens_wf_cons.
    split; [exact H0 | ]. split; [lia | ]. split; [lia | ]. split; [lia | ].
    apply IH, H.
Qed.

Lemma shift_loc_eqb (p x y : Z) :
  (shift_loc p x =? shift_loc p y) = (x =? y).
Proof.
  unfold shift_loc.
  destruct (Z.leb_spec x p), (Z.leb_spec y p);
    repeat match goal with
      | |- context [?u =? ?v] => destruct (Z.eqb_spec u v)
      end; try reflexivity; lia.
Qed.

Lemma recorded_shift (p y : Z) (all : list pgnqLocationLen) :
  recorded (map (shift_record p) all) (shift_loc p y) = recorded all y.
Proof.
  unfold recorded. induction all as [ | r all IH]; [reflexivity | ].
  cbn [map existsb shift_record location]. rewrite shift_loc_eqb, IH.
  reflexivity.
Qed.

(** No constant of the statement with the sign is located just after the
    sign. *)
Lemma recorded_after_sign (p : Z) (all : list pgnqLocationLen) :
  recorded (map (shift_record p) all) (p + 1) = false.
Proof.
  unfold recorded. induction all as [ | r all IH]; [reflexivity | ].
  cbn [map existsb shift_record location]. rewrite IH, orb_false_r.
  unfold shift_loc. destruct (Z.leb_spec (location r) p);
    apply Z.eqb_neq; lia.
Qed.

Lemma sign_ok_before (pre lit post : list byte) (all : list pgnqLocationLen)
  (t t2 t2' : token) :
  0 <= yylloc t < Z.of_nat (List.length pre) ->
  yylloc t2 <= Z.of_nat (List.length pre) -> yylloc t2' = yylloc t2 ->
  sign_ok (negated pre lit post)
    (map (shift_record (Z.of_nat (List.length pre))) all) t t2'
  = sign_ok (bare pre lit post) all t t2.
Proof.
  intros Ht Ht2 E. unfold sign_ok. rewrite E.
  assert (Hs : forall y, y <= Z.of_nat (List.length pre) ->
                 shift_loc (Z.of_nat (List.length pre)) y = y).
  { intros y Hy. unfold shift_loc.
    destruct (Z.leb_spec y (Z.of_nat (List.length pre))); [reflexivity | lia]. }
  assert (Hr : forall y, y <= Z.of_nat (List.length pre) ->
                 recorded
                   (map (shift_record (Z.of_nat (List.length pre))) all) y
                 = recorded all y).
  { intros y Hy. rewrite <- (Hs y Hy) at 1. apply recorded_shift. }
  rewrite !Hr by lia. unfold bare, negated.
  rewrite !byte_at_app_left by lia. reflexivity.
Qed.

Lemma sign_ok_after (pre lit post : list byte) (all : list pgnqLocationLen)
  (t t2 : token) :
  Z.of_nat (List.length pre) < yylloc t ->
  Z.of_nat (List.length pre) < yylloc t2 ->
  sign_ok (negated pre lit post)
    (map (shift_record (Z.of_nat (List.length pre))) all)
    (shift_token t) (shift_token t2)
  = sign_ok (bare pre lit post) all t t2.
Proof.
  intros Ht Ht2. unfold sign_ok. cbn [shift_token yylloc].
  assert (Hs : forall y, Z.of_nat (List.length pre) < y ->
                 shift_loc (Z.of_nat (List.length pre)) y = y + 1).
  { intros y Hy. unfold shift_loc.
    destruct (Z.leb_spec y (Z.of_nat (List.length pre))); [lia | reflexivity]. }
  assert (Hr : forall y, Z.of_nat (List.length pre) < y ->
                 recorded
                   (map (shift_record (Z.of_nat (List.length pre))) all)
                   (y + 1)
                 = recorded all y).
  { intros y Hy. rewrite <- (Hs y Hy). apply recorded_shift. }
  rewrite !Hr by lia.
  unfold bare, negated. cbn [app]. rewrite byte_at_shift by lia.
  reflexivity.
Qed.

Lemma signs_ok_shift (pre lit post : list byte) (all : list pgnqLocationLen)
  (toks : list token) :
  (forall t, In t toks -> Z.of_nat (List.length pre) < yylloc t) ->
  signs_ok (bare pre lit post) all toks = true ->
  signs_ok (negated pre lit post)
    (map (shift_record (Z.of_nat (List.length pre))) all)
    (map shift_token toks) = true.
Proof.
  induction toks as [ | t toks IH]; intros Hin H; [reflexivity | ].
  cbn [map signs_ok] in *. apply andb_true_iff in H. destruct H as (H1 & H2).
  apply andb_true_iff. split.
  - destruct toks as [ | t2 toks]; [reflexivity | ]. cbn [map].
    rewrite sign_ok_after; [exact H1 | apply Hin | apply Hin].
    + left. reflexivity.
    + right. left. reflexivity.
  - apply IH; [ | exact H2]. intros t' Ht'. apply Hin. right. exact Ht'.
Qed.

Lemma signs_ok_before (pre lit post : list byte) (all : list pgnqLocationLen)
  (before rest1 rest2 : list token) (t1 t2 : token) :
  (forall t, In t before -> 0 <= yylloc t < Z.of_nat (List.length pre)) ->
  yylloc t1 = Z.of_nat (List.length pre) ->
  yylloc t2 = Z.of_nat (List.length pre) ->
  signs_ok (bare pre lit post) all (before ++ t1 :: rest1) = true ->
  signs_ok (negated pre lit post)
    (map (shift_record (Z.of_nat (List.length pre))) all) (t2 :: rest2)
  = true ->
  signs_ok (negated pre lit post)
    (map (shift_record (Z.of_nat (List.length pre))) all)
    (before ++ t2 :: rest2) = true.
Proof.
  intros Hin E1 E2.
  induction before as [ | b before IH]; intros H1 H2; [exact H2 | ].
  cbn [app signs_ok] in H1 |- *.
  apply andb_true_iff in H1. destruct H1 as (Ha & Hb).
  apply andb_true_iff. split.
  - destruct before as [ | b2 before]; cbn [app] in Ha |- *.
    + rewrite (sign_ok_before pre lit post all b t1 t2);
        [exact Ha | apply Hin; left; reflexivity | lia | lia].
    + rewrite (sign_ok_before pre lit post all b b2 b2);
        [exact Ha | apply Hin; left; reflexivity | | reflexivity].
      assert (H : 0 <= yylloc b2 < Z.of_nat (List.length pre))
        by (apply Hin; right; left; reflexivity).
      lia.
  - apply IH; [ | exact Hb | exact H2].
    intros t Ht. apply Hin. right. exact Ht.
Qed.

(** When the first statement is well-located, the statement with the sign
    is, for the records moved with the text. *)
Lemma negated_well_located (pre lit post : list byte)
  (before after : list token) (c1 c2 c3 : Z) (all : list pgnqLocationLen) :
  c2 <> 0 -> c3 <> 0 -> byte_at lit 0 <> "-"%byte ->
  tokens_wf 0 (Z.of_nat (List.length (bare pre lit post)))
    (bare_tokens pre lit before after c1) = true ->
  located (bare_tokens pre lit before after c1) all = true ->
  signs_ok (bare pre lit post) all (bare_tokens pre lit before after c1)
  = true ->
  tokens_wf 0 (Z.of_nat (List.length (negated pre lit post)))
    (negated_tokens pre lit before after c2 c3) = true
  /\ located (negated_tokens pre lit before after c2 c3)
       (map (shift_record (Z.of_nat (List.length pre))) all) = true
  /\ signs_ok (negated pre lit post)
       (map (shift_record (Z.of_nat (List.length pre))) all)
       (negated_tokens pre lit before after c2 c3) = true.
Proof.
  intros Hc2 Hc3 Hfirst Hwf Hloc Hsigns.
  assert (Hlen : Z.of_nat (List.length (negated pre lit post))
                 = Z.of_nat (List.length (bare pre lit post)) + 1).
  { unfold bare, negated. rewrite !length_app. cbn [List.length]. lia. }
  pose proof (fun t => tokens_wf_In _ _ _ t Hwf) as Hin.
  unfold bare_tokens, negated_tokens in *. cbv zeta in *.
  set (p := Z.of_nat (List.length pre)) in *.
  set (n := Z.of_nat (List.length lit)) in *.
  destruct (tokens_wf_split _ _ _ _ _ Hwf) as (Hbef & _ & Hn & _ & Hwfa).
  cbn [yylloc yyend] in Hbef, Hn, Hwfa. rewrite Forall_forall in Hbef.
  assert (Hb : forall t, In t before -> 0 <= yylloc t < p).
  { intros t Ht. specialize (Hbef t Ht).
    assert (Ht' : In t (before ++ mkToken c1 p (p + n) :: after))
      by (apply in_or_app; left; exact Ht).
    specialize (Hin t Ht'). lia. }
  assert (Ha : forall t, In t after -> p < yylloc t).
  { intros t Ht. pose proof (tokens_wf_In _ _ _ _ Hwfa Ht). lia. }
  split; [ | split].
  - rewrite Hlen.
    apply (negated_tokens_wf pre lit before after c1 c2 c3 _ Hc2 Hc3 0 Hwf).
  - unfold located. apply forallb_forall. intros r2 Hr2.
    apply in_map_iff in Hr2. destruct Hr2 as (r & <- & Hr).
    cbn [shift_record location].
    apply orb_true_iff.
    destruct (located_In _ _ Hloc r Hr) as [Hs | Hp].
    + left. apply starts_token_In in Hs. destruct Hs as (t & Ht & Et).
      apply starts_token_In.
      apply in_app_or in Ht. destruct Ht as [Ht | [<- | Ht]].
      * exists t. split; [apply in_or_app; left; exact Ht | ].
        specialize (Hb t Ht). unfold shift_loc.
        destruct (Z.leb_spec (location r) p); lia.
      * exists (mkToken c2 p (p + 1)).
        split; [apply in_or_app; right; left; reflexivity | ].
        cbn [yylloc] in *. unfold shift_loc.
        destruct (Z.leb_spec (location r) p); lia.
      * exists (shift_token t). split.
        { apply in_or_app. right. right. right. apply in_map, Ht. }
        specialize (Ha t Ht). cbn [shift_token yylloc]. unfold shift_loc.
        destruct (Z.leb_spec (location r) p); lia.
    + right. rewrite past_tokens_In in Hp. apply past_tokens_In.
      assert (Hx : p + n <= location r).
      { apply (Hp (mkToken c1 p (p + n))), in_or_app.
        right. left. reflexivity. }
      assert (Hsh : shift_loc p (location r) = location r + 1).
      { unfold shift_loc. destruct (Z.leb_spec (location r) p);
          [lia | reflexivity]. }
      rewrite Hsh. intros t Ht.
      apply in_app_or in Ht. destruct Ht as [Ht | [<- | [<- | Ht]]].
      * specialize (Hbef t Ht). lia.
      * cbn [yyend]. lia.
      * cbn [yyend]. lia.
      * apply in_map_iff in Ht. destruct Ht as (t0 & <- & Ht0).
        cbn [shift_token yyend].
        assert (yyend t0 <= location r); [ | lia].
        apply Hp, in_or_app. right. right. exact Ht0.
  - apply (signs_ok_before pre lit post all before after _
             (mkToken c1 p (p + n)) (mkToken c2 p (p + 1)) Hb eq_refl eq_refl
             Hsigns).
    cbn [signs_ok]. apply andb_true_iff. split.
    { unfold sign_ok. cbn [yylloc]. fold p.
      rewrite recorded_after_sign, andb_false_r. reflexivity. }
    apply andb_true_iff. split.
    + destruct (map shift_token after) as [ | t2 rest]; [reflexivity | ].
      unfold sign_ok. cbn [yylloc].
      assert (Hbyte : byte_at (negated pre lit post) (p + 1) = byte_at lit 0).
      { unfold negated. cbn [app].
        change (pre ++ "-"%byte :: lit ++ post)
          with (pre ++ ["-"%byte] ++ lit ++ post).
        rewrite app_assoc.
        replace (p + 1) with (Z.of_nat (List.length (pre ++ ["-"%byte])))
          by (rewrite length_app; cbn [List.length]; unfold p; lia).
        rewrite byte_at_app.
        destruct lit; [simpl in n; subst n; lia | reflexivity]. }
      rewrite Hbyte.
      destruct (Byte.eqb (byte_at lit 0) "-") eqn:E;
        [apply byte_dec_bl in E; contradiction | reflexivity].
    + apply signs_ok_shift; [exact Ha | ].
      apply signs_ok_app in Hsigns. apply signs_ok_tail in Hsigns.
      exact Hsigns.
Qed.

(** C4, as the code has it.  When the byte of the query at the location of
    a record is a minus sign and the scanner has reached the first token
    [t] that starts at or after that location: if another token [t2]
    follows, the resolver takes exactly that one token more, whatever it
    is, and measures the length with the scanner stopped after [t2], so
    that the length runs from the minus sign to the end of [t2]; if the
    input ends there, the search returns the code 0 with the record
    unchanged and the loop over the records stops, leaving this record and
    all after it as they were.  As a consequence, when the token that
    follows the sign is the token of the constant: a well-located statement
    with any number of constants, one of them the text [lit], and the
    statement that has a minus sign put directly before [lit] (scanned as a
    token of its own, the constant located at the sign and the tokens and
    constants after it one byte on), with the same highest parameter
    number, have the same normalized text; the second statement is
    well-located too. *)
Theorem sign_folding :
  (forall query yyscanner rec t rest,
      codes_ok (pending yyscanner) ->
      byte_at query (location rec) = "-"%byte ->
      skip_before (location rec) (pending yyscanner) = t :: rest ->
      match rest with
      | t2 :: rest2 =>
          find_constant query yyscanner rec
          = (tok t2,
             mkLocationLen (location rec)
               (constant_length
                  (put_NUL (scan_text yyscanner ++ [NUL; NUL]) (yyend t2))
                  (location rec)),
             scanner_at (scan_text yyscanner) (yyend t2) rest2)
          /\ (no_NUL query -> scan_text yyscanner = query ->
              0 <= location rec < yyend t2 ->
              yyend t2 <= Z.of_nat (List.length query) ->
              Z.of_nat (List.length query) + 2 <= INT_MAX ->
              constant_length
                (put_NUL (scan_text yyscanner ++ [NUL; NUL]) (yyend t2))
                (location rec)
              = yyend t2 - location rec)
      | [] =>
          find_constant query yyscanner rec
          = (0, rec, scanner_eof (scan_text yyscanner))
          /\ (forall others last_loc,
                 0 <= location rec -> last_loc < location rec ->
                 fill_loop query (rec :: others) yyscanner last_loc
                 = Ok (rec :: others, scanner_eof (scan_text yyscanner),
                       last_loc, true))
      end)
  /\ (forall pre lit post tree1 tree2 c1 c2 c3 before after,
         let p := Z.of_nat (List.length pre) in
         let n := Z.of_nat (List.length lit) in
         let sql1 := pre ++ lit ++ post in
         let sql2 := pre ++ ("-"%byte :: lit) ++ post in
         let count :=
           Z.of_nat (List.length (stored (const_locations tree1))) in
         scanner_isspace "u" = false -> scanner_isspace "U" = false ->
         no_NUL pre -> no_NUL lit -> no_NUL post ->
         byte_at lit 0 <> "-"%byte -> unicode_quoted lit = false ->
         core_scanner sql1 = before ++ mkToken c1 p (p + n) :: after ->
         core_scanner sql2
         = before ++ mkToken c2 p (p + 1) :: mkToken c3 (p + 1) (p + 1 + n)
                  :: map shift_token after ->
         c2 <> 0 -> c3 <> 0 ->
         raw_parser sql1 = Ok tree1 -> raw_parser sql2 = Ok tree2 ->
         walkable tree1 = true -> walkable tree2 = true ->
         (walk_depth tree1 <= max_stack_depth)%nat ->
         (walk_depth tree2 <= max_stack_depth)%nat ->
         In p (const_locations tree1) ->
         const_locations tree2 = map (shift_loc p) (const_locations tree1) ->
         max_of 0 (param_numbers tree2) = max_of 0 (param_numbers tree1) ->
         well_located (stored (const_locations tree1)) sql1 ->
         count <= max_records ->
         count + max_of 0 (param_numbers tree1) <= INT_MAX ->
         Z.of_nat (List.length sql2) + 10 * count + 1 <= MaxAllocSize ->
         exists out,
           pg_normalize_query sql1 = Ok out
           /\ pg_normalize_query sql2 = Ok out
           /\ out = normalized sql1 tree1
           /\ well_located (stored (const_locations tree2)) sql2).
Proof.
  split.
  - intros query sc rec t rest Hcodes Hminus Hskip.
    pose proof (find_constant_spec query (scan_text sc) sc rec eq_refl Hcodes)
      as Hfind.
    unfold found in Hfind. rewrite Hskip, Hminus in Hfind.
    cbn [Byte.eqb] in Hfind.
    assert (Heq : Byte.eqb "-" "-" = true) by reflexivity.
    rewrite Heq in Hfind.
    destruct rest as [ | t2 rest2].
    + split; [exact Hfind | ].
      intros others last H0 Hlt. cbn [fill_loop].
      destruct (location rec >=? 0) eqn:E0; [ | blia]. cbn [Assert bind].
      destruct (location rec <=? last) eqn:E; [blia | ].
      rewrite Hfind. reflexivity.
    + split; [exact Hfind | ].
      intros Hq Htext Hloc He Hmax. rewrite Htext.
      apply (measured_minus query (location rec) (yyend t2)); assumption.
  - intros pre lit post tree1 tree2 c1 c2 c3 before after p n sql1 sql2 count
      Hu HU Hpre Hlit Hpost Hfirst Huni Hs1 Hs2 Hcode2 Hcode3 Hp1 Hp2 Hok1
      Hok2 Hd1 Hd2 Hin Hc2 Hh Hwl1 Hcount Hnum Halloc.
    change sql1 with (bare pre lit post) in *.
    change sql2 with (negated pre lit post) in *.
    change (before ++ mkToken c1 p (p + n) :: after)
      with (bare_tokens pre lit before after c1) in Hs1.
    change (before ++ mkToken c2 p (p + 1) :: mkToken c3 (p + 1) (p + 1 + n)
                   :: map shift_token after)
      with (negated_tokens pre lit before after c2 c3) in Hs2.
    clear sql1 sql2.
    assert (Hq1 : no_NUL (bare pre lit post))
      by (apply Forall_app; split; [ | apply Forall_app; split]; assumption).
    assert (Hq2 : no_NUL (negated pre lit post)).
    { apply Forall_app. split; [assumption | ].
      apply Forall_app. split; [ | assumption].
      constructor; [discriminate | assumption]. }
    assert (Hlen : Z.of_nat (List.length (negated pre lit post))
                   = Z.of_nat (List.length (bare pre lit post)) + 1).
    { unfold bare, negated. rewrite !length_app. cbn [List.length]. lia. }
    assert (Hst2 : stored (const_locations tree2)
                   = map (shift_record p) (stored (const_locations tree1)))
      by (rewrite Hc2; apply stored_shift; unfold p; lia).
    assert (Hcount2 : Z.of_nat (List.length (stored (const_locations tree2)))
                      = count)
      by (rewrite Hst2, length_map; reflexivity).
    pose proof Hwl1 as (Hwf1 & Hloc1 & Hsigns1).
    rewrite Hs1 in Hwf1, Hloc1, Hsigns1.
    destruct (negated_well_located pre lit post before after c1 c2 c3 _
                Hcode2 Hcode3 Hfirst Hwf1 Hloc1 Hsigns1)
      as (Hwf2 & Hloc2 & Hsigns2).
    fold p in Hloc2, Hsigns2. rewrite <- Hst2 in Hloc2, Hsigns2.
    assert (Hwl2 : well_located (stored (const_locations tree2))
                     (negated pre lit post)).
    { unfold well_located. rewrite Hs2.
      split; [exact Hwf2 | split; assumption]. }
    assert (Hins : minus_inserted pre lit post before after c1 c2 c3
                     (stored (const_locations tree1))).
    { unfold minus_inserted. cbv zeta.
      repeat (split; [assumption | ]).
      split; [unfold MaxAllocSize, INT_MAX in *; lia | ].
      split; [assumption | ].
      apply recorded_In. exists (unresolved p).
      split; [ | reflexivity].
      unfold stored. apply in_map, filter_In. split; [exact Hin | ].
      apply Z.leb_le. unfold p. lia. }
    destruct (normalize_ok (bare pre lit post) tree1 Hu HU Hq1 Hp1 Hok1 Hd1
                Hwl1) as (H1 & _).
    { exact Hcount. }
    { exact Hnum. }
    { fold count. lia. }
    destruct (normalize_ok (negated pre lit post) tree2 Hu HU Hq2 Hp2 Hok2
                Hd2 Hwl2) as (H2 & _).
    { rewrite Hcount2. exact Hcount. }
    { rewrite Hcount2, Hh. exact Hnum. }
    { rewrite Hcount2. exact Halloc. }
    exists (normalized (bare pre lit post) tree1).
    split; [exact H1 | ]. split; [ | split; [reflexivity | exact Hwl2]].
    rewrite H2. f_equal.
    apply (negated_normalized pre lit post before after c1 c2 c3);
      assumption.
Qed.

End Normalize.

(** * Instances *)

(** [pg_normalize_query] with the scanner and the parser of the examples. *)
Notation "'example_normalize'" :=
  (pg_normalize_query (example_scanner examples) pg_isspace
     (example_parser examples) 100) (only parsing).

(** ** Insertion *)

(** Thirty-three insertions double the array of 32 cells once. *)
Example record_all_doubles :
  exists jstate,
    record_all initial_state (map Z.of_nat (seq 0 33)) = Ok jstate
    /\ clocations_count jstate = 33
    /\ clocations_buf_size jstate = 64
    /\ List.length (clocations jstate) = 64%nat.
Proof.
  eexists. split; [vm_compute; reflexivity | ]. repeat split.
Qed.

Lemma record_const_location_spec_witness :
  record_all initial_state [7; -1; 17; 7; 23] = Ok state_between
  /\ records state_between
     = [mkLocationLen 7 (-1); mkLocationLen 17 (-1); mkLocationLen 7 (-1);
        mkLocationLen 23 (-1)]
  /\ pgnq_record_const_location state_between (-1) = Ok state_between.
Proof.
  assert (H : record_all initial_state [7; -1; 17; 7; 23] = Ok state_between)
    by (vm_compute; reflexivity).
  split; [exact H | ].
  destruct (record_const_location_spec [7; -1; 17; 7; 23] state_between H)
    as (Hr & _ & Hneg & _).
  split; [exact Hr | apply Hneg; lia].
Defined.

(** ** The walk *)

Lemma walker_highest_param_witness :
  (walk_depth tree_param <= 100)%nat
  /\ exists jstate,
      pgnq_const_record_walker 100 tree_param initial_state
      = Ok (false, jstate)
      /\ highest_extern_param_id jstate = 3
      /\ records jstate = [mkLocationLen 11 (-1)].
Proof.
  assert (Hd : (walk_depth tree_param <= 100)%nat) by (vm_compute; lia).
  split; [exact Hd | ].
  destruct (walker_highest_param tree_param 100 eq_refl Hd)
    as (_ & jstate & Hw & Hh & _ & _ & Hr).
  { vm_compute. discriminate. }
  exists jstate. split; [exact Hw | ]. split; [exact Hh | exact Hr].
Defined.

(** EXPLAIN without its query ends in the error of
    raw_expression_tree_walker; EXPLAIN with a query leads to the query
    alone, and the constant of the query is recorded. *)
Lemma wrapper_null_falls_back_witness :
  wrapper_fields explain_null = Some (NULL, [A_Const 9])
  /\ pgnq_const_record_walker 3 explain_null initial_state
     = Err UnrecognizedNodeType
  /\ pgnq_const_record_walker 3 explain_query initial_state
     = pgnq_const_record_walker 2 (A_Const 5) initial_state
  /\ reached explain_query = [explain_query; A_Const 5]
  /\ exists jstate',
      pgnq_const_record_walker 3 explain_query initial_state
      = Ok (false, jstate')
      /\ records jstate' = [mkLocationLen 5 (-1)].
Proof.
  split; [reflexivity | ].
  destruct (wrapper_null_falls_back explain_null NULL [A_Const 9] 2
              initial_state eq_refl) as (Hnull & _).
  destruct (Hnull eq_refl) as (_ & _ & Herr).
  destruct (wrapper_null_falls_back explain_query (A_Const 5) [A_Const 9] 2
              initial_state eq_refl) as (_ & Hinner).
  destruct (Hinner ltac:(discriminate)) as (Hgo & Hreach & Hrec).
  split; [exact Herr | ]. split; [exact Hgo | ]. split; [exact Hreach | ].
  destruct Hrec as (jstate' & Hwalk & Hr & _).
  - reflexivity.
  - vm_compute. lia.
  - exact initial_state_wf.
  - exact initial_state_buf_size_ok.
  - vm_compute. discriminate.
  - exists jstate'. split; [exact Hwalk | exact Hr].
Defined.

(** The walk as the specification words it goes through the child fields of
    EXPLAIN without its query and records the constant at 9; the walker
    raises the error and records nothing.  So for copy t from stdin where
    a = 1, a CopyStmt without a query: the walk of the specification
    records the constant of the WHERE clause, the walker raises the error,
    and with it [pg_normalize_query]. *)
Lemma wrapper_null_falls_back_counterexample :
  wrapper_fields explain_null = Some (NULL, [A_Const 9])
  /\ (exists jstate,
         spec_walker 3 explain_null initial_state = Ok (false, jstate)
         /\ records jstate = [mkLocationLen 9 (-1)])
  /\ pgnq_const_record_walker 3 explain_null initial_state
     = Err UnrecognizedNodeType
  /\ pgnq_const_record_walker 3 explain_null initial_state
     <> spec_walker 3 explain_null initial_state
  /\ (exists jstate,
         spec_walker 100 tree_copy initial_state = Ok (false, jstate)
         /\ records jstate = [mkLocationLen 28 (-1)])
  /\ pgnq_const_record_walker 100 tree_copy initial_state
     = Err UnrecognizedNodeType
  /\ pg_normalize_query (example_scanner examples_copy) pg_isspace
       (example_parser examples_copy) 100 sql_copy
     = Err UnrecognizedNodeType.
Proof.
  split; [reflexivity | ].
  split; [eexists; split; [vm_compute; reflexivity | reflexivity] | ].
  split; [reflexivity | ].
  split; [vm_compute; discriminate | ].
  split; [eexists; split; [vm_compute; reflexivity | reflexivity] | ].
  split; vm_compute; reflexivity.
Qed.

(** ** The resolver *)


(** The quoted string with Unicode escapes of [sql_unicode] starts at
    offset 7; the token ends at 21, after three blanks the scanner took with
    it.  The length stored is 11, that of the string without the blanks. *)
Lemma unicode_literal_trimmed_witness :
  let found_ := find_constant pg_isspace sql_unicode
                  (scanner_init sql_unicode tokens_unicode)
                  (mkLocationLen 7 (-1)) in
  fst (fst found_) = USCONST
  /\ strlen_from (scanbuf (snd found_)) 7 = 14%nat
  /\ unicode_quoted (text_at (scanbuf (snd found_)) 7) = true
  /\ snd (fst found_) = mkLocationLen 7 11.
Proof.
  intros found_.
  assert (E : find_constant pg_isspace sql_unicode
                (scanner_init sql_unicode tokens_unicode)
                (mkLocationLen 7 (-1))
              = (fst (fst found_), snd (fst found_), snd found_))
    by (vm_compute; reflexivity).
  destruct (unicode_literal_trimmed pg_isspace sql_unicode
              (scanner_init sql_unicode tokens_unicode)
              (mkLocationLen 7 (-1)) (fst (fst found_)) (snd (fst found_))
              (snd found_))
    as (Hloc & Hlen & _ & Htrim).
  - vm_compute. discriminate.
  - vm_compute. discriminate.
  - apply (tokens_wf_codes 0 24). vm_compute. reflexivity.
  - exact E.
  - vm_compute. discriminate.
  - split; [vm_compute; reflexivity | ].
    split; [vm_compute; reflexivity | ].
    assert (Hq : unicode_quoted (text_at (scanbuf (snd found_)) 7) = true)
      by (vm_compute; reflexivity).
    split; [exact Hq | ].
    destruct (Htrim Hq) as (kept & spaces & Htext & Hkept & _).
    vm_compute. reflexivity.
Defined.

(** ** Duplicates *)

Lemma duplicate_collapse_witness :
  locator_state state_between
  /\ exists jstate',
      pgnq_fill_in_constant_lengths (example_scanner examples) pg_isspace
        state_between sql_between = Ok jstate'
      /\ placeholders_at 7 (records jstate') = 1%nat
      /\ example_normalize sql_between
         = Ok (bytes "SELECT $1 BETWEEN $3 AND $4").
Proof.
  assert (Hst : locator_state state_between)
    by (apply locator_state_b_true; vm_compute; reflexivity).
  split; [exact Hst | ].
  destruct (duplicate_collapse (example_scanner examples) pg_isspace
              state_between sql_between Hst)
    as (jstate' & Hfill & _ & _ & Hone & _).
  - apply (tokens_wf_codes 0 24). vm_compute. reflexivity.
  - exists jstate'. split; [exact Hfill | ].
    assert (E : pgnq_fill_in_constant_lengths (example_scanner examples)
                  pg_isspace state_between sql_between
                = Ok (set_records state_between
                        [mkLocationLen 7 1; mkLocationLen 7 (-1);
                         mkLocationLen 17 1; mkLocationLen 23 1]))
      by (vm_compute; reflexivity).
    rewrite E in Hfill. injection Hfill as <-.
    split; [ | vm_compute; reflexivity].
    apply (Hone 7 (mkLocationLen 7 1)).
    + vm_compute. left. reflexivity.
    + reflexivity.
    + vm_compute. discriminate.
Defined.

(** ** The end of the input *)

(** The scanner of [sql_cut] yields no token at or after the second
    constant: the first constant is replaced, the others are left. *)
Lemma soft_failure_witness :
  stop_point sql_cut (qsort pgnq_comp_location (records state_cut))
    (example_scanner examples sql_cut) (-1)
  = Some ([mkLocationLen 7 (-1)], mkLocationLen 10 (-1),
          [mkLocationLen 13 (-1)])
  /\ (exists jstate',
         pgnq_fill_in_constant_lengths (example_scanner examples) pg_isspace
           state_cut sql_cut = Ok jstate'
         /\ records jstate'
            = [mkLocationLen 7 1; mkLocationLen 10 (-1);
               mkLocationLen 13 (-1)])
  /\ pgnq_build_normalized_query (example_scanner examples) pg_isspace
       state_cut sql_cut 0 14
     = Ok (bytes "select $1, 2, 3", 15).
Proof.
  assert (Hsp : stop_point sql_cut
                  (qsort pgnq_comp_location (records state_cut))
                  (example_scanner examples sql_cut) (-1)
                = Some ([mkLocationLen 7 (-1)], mkLocationLen 10 (-1),
                        [mkLocationLen 13 (-1)]))
    by (vm_compute; reflexivity).
  split; [exact Hsp | ].
  assert (Hst : locator_state state_cut)
    by (apply locator_state_b_true; vm_compute; reflexivity).
  destruct (soft_failure (example_scanner examples) pg_isspace state_cut
              sql_cut [mkLocationLen 7 (-1)] (mkLocationLen 10 (-1))
              [mkLocationLen 13 (-1)] Hst) as (_ & _ & Hfill & Hbuild).
  - apply (tokens_wf_codes 0 14). vm_compute. reflexivity.
  - exact Hsp.
  - split.
    + destruct Hfill as (jstate' & Hfill & Hrec & _).
      exists jstate'. split; [exact Hfill | ]. rewrite Hrec.
      vm_compute. reflexivity.
    + destruct Hbuild as (out & head & Hb & Hout & _).
      * reflexivity.
      * reflexivity.
      * apply no_NUL_b_true. vm_compute. reflexivity.
      * repeat split; vm_compute; reflexivity.
      * vm_compute. discriminate.
      * vm_compute. discriminate.
      * vm_compute. discriminate.
      * change (Z.of_nat (List.length sql_cut)) with 14 in Hb.
        rewrite Hb, Hout. vm_compute. reflexivity.
Defined.

(** ** The numbering of the placeholders *)

(** A statement that has the parameter $3 and one constant: the constant
    becomes $4. *)
Lemma placeholder_numbering_witness :
  example_parser examples sql_param = Ok tree_param
  /\ well_located (example_scanner examples)
       (stored (const_locations tree_param)) sql_param
  /\ example_normalize sql_param = Ok (bytes "select $3, $4").
Proof.
  assert (Hparse : example_parser examples sql_param = Ok tree_param)
    by (vm_compute; reflexivity).
  assert (Hwl : well_located (example_scanner examples)
                  (stored (const_locations tree_param)) sql_param)
    by (repeat split; vm_compute; reflexivity).
  split; [exact Hparse | ]. split; [exact Hwl | ].
  destruct (placeholder_numbering (example_scanner examples) pg_isspace
              (example_parser examples) 100 sql_param tree_param)
    as (Hn & _).
  - reflexivity.
  - reflexivity.
  - apply no_NUL_b_true. vm_compute. reflexivity.
  - exact Hparse.
  - reflexivity.
  - vm_compute. lia.
  - exact Hwl.
  - vm_compute. discriminate.
  - vm_compute. discriminate.
  - vm_compute. discriminate.
  - rewrite Hn. vm_compute. reflexivity.
Defined.

(** With the constant 5 recorded twice, the constants 1 and 9 become $3 and
    $4: the record passed over has taken the number 2.  Numbered as the
    specification words it they would be $2 and $3. *)
Lemma placeholder_numbering_counterexample :
  example_normalize sql_between = Ok (bytes "SELECT $1 BETWEEN $3 AND $4")
  /\ spec_render sql_between 0
       (resolved (example_scanner examples) pg_isspace state_between
          sql_between)
     = bytes "SELECT $1 BETWEEN $2 AND $3"
  /\ example_normalize sql_between
     <> Ok (spec_render sql_between 0
              (resolved (example_scanner examples) pg_isspace state_between
                 sql_between)).
Proof.
  split; [vm_compute; reflexivity | ].
  split; [vm_compute; reflexivity | ].
  vm_compute. discriminate.
Qed.

(** ** The size of the buffer *)

(** C6, at a statement the code can receive.  With the parameter
    $2147483647 in the statement, the number of the first placeholder,
    0 + 1 + 2147483647, does not fit in an [int] and wraps around to
    -2147483648.  The placeholder has twelve bytes where the buffer allows
    eleven for it: of the 32 bytes allocated (21 + 10 * 1 + 1), sprintf
    writes up to the byte of index 32, one past the end, and n_quer_loc
    reaches 32, above norm_query_buflen = 31. *)
Theorem buffer_overrun_at_INT_MAX :
  example_parser examples sql_overflow = Ok tree_overflow
  /\ (exists jstate,
         pgnq_const_record_walker 100 tree_overflow initial_state
         = Ok (false, jstate)
         /\ highest_extern_param_id jstate = INT_MAX
         /\ records jstate = [mkLocationLen 20 (-1)])
  /\ 0 +i 1 +i INT_MAX = INT_MIN
  /\ placeholder INT_MAX 0 = bytes "$-2147483648"
  /\ example_normalize sql_overflow = Err (BufferOverrun 33 32).
Proof.
  split; [vm_compute; reflexivity | ].
  split; [eexists; split; [vm_compute; reflexivity | split; reflexivity] | ].
  repeat split; vm_compute; reflexivity.
Qed.

(** One less, and the text fits. *)
Example no_overrun_below_INT_MAX :
  pg_normalize_query
    (fun _ => tokens_overflow) pg_isspace
    (fun _ => Ok (raw_stmt (OtherNode [OtherNode [OtherNode [ParamRef 2147483646];
                                                  OtherNode [A_Const 20]]])))
    100 (bytes "select $2147483646, 1")
  = Ok (bytes "select $2147483646, $2147483647").
Proof. vm_compute. reflexivity. Qed.

(** ** A minus sign *)

Notation "'sign_normalize'" :=
  (pg_normalize_query (example_scanner examples_sign) pg_isspace
     (example_parser examples_sign) 100) (only parsing).

(** 4, 5, 6 and 4, -5, 6 have the same normalized text. *)
Lemma sign_folding_witness :
  sign_normalize sql_three = Ok (bytes "select $1, $2, $3")
  /\ sign_normalize sql_three_negated = Ok (bytes "select $1, $2, $3").
Proof.
  destruct (sign_folding (example_scanner examples_sign) pg_isspace
              (example_parser examples_sign) 100) as (_ & Hfold).
  pose proof (Hfold (bytes "select 4, ") (bytes "5") (bytes ", 6")
                tree_three tree_three_negated ICONST MINUS ICONST
                (firstn 3 tokens_three) (skipn 4 tokens_three)) as H.
  cbv zeta in H.
  specialize (H eq_refl eq_refl).
  do 3 specialize (H ltac:(apply no_NUL_b_true; vm_compute; reflexivity)).
  specialize (H ltac:(vm_compute; discriminate)).
  do 3 specialize (H ltac:(vm_compute; reflexivity)).
  do 2 specialize (H ltac:(vm_compute; discriminate)).
  do 4 specialize (H ltac:(vm_compute; reflexivity)).
  do 2 specialize (H ltac:(vm_compute; lia)).
  specialize (H ltac:(vm_compute; right; left; reflexivity)).
  do 2 specialize (H ltac:(vm_compute; reflexivity)).
  specialize (H ltac:(repeat split; vm_compute; reflexivity)).
  do 3 specialize (H ltac:(vm_compute; discriminate)).
  destruct H as (out & H1 & H2 & Hout & _).
  split.
  - etransitivity; [exact H1 | ]. rewrite Hout. vm_compute. reflexivity.
  - etransitivity; [exact H2 | ]. rewrite Hout. vm_compute. reflexivity.
Defined.

(** The token after the sign is not always the constant.  In select -(1)
    with the constant located at the sign, and in select - -1, every
    condition on the locations holds; the one token more is the
    parenthesis, or the second sign, the length stops there, and the digit
    is left in the text after the placeholder. *)
Lemma sign_folding_counterexample :
  well_located (example_scanner examples_sign)
    (stored (const_locations tree_paren_negated)) sql_paren_negated
  /\ byte_at sql_paren_negated 7 = "-"%byte
  /\ resolve pg_isspace sql_paren_negated
       (stored (const_locations tree_paren_negated)) tokens_paren_negated (-1)
     = [mkLocationLen 7 2]
  /\ sub sql_paren_negated 7 (7 + 2) = bytes "-("
  /\ sign_normalize sql_paren_negated = Ok (bytes "select $11)")
  /\ sign_normalize sql_paren = Ok (bytes "select ($1)")
  /\ sign_normalize sql_paren_negated <> sign_normalize sql_paren
  /\ well_located (example_scanner examples_sign)
       (stored (const_locations tree_one)) sql_twice_negated
  /\ sign_normalize sql_twice_negated = Ok (bytes "select $11")
  /\ sign_normalize sql_one = Ok (bytes "select $1")
  /\ sign_normalize sql_twice_negated <> sign_normalize sql_one.
Proof.
  split; [repeat split; vm_compute; reflexivity | ].
  do 5 (split; [vm_compute; reflexivity | ]).
  split; [vm_compute; discriminate | ].
  split; [repeat split; vm_compute; reflexivity | ].
  do 2 (split; [vm_compute; reflexivity | ]).
  vm_compute. discriminate.
Qed.

(** ** Instances of the further properties *)

(** The records of [state_between] come out in the order 7, 7, 17, 23. *)
Lemma resolver_sorts_witness :
  locator_state state_between
  /\ exists jstate',
      pgnq_fill_in_constant_lengths (example_scanner examples) pg_isspace
        state_between sql_between = Ok jstate'
      /\ StronglySorted Z.le (map location (records jstate'))
      /\ clocations_buf_size jstate' = 32.
Proof.
  assert (Hst : locator_state state_between)
    by (apply locator_state_b_true; vm_compute; reflexivity).
  split; [exact Hst | ].
  destruct (resolver_sorts (example_scanner examples) pg_isspace
              state_between sql_between)
    as (jstate' & Hfill & Hsorted & _ & _ & Hsize & _).
  - apply Hst.
  - apply Hst.
  - apply (tokens_wf_codes 0 24). vm_compute. reflexivity.
  - exists jstate'. split; [exact Hfill | ]. split; [exact Hsorted | ].
    rewrite Hsize. reflexivity.
Defined.

(** A statement with a parameter and a constant without a location. *)
Lemma no_constant_unchanged_witness :
  stored (const_locations tree_no_const) = []
  /\ pg_normalize_query (example_scanner examples_more) pg_isspace
       (example_parser examples_more) 100 sql_no_const
     = Ok (bytes "select $2 from t limit all").
Proof.
  assert (Hnone : stored (const_locations tree_no_const) = [])
    by (vm_compute; reflexivity).
  split; [exact Hnone | ].
  apply (no_constant_unchanged (example_scanner examples_more) pg_isspace
           (example_parser examples_more) 100 sql_no_const tree_no_const).
  - apply no_NUL_b_true. vm_compute. reflexivity.
  - vm_compute. reflexivity.
  - reflexivity.
  - vm_compute. lia.
  - exact Hnone.
  - vm_compute. discriminate.
Defined.

(** The walk of [tree_param] needs six nested calls; with two allowed the
    stack-depth guard raises its error. *)
Lemma walker_outcomes_witness :
  pgnq_const_record_walker 2 tree_param initial_state
  = Err StackDepthExceeded
  /\ (2 < walk_depth tree_param)%nat
  /\ exists jstate,
      pgnq_const_record_walker 6 tree_param initial_state = Ok (false, jstate).
Proof.
  destruct (walker_outcomes 2 tree_param initial_state initial_state_wf
              initial_state_buf_size_ok) as (Hout & _).
  destruct (walker_outcomes 6 tree_param initial_state initial_state_wf
              initial_state_buf_size_ok) as (_ & Hok).
  assert (E : pgnq_const_record_walker 2 tree_param initial_state
              = Err StackDepthExceeded) by (vm_compute; reflexivity).
  rewrite E in Hout.
  split; [exact E | ].
  split.
  - destruct Hout as [(_ & H) | [(H & _) | (H & _)]];
      [exact H | discriminate | discriminate].
  - apply Hok; [reflexivity | vm_compute; lia | vm_compute; discriminate].
Defined.

(** The records of [state_between] in another order and in a larger array:
    the same text. *)
Lemma builder_order_independent_witness :
  Permutation (records state_between) (records state_between_doubled)
  /\ pgnq_build_normalized_query (example_scanner examples) pg_isspace
       state_between_doubled sql_between 0 24
     = Ok (bytes "SELECT $1 BETWEEN $3 AND $4", 27).
Proof.
  assert (Hperm : Permutation (records state_between)
                    (records state_between_doubled)).
  { change (records state_between)
      with [mkLocationLen 7 (-1); mkLocationLen 17 (-1);
            mkLocationLen 7 (-1); mkLocationLen 23 (-1)].
    change (records state_between_doubled)
      with [mkLocationLen 23 (-1); mkLocationLen 7 (-1);
            mkLocationLen 7 (-1); mkLocationLen 17 (-1)].
    apply Permutation_sym.
    apply (Permutation_cons_app
             [mkLocationLen 7 (-1); mkLocationLen 17 (-1);
              mkLocationLen 7 (-1)] []).
    cbn [app]. apply perm_skip, perm_swap. }
  split; [exact Hperm | ].
  rewrite <- (builder_order_independent (example_scanner examples) pg_isspace
                state_between state_between_doubled sql_between 0 24).
  - vm_compute. reflexivity.
  - apply locator_state_b_true. vm_compute. reflexivity.
  - apply locator_state_b_true. vm_compute. reflexivity.
  - exact Hperm.
  - reflexivity.
  - apply (tokens_wf_codes 0 24). vm_compute. reflexivity.
Defined.

(** The text of 24 bytes becomes one of 27. *)
Lemma builder_result_length_witness :
  well_located (example_scanner examples) (records state_between) sql_between
  /\ exists out,
      pgnq_build_normalized_query (example_scanner examples) pg_isspace
        state_between sql_between 0 24 = Ok (out, 27)
      /\ strlen out = 27%nat.
Proof.
  assert (Hwl : well_located (example_scanner examples)
                  (records state_between) sql_between)
    by (repeat split; vm_compute; reflexivity).
  split; [exact Hwl | ].
  destruct (builder_result_length (example_scanner examples) pg_isspace
              state_between sql_between)
    as (out & n & Hbuild & Hn & Hlen & _).
  - reflexivity.
  - reflexivity.
  - apply no_NUL_b_true. vm_compute. reflexivity.
  - apply locator_state_b_true. vm_compute. reflexivity.
  - exact Hwl.
  - vm_compute. discriminate.
  - vm_compute. discriminate.
  - vm_compute. discriminate.
  - change (Z.of_nat (List.length sql_between)) with 24 in Hbuild.
    assert (E : pgnq_build_normalized_query (example_scanner examples)
                  pg_isspace state_between sql_between 0 24
                = Ok (bytes "SELECT $1 BETWEEN $3 AND $4", 27))
      by (vm_compute; reflexivity).
    rewrite E in Hbuild. injection Hbuild as <- <-.
    exists (bytes "SELECT $1 BETWEEN $3 AND $4").
    split; [reflexivity | ]. vm_compute. reflexivity.
Defined.

(** A location recorded inside the constant 123: the record 8 is resolved
    to the three bytes up to the end of the comma, which begin before the
    constant 123 has ended, and the assertion fails. *)
Lemma builder_outcomes_witness :
  resolved (example_scanner examples_more) pg_isspace state_inside sql_inside
  = [mkLocationLen 7 3; mkLocationLen 8 3]
  /\ pgnq_build_normalized_query (example_scanner examples_more) pg_isspace
       state_inside sql_inside 0 13
     = Err (AssertFailed 294).
Proof.
  split; [vm_compute; reflexivity | ].
  destruct (builder_outcomes (example_scanner examples_more) pg_isspace
              state_inside sql_inside) as (jstate' & Hfill & _ & Hbuild).
  - reflexivity.
  - reflexivity.
  - apply no_NUL_b_true. vm_compute. reflexivity.
  - apply locator_state_b_true. vm_compute. reflexivity.
  - vm_compute. reflexivity.
  - vm_compute. discriminate.
  - vm_compute. discriminate.
  - vm_compute. discriminate.
  - change (Z.of_nat (List.length sql_inside)) with 13 in Hbuild.
    rewrite Hbuild.
    assert (E : pgnq_fill_in_constant_lengths (example_scanner examples_more)
                  pg_isspace state_inside sql_inside
                = Ok (set_records state_inside
                        [mkLocationLen 7 3; mkLocationLen 8 3]))
      by (vm_compute; reflexivity).
    rewrite E in Hfill. injection Hfill as <-. vm_compute. reflexivity.
Defined.

(** Two constants at two locations: $1 and $2. *)
Lemma numbering_contiguous_witness :
  NoDup (map location (records state_unicode))
  /\ pgnq_build_normalized_query (example_scanner examples) pg_isspace
       state_unicode sql_unicode 0 24
     = Ok (bytes "select $1   , $2", 16).
Proof.
  assert (Hnd : NoDup (map location (records state_unicode))).
  { change (map location (records state_unicode)) with [7; 23].
    constructor; [intros [H | []]; discriminate | ].
    constructor; [intros [] | constructor]. }
  split; [exact Hnd | ].
  destruct (numbering_contiguous (example_scanner examples) pg_isspace
              state_unicode sql_unicode)
    as (jstate' & Hfill & _ & Hbuild).
  - reflexivity.
  - reflexivity.
  - apply no_NUL_b_true. vm_compute. reflexivity.
  - apply locator_state_b_true. vm_compute. reflexivity.
  - repeat split; vm_compute; reflexivity.
  - exact Hnd.
  - vm_compute. reflexivity.
  - vm_compute. discriminate.
  - vm_compute. discriminate.
  - vm_compute. discriminate.
  - change (Z.of_nat (List.length sql_unicode)) with 24 in Hbuild.
    rewrite Hbuild.
    assert (E : pgnq_fill_in_constant_lengths (example_scanner examples)
                  pg_isspace state_unicode sql_unicode
                = Ok (set_records state_unicode
                        [mkLocationLen 7 11; mkLocationLen 23 1]))
      by (vm_compute; reflexivity).
    rewrite E in Hfill. injection Hfill as <-. vm_compute. reflexivity.
Defined.

(** The statement with a location inside a constant, from the start. *)
Lemma normalize_outcomes_witness :
  example_parser examples_more sql_inside = Ok tree_inside
  /\ pg_normalize_query (example_scanner examples_more) pg_isspace
       (example_parser examples_more) 100 sql_inside
     = Err (AssertFailed 294)
  /\ pg_normalize_query (example_scanner examples_more) pg_isspace
       (example_parser examples_more) 100 sql_param
     = Ok (normalized (example_scanner examples_more) pg_isspace sql_param
             tree_param).
Proof.
  assert (Hparse : example_parser examples_more sql_inside = Ok tree_inside)
    by (vm_compute; reflexivity).
  split; [exact Hparse | ].
  pose proof (normalize_outcomes (example_scanner examples_more) pg_isspace
                (example_parser examples_more) 100 sql_inside tree_inside
                eq_refl eq_refl) as H1.
  pose proof (normalize_outcomes (example_scanner examples_more) pg_isspace
                (example_parser examples_more) 100 sql_param tree_param
                eq_refl eq_refl) as H2.
  cbv zeta in H1, H2.
  specialize (H1 ltac:(apply no_NUL_b_true; vm_compute; reflexivity) Hparse
                ltac:(vm_compute; reflexivity)
                ltac:(vm_compute; discriminate)
                ltac:(vm_compute; discriminate)).
  specialize (H2 ltac:(apply no_NUL_b_true; vm_compute; reflexivity)
                ltac:(vm_compute; reflexivity)
                ltac:(vm_compute; reflexivity)
                ltac:(vm_compute; discriminate)
                ltac:(vm_compute; discriminate)).
  split.
  - destruct (pg_normalize_query (example_scanner examples_more) pg_isspace
                (example_parser examples_more) 100 sql_inside) as [out | e].
    + destruct H1 as (_ & _ & H1). clear H2. vm_compute in H1.
      discriminate H1.
    + clear H2.
      destruct H1 as [(_ & H1) | [(_ & H1) | [(_ & H1) | (-> & _)]]].
      * vm_compute in H1. lia.
      * vm_compute in H1. discriminate H1.
      * discriminate H1.
      * reflexivity.
  - destruct (pg_normalize_query (example_scanner examples_more) pg_isspace
                (example_parser examples_more) 100 sql_param) as [out | e].
    + destruct H2 as (-> & _). reflexivity.
    + clear H1.
      destruct H2 as [(_ & H2) | [(_ & H2) | [(_ & H2) | (_ & H2)]]].
      * vm_compute in H2. lia.
      * vm_compute in H2. discriminate H2.
      * discriminate H2.
      * vm_compute in H2. discriminate H2.
Defined.

(** a = 1 and a = -1: the same text before the constant, nothing after
    it. *)
Lemma same_skeleton_same_text_witness :
  skeleton sql_plain
    (resolve pg_isspace sql_plain
       (qsort pgnq_comp_location (stored (const_locations tree_where)))
       (example_scanner examples sql_plain) (-1)) 0
  = [Some (bytes "select * from t where a = "); Some []]
  /\ exists out,
      pg_normalize_query (example_scanner examples) pg_isspace
        (example_parser examples) 100 sql_plain = Ok out
      /\ pg_normalize_query (example_scanner examples) pg_isspace
           (example_parser examples) 100 sql_negated = Ok out.
Proof.
  split; [vm_compute; reflexivity | ].
  apply (same_skeleton_same_text (example_scanner examples) pg_isspace
           (example_parser examples) 100 sql_plain sql_negated
           tree_where tree_where).
  - reflexivity.
  - reflexivity.
  - apply no_NUL_b_true. vm_compute. reflexivity.
  - apply no_NUL_b_true. vm_compute. reflexivity.
  - vm_compute. reflexivity.
  - vm_compute. reflexivity.
  - reflexivity.
  - reflexivity.
  - vm_compute. lia.
  - vm_compute. lia.
  - repeat split; vm_compute; reflexivity.
  - repeat split; vm_compute; reflexivity.
  - vm_compute. discriminate.
  - vm_compute. discriminate.
  - vm_compute. discriminate.
  - vm_compute. discriminate.
  - vm_compute. discriminate.
  - vm_compute. discriminate.
  - reflexivity.
  - vm_compute. reflexivity.
Defined.

(** The constant 17 of [sql_between], from the start of the text. *)
Lemma constant_token_length_witness :
  find_constant pg_isspace sql_between
    (scanner_init sql_between tokens_between) (mkLocationLen 17 (-1))
  = (ICONST, mkLocationLen 17 1,
     scanner_at sql_between 18 [mkToken KEYWORD 19 22; mkToken ICONST 23 24]).
Proof.
  destruct (constant_token_length pg_isspace sql_between
              (scanner_init sql_between tokens_between)
              [mkToken KEYWORD 0 6; mkToken ICONST 7 8; mkToken KEYWORD 9 16]
              [mkToken KEYWORD 19 22; mkToken ICONST 23 24]
              (mkToken ICONST 17 18) 0 (-1)) as (H & _).
  - reflexivity.
  - reflexivity.
  - apply no_NUL_b_true. vm_compute. reflexivity.
  - vm_compute. discriminate.
  - lia.
  - vm_compute. reflexivity.
  - vm_compute. discriminate.
  - vm_compute. reflexivity.
  - exact H.
Defined.


(** ** One pass of the loop of the builder *)

(** select $3, 1: the pass for the one record writes the text before the
    constant and a placeholder that reads back as 4. *)
Lemma placeholder_read_back_witness :
  exists text v1,
    build_loop sql_param 0 3 [mkLocationLen 11 1] 0
      (mkBuild (repeat NUL 23) 0 0 0 0) = Ok v1
    /\ firstn (Z.to_nat (n_quer_loc v1)) (norm_query v1)
       = bytes "select $3, " ++ "$"%byte :: text
    /\ parse_d text = 4.
Proof.
  destruct (placeholder_read_back sql_param 3 12 10 23 (mkLocationLen 11 1)
              [] 0 (mkBuild (repeat NUL 23) 0 0 0 0))
    as (text & v1 & Hloop & Hpre & _ & Hparse & _).
  { repeat split; try (vm_compute; reflexivity); vm_compute; discriminate. }
  exists text, v1.
  split; [exact Hloop | ]. split; [exact Hpre | exact Hparse].
Defined.

(** select $3, 1: the placeholder of the one record has a number above 3. *)
Lemma placeholders_fresh_witness :
  exists jstate text v1,
    pgnq_const_record_walker 100 tree_param initial_state = Ok (false, jstate)
    /\ build_loop sql_param 0 (highest_extern_param_id jstate)
         [mkLocationLen 11 1] 0 (mkBuild (repeat NUL 23) 0 0 0 0) = Ok v1
    /\ firstn (Z.to_nat (n_quer_loc v1)) (norm_query v1)
       = bytes "select $3, " ++ "$"%byte :: text
    /\ 3 < parse_d text.
Proof.
  assert (Hjs : exists jstate,
             pgnq_const_record_walker 100 tree_param initial_state
             = Ok (false, jstate)
             /\ highest_extern_param_id jstate = 3).
  { eexists. split; [vm_compute; reflexivity | reflexivity]. }
  destruct Hjs as (jstate & Hwalk & Hh).
  destruct (placeholders_fresh 100 tree_param jstate sql_param 12 10 23
              (mkLocationLen 11 1) [] 0 (mkBuild (repeat NUL 23) 0 0 0 0)
              Hwalk)
    as (text & v1 & Hloop & Hpre & _ & _ & Habove).
  { rewrite Hh.
    repeat split; try (vm_compute; reflexivity); vm_compute; discriminate. }
  exists jstate, text, v1.
  split; [exact Hwalk | ]. split; [exact Hloop | ]. split; [exact Hpre | ].
  apply Habove. vm_compute. left. reflexivity.
Defined.
